(** * color_map_gen: the colour-ramp generator of coverage-vizgen

    A shallow embedding of [bin/color_map_gen.py] and the properties of
    its gradient engine: the bin allocation, the linear RGB interpolation,
    the value sub-ranges, the colour-to-range dictionary and the text
    encoders.

    Python floats are IEEE 754 binary64 numbers; they are modelled by
    Rocq's primitive floats, which are the same format with the same
    round-to-nearest-even operations.  Python integers are [Z]. *)

From Stdlib Require Import ZArith List String Ascii Bool Lia Floats.
From Stdlib Require Import Permutation Sorted DecimalString HexadecimalString.
Import ListNotations.

Local Open Scope string_scope.
Local Open Scope Z_scope.

(** ** The Python runtime the program uses *)

Module Py.

(** The exceptions the program can raise. *)
Inductive exn : Type :=
| ZeroDivisionError
| ValueError
| OverflowError.

(** A computation that returns a value or raises. *)
Inductive result (A : Type) : Type :=
| Ok (a : A)
| Raise (e : exn).

Arguments Ok {A} a.
Arguments Raise {A} e.

Definition bind {A B : Type} (c : result A) (k : A -> result B) : result B :=
  match c with
  | Ok a => k a
  | Raise e => Raise e
  end.

(** [[f(x) for x in l]], evaluated left to right. *)
Fixpoint mapM {A B : Type} (f : A -> result B) (l : list A) : result (list B) :=
  match l with
  | [] => Ok []
  | x :: l' =>
      bind (f x) (fun y => bind (mapM f l') (fun ys => Ok (y :: ys)))
  end.

(** Characters that cannot be written inside a string literal. *)
Definition dq : string := String (ascii_of_nat 34) EmptyString.
Definition nl : string := String (ascii_of_nat 10) EmptyString.
Definition tab : string := String (ascii_of_nat 9) EmptyString.

(** [sep.join(l)]. *)
Fixpoint join (sep : string) (l : list string) : string :=
  match l with
  | [] => ""
  | [x] => x
  | x :: l' => x ++ sep ++ join sep l'
  end.

(** [str(z)] and [format(z, "x")] on integers. *)
Definition str_int (z : Z) : string :=
  DecimalString.NilZero.string_of_int (Z.to_int z).

Definition format_x (z : Z) : string :=
  if z <? 0
  then "-" ++ HexadecimalString.NilZero.string_of_uint (N.to_hex_uint (Z.to_N (- z)))
  else HexadecimalString.NilZero.string_of_uint (N.to_hex_uint (Z.to_N z)).

(** *** [int(s, 16)]

    A character of a text is its code point, from 0 to 255.  Surrounding
    white space is dropped, a sign and a [0x] prefix are optional, the
    digits may be separated by single underscores, and there is at
    least one digit.

    The white space that [int] drops is the ASCII white space (tab to
    carriage return, and the space) and, beyond ASCII, the Unicode white
    space, which [int] turns into spaces before it reads the text: the
    next line character U+0085 and the no-break space U+00A0.  The
    separators U+001C to U+001F are not dropped.  No character from 128
    to 255 is a decimal digit.  The one other use of [strip], on a
    formatted number, meets no white space but the space. *)

Definition is_space (c : ascii) : bool :=
  let n := Z.of_nat (nat_of_ascii c) in
  ((9 <=? n) && (n <=? 13)) || (n =? 32) || (n =? 133) || (n =? 160).

Definition hex_digit (c : ascii) : option Z :=
  let n := Z.of_nat (nat_of_ascii c) in
  if (48 <=? n) && (n <=? 57) then Some (n - 48)
  else if (97 <=? n) && (n <=? 102) then Some (n - 87)
  else if (65 <=? n) && (n <=? 70) then Some (n - 55)
  else None.

Fixpoint lstrip (s : string) : string :=
  match s with
  | String c s' => if is_space c then lstrip s' else s
  | EmptyString => s
  end.

Fixpoint rstrip (s : string) : string :=
  match s with
  | String c s' =>
      match rstrip s' with
      | EmptyString => if is_space c then EmptyString else String c EmptyString
      | r => String c r
      end
  | EmptyString => s
  end.

Definition strip (s : string) : string := rstrip (lstrip s).

(** The digits after the sign and the prefix: [acc] is the value read so
    far, [prev_us] says that the previous character was an underscore. *)
Fixpoint hex_digits (s : string) (acc : Z) (prev_us : bool) : option Z :=
  match s with
  | EmptyString => if prev_us then None else Some acc
  | String c s' =>
      if Ascii.eqb c "_"%char
      then (if prev_us then None else hex_digits s' acc true)
      else match hex_digit c with
           | Some d => hex_digits s' (16 * acc + d) false
           | None => None
           end
  end.

(** The text after an optional [0x] and one optional underscore. *)
Definition skip_prefix (s : string) : string :=
  match s with
  | String "0"%char (String x s') =>
      if Ascii.eqb x "x"%char || Ascii.eqb x "X"%char
      then match s' with
           | String "_"%char s'' => s''
           | _ => s'
           end
      else s
  | _ => s
  end.

Definition hex_body (s : string) : option Z :=
  match skip_prefix s with
  | EmptyString => None
  | String c _ => if Ascii.eqb c "_"%char then None else hex_digits (skip_prefix s) 0 false
  end.

(** The text after an optional sign, and whether the sign is [-]. *)
Definition skip_sign (s : string) : bool * string :=
  match s with
  | String "+"%char s' => (false, s')
  | String "-"%char s' => (true, s')
  | _ => (false, s)
  end.

Definition int16 (s : string) : result Z :=
  let '(negative, digits) := skip_sign (strip s) in
  match hex_body digits with
  | Some z => Ok (if negative then - z else z)
  | None => Raise ValueError
  end.

(** *** Floats *)

(** [float(z)] for an integer: exact below 2^53 in magnitude, which
    covers every integer the program converts (loop counters bounded by
    the colour budget, channels of two hexadecimal digits, the opacity
    1). *)
Definition float_of_int (z : Z) : float :=
  if z <? 0
  then PrimFloat.opp (PrimFloat.of_uint63 (Uint63.of_Z (- z)))
  else PrimFloat.of_uint63 (Uint63.of_Z z).

(** [int(x)] for a float: truncation toward zero; it raises on an
    infinity and on a NaN. *)
Definition int_of_float (x : float) : result Z :=
  match Prim2SF x with
  | S754_nan => Raise ValueError
  | S754_infinity _ => Raise OverflowError
  | S754_zero _ => Ok 0
  | S754_finite s m e =>
      let a := if 0 <=? e then Zpos m * 2 ^ e else Zpos m / 2 ^ (- e) in
      Ok (if s then - a else a)
  end.

(** A number as the program holds it: an [int] or a [float]. *)
Inductive num : Type :=
| PyInt (z : Z)
| PyFloat (x : float).

(** [float(v)]. *)
Definition to_float (v : num) : float :=
  match v with
  | PyInt z => float_of_int z
  | PyFloat x => x
  end.

(** [a - b]: an integer when both are, a float otherwise. *)
Definition num_sub (a b : num) : num :=
  match a, b with
  | PyInt x, PyInt y => PyInt (x - y)
  | _, _ => PyFloat (PrimFloat.sub (to_float a) (to_float b))
  end.

(** *** Fixed-point formatting: [{0:10.10f}] *)

(** The integer nearest to [a / b], ties to even ([0 <= a], [0 < b]). *)
Definition div_half_even (a b : Z) : Z :=
  let q := a / b in
  match 2 * (a mod b) ?= b with
  | Lt => q
  | Gt => q + 1
  | Eq => if Z.even q then q else q + 1
  end.

(** [m * 2^e * 10^10] rounded to the nearest integer. *)
Definition scaled10 (m e : Z) : Z :=
  if 0 <=? e then m * 2 ^ e * 10 ^ 10
  else div_half_even (m * 10 ^ 10) (2 ^ (- e)).

Fixpoint repeat_string (n : nat) (s : string) : string :=
  match n with
  | O => ""
  | S k => s ++ repeat_string k s
  end.

(** Right-align [s] in a field of [w] characters. *)
Definition pad_left (w : nat) (fill s : string) : string :=
  repeat_string (w - String.length s)%nat fill ++ s.

Definition sign_string (s : bool) : string := if s then "-" else "".

Definition format_10_10f (x : float) : string :=
  pad_left 10 " "
    match Prim2SF x with
    | S754_nan => "nan"
    | S754_infinity s => sign_string s ++ "inf"
    | S754_zero s => sign_string s ++ "0.0000000000"
    | S754_finite s m e =>
        let q := scaled10 (Zpos m) e in
        sign_string s ++ str_int (q / 10 ^ 10) ++ "."
          ++ pad_left 10 "0" (str_int (q mod 10 ^ 10))
    end.

(** *** [str(x)] on a float: the shortest decimal that reads back as [x]

    [x = m * 2^e].  All comparisons are between integers: the float and
    the two ends of the interval of reals that round to it are scaled by
    [2^sh], and a decimal [c * 10^p] by the matching power of ten. *)

Section ShortestDecimal.
Variables (m e : Z).

Definition sh : Z := Z.max 0 (2 - e).
Definition scaled_x : Z := m * 2 ^ (e + sh).
Definition scaled_hi : Z := (2 * m + 1) * 2 ^ (e - 1 + sh).
Definition scaled_lo : Z :=
  if (m =? 2 ^ 52) && (-1074 <? e)
  then (4 * m - 1) * 2 ^ (e - 2 + sh)
  else (2 * m - 1) * 2 ^ (e - 1 + sh).

(** [x < 10^d]. *)
Definition below_pow10 (d : Z) : bool :=
  if 0 <=? d then scaled_x <? 10 ^ d * 2 ^ sh
  else scaled_x * 10 ^ (- d) <? 2 ^ sh.

(** The least [d] with [x < 10^d], searched upward from [d]. *)
Fixpoint decimal_point_from (fuel : nat) (d : Z) : Z :=
  match fuel with
  | O => d
  | S k => if below_pow10 d then d else decimal_point_from k (d + 1)
  end.

Definition decimal_point : Z :=
  decimal_point_from 6 ((Z.log2 m + e) * 30103 / 100000 - 2).

(** For a decimal [c * 10^p]: the numbers to compare. *)
Definition cand (c p : Z) : Z := c * 2 ^ sh * 10 ^ (Z.max p 0).
Definition unit10 (p : Z) : Z := 10 ^ (Z.max (- p) 0).

Definition reads_back (c p : Z) : bool :=
  if Z.even m
  then (scaled_lo * unit10 p <=? cand c p) && (cand c p <=? scaled_hi * unit10 p)
  else (scaled_lo * unit10 p <? cand c p) && (cand c p <? scaled_hi * unit10 p).

(** The [k]-digit decimal nearest to [x] among those that read back as
    [x], if there is one. *)
Definition shortest_at (k : Z) : option (Z * Z) :=
  let p := decimal_point - k in
  let c := scaled_x * unit10 p / (2 ^ sh * 10 ^ (Z.max p 0)) in
  let below := scaled_x * unit10 p - cand c p in
  let above := cand (c + 1) p - scaled_x * unit10 p in
  match reads_back c p, reads_back (c + 1) p with
  | true, false => Some (c, p)
  | false, true => Some (c + 1, p)
  | false, false => None
  | true, true =>
      match below ?= above with
      | Lt => Some (c, p)
      | Gt => Some (c + 1, p)
      | Eq => Some (if Z.even c then c else c + 1, p)
      end
  end.

Fixpoint shortest_from (fuel : nat) (k : Z) : Z * Z :=
  match fuel with
  | O => (scaled_x, - sh)
  | S f =>
      match shortest_at k with
      | Some cp => cp
      | None => shortest_from f (k + 1)
      end
  end.

Definition shortest : Z * Z := shortest_from 17 1.
End ShortestDecimal.

(** Drop the zeros at the end of [c], moving them into the exponent. *)
Fixpoint drop_zeros (fuel : nat) (c p : Z) : Z * Z :=
  match fuel with
  | O => (c, p)
  | S k => if (c mod 10 =? 0) && (0 <? c) then drop_zeros k (c / 10) (p + 1) else (c, p)
  end.

Definition string_head (s : string) : string := substring 0 1 s.
Definition string_tail (s : string) : string := substring 1 (String.length s) s.

(** The digits [ds] with the decimal point after the first [decpt] of
    them: fixed notation when [-4 < decpt <= 16], scientific notation
    otherwise. *)
Definition place_point (ds : string) (decpt : Z) : string :=
  let nd := Z.of_nat (String.length ds) in
  if (decpt <=? -4) || (16 <? decpt) then
    let ex := decpt - 1 in
    string_head ds
      ++ (if 1 <? nd then "." ++ string_tail ds else "")
      ++ "e" ++ (if ex <? 0 then "-" else "+")
      ++ pad_left 2 "0" (str_int (Z.abs ex))
  else if decpt <=? 0 then
    "0." ++ repeat_string (Z.to_nat (- decpt)) "0" ++ ds
  else if nd <=? decpt then
    ds ++ repeat_string (Z.to_nat (decpt - nd)) "0" ++ ".0"
  else
    substring 0 (Z.to_nat decpt) ds ++ "."
      ++ substring (Z.to_nat decpt) (String.length ds) ds.

Definition str_float (x : float) : string :=
  match Prim2SF x with
  | S754_nan => "nan"
  | S754_infinity s => sign_string s ++ "inf"
  | S754_zero s => sign_string s ++ "0.0"
  | S754_finite s m e =>
      let '(c0, p0) := shortest (Zpos m) e in
      let '(c, p) := drop_zeros 17 c0 p0 in
      let ds := str_int c in
      sign_string s ++ place_point ds (Z.of_nat (String.length ds) + p)
  end.

(** [str(v)]. *)
Definition str (v : num) : string :=
  match v with
  | PyInt z => str_int z
  | PyFloat x => str_float x
  end.

End Py.

Import Py.

Notation "x <- c ;; k" := (bind c (fun x => k))
  (at level 61, c at next level, right associativity).

(** ** The program *)

Definition MAX_NUM_COLORS : Z := 255.

(** A Python [dict] with string keys: the items in insertion order.
    Writing an existing key replaces its value in place. *)
Definition dict : Type := list (string * string).

Fixpoint dict_set (d : dict) (k v : string) : dict :=
  match d with
  | [] => [(k, v)]
  | (k', v') :: d' =>
      if String.eqb k' k then (k', v) :: d' else (k', v') :: dict_set d' k v
  end.

Fixpoint dict_get (d : dict) (k : string) : option string :=
  match d with
  | [] => None
  | (k', v') :: d' => if String.eqb k' k then Some v' else dict_get d' k
  end.

(** The module's global variables.  [CSS_COLOR_MAP] is a list of
    [{"color": c, "stop": s}] items, kept as pairs [(c, s)];
    [GEO_SERVER_STYLE] is a dictionary with four fixed keys. *)
Record globals : Type := Globals {
  COLOR_VAL_MAP : dict;
  CSS_COLOR_MAP : list (string * string);
  css_string : string;
  sld_string : string;
  lut_string : string;
  gibs_string : string
}.

Definition initial_globals : globals :=
  Globals [] [] "" "" "" "".

(** [hex_to_RGB]: the slices [hex[1:3]], [hex[3:5]], [hex[5:7]] read in
    base 16. *)
Definition hex_to_RGB (hex : string) : result (list Z) :=
  mapM (fun i => int16 (substring i 2 hex)) [1; 3; 5]%nat.

(** [RGB_to_hex], on components that are integers already. *)
Definition RGB_to_hex (RGB : list Z) : string :=
  "#" ++ join "" (map (fun v => if v <? 16 then "0" ++ format_x v else format_x v) RGB).

(** What one iteration of the loop of [generate_gradient_values]
    computes before it writes to the globals. *)
Record stop : Type := Stop {
  hex_color : string;
  curr_vector : list Z;
  opacity : num;          (* the number whose [str] is [opacityStr] *)
  step_val : float;       (* on entry to the iteration *)
  upper_bound : float;
  val_range : string;
  stop_str : string
}.

Definition opacityStr (st : stop) : string := str (opacity st).

(** [float(opacityStr) == 0].  The string is [str] of a number, or the
    literal ["1"], which is [str(1)]; [float(str(v))] is [float(v)]. *)
Definition transparent (st : stop) : bool :=
  PrimFloat.eqb (to_float (opacity st)) 0%float.

(** [x / z] for a float and an integer: the integer is converted to a
    float, which is zero exactly when the integer is. *)
Definition truediv_int (x : float) (z : Z) : result float :=
  if z =? 0 then Raise ZeroDivisionError
  else Ok (PrimFloat.div x (float_of_int z)).

(** [v / z] for a number and an integer. *)
Definition num_truediv (v : num) (z : Z) : result float :=
  truediv_int (to_float v) z.

Definition quoted (s : string) : string := dq ++ s ++ dq.

(** The six writes that end an iteration. *)
Definition emit (g : globals) (st : stop) : globals :=
  let channels := map str_int (curr_vector st) in
  {| COLOR_VAL_MAP := dict_set (COLOR_VAL_MAP g) (hex_color st) (val_range st);
     CSS_COLOR_MAP := (CSS_COLOR_MAP g ++ [(hex_color st, stop_str st)])%list;
     css_string := css_string g ++ nl ++ tab ++ "color-map-entry("
       ++ quoted (hex_color st) ++ "," ++ stop_str st ++ "," ++ opacityStr st ++ ")";
     sld_string := sld_string g ++ nl ++ tab ++ tab ++ tab ++ tab ++ tab
       ++ "<sld:ColorMapEntry color=" ++ quoted (hex_color st)
       ++ " opacity=" ++ quoted (opacityStr st)
       ++ " quantity=" ++ quoted (stop_str st) ++ "/>";
     lut_string := lut_string g ++ stop_str st ++ " " ++ join " " channels ++ " "
       ++ (if transparent st then "0" else "255") ++ nl;
     gibs_string := gibs_string g ++ tab ++ "<ColorMapEntry rgb=" ++ quoted (join "," channels)
       ++ " transparent=" ++ quoted (if transparent st then "true" else "false")
       ++ " label=" ++ quoted (stop_str st) ++ "/>" ++ nl |}.

Section Interpolator.

(** The arguments of [generate_gradient_values], with the two colours
    already read by [hex_to_RGB], and the increment [delta]. *)
Variables (s f : list Z) (start_val end_val : float) (n : Z).
Variables (start_opacity end_opacity : num) (exclude_end : bool).
Variable delta : float.

(** [int(s[j] + (float(t)/(n))*(f[j]-s[j]))], with [n - 1] for [n]
    when the end is included. *)
Definition channel (t : Z) (j : nat) : result Z :=
  let sj := nth j s 0 in
  let fj := nth j f 0 in
  let steps := if exclude_end then n else n - 1 in
  int_of_float
    (float_of_int sj
     + (float_of_int t / float_of_int steps) * float_of_int (fj - sj))%float.

(** The body of the loop up to the writes, for the iteration [t] that
    starts at [sv]. *)
Definition step (t : Z) (sv : float) : result stop :=
  let op :=
    if t =? 0 then start_opacity
    else if t =? n - 1 then end_opacity
    else PyInt 1 in
  vec <- mapM (channel t) [0; 1; 2]%nat ;;
  let ub0 := if (sv + delta <=? end_val)%float then (sv + delta)%float else end_val in
  let ub := if t =? n - 2 then end_val else ub0 in
  Ok {| hex_color := RGB_to_hex vec;
        curr_vector := vec;
        opacity := op;
        step_val := sv;
        upper_bound := ub;
        val_range := strip (format_10_10f sv) ++ "," ++ strip (format_10_10f ub);
        stop_str := strip (format_10_10f (sv + delta - delta)%float) |}.

(** [for t in range(t, t + fuel)]. *)
Fixpoint gradient_loop (fuel : nat) (t : Z) (sv : float) (g : globals)
  : result globals :=
  match fuel with
  | O => Ok g
  | S k =>
      st <- step t sv ;;
      gradient_loop k (t + 1) (sv + delta)%float (emit g st)
  end.

(** The same iterations, collecting what each one computes. *)
Fixpoint stops_loop (fuel : nat) (t : Z) (sv : float) : result (list stop) :=
  match fuel with
  | O => Ok []
  | S k =>
      st <- step t sv ;;
      rest <- stops_loop k (t + 1) (sv + delta)%float ;;
      Ok (st :: rest)
  end.

End Interpolator.

(** The first lines of [generate_gradient_values]: both divisions by
    [n - 1] are made before [exclude_end] is looked at; the opacity
    increment is computed and never used. *)
Definition increments (start_val end_val : float) (n : Z)
    (start_opacity end_opacity : num) (exclude_end : bool) : result float :=
  delta0 <- truediv_int (end_val - start_val)%float (n - 1) ;;
  delta <- (if exclude_end then truediv_int (end_val - start_val)%float n
            else Ok delta0) ;;
  opacity_delta0 <- num_truediv (num_sub end_opacity start_opacity) (n - 1) ;;
  opacity_delta <- (if exclude_end
                    then num_truediv (num_sub end_opacity start_opacity) n
                    else Ok opacity_delta0) ;;
  Ok delta.

Definition generate_gradient_values (start_hex finish_hex : string)
    (start_val end_val : float) (n : Z) (start_opacity end_opacity : num)
    (exclude_end : bool) (g : globals) : result globals :=
  delta <- increments start_val end_val n start_opacity end_opacity exclude_end ;;
  s <- hex_to_RGB start_hex ;;
  f <- hex_to_RGB finish_hex ;;
  gradient_loop s f end_val n start_opacity end_opacity exclude_end delta
    (Z.to_nat n) 0 start_val g.

(** The stops of one call, in order. *)
Definition segment_stops (start_hex finish_hex : string)
    (start_val end_val : float) (n : Z) (start_opacity end_opacity : num)
    (exclude_end : bool) : result (list stop) :=
  delta <- increments start_val end_val n start_opacity end_opacity exclude_end ;;
  s <- hex_to_RGB start_hex ;;
  f <- hex_to_RGB finish_hex ;;
  stops_loop s f end_val n start_opacity end_opacity exclude_end delta
    (Z.to_nat n) 0 start_val.

(** [start_geoserver_string] and [finish_geoserver_string]. *)
Definition xml_declaration : string :=
  "<?xml version=" ++ quoted "1.0" ++ " encoding=" ++ quoted "UTF-8" ++ "?>".

Definition start_geoserver_string (g : globals) : globals :=
  {| COLOR_VAL_MAP := COLOR_VAL_MAP g;
     CSS_COLOR_MAP := CSS_COLOR_MAP g;
     css_string := "* {" ++ nl ++ "raster-channels:auto;" ++ nl ++ "raster-color-map:";
     sld_string := xml_declaration
       ++ "<sld:UserStyle xmlns=" ++ quoted "http://www.opengis.net/sld"
       ++ " xmlns:sld=" ++ quoted "http://www.opengis.net/sld" ++ " "
       ++ "xmlns:ogc=" ++ quoted "http://www.opengis.net/ogc"
       ++ " xmlns:gml=" ++ quoted "http://www.opengis.net/gml" ++ ">" ++ nl
       ++ tab ++ "<sld:Name>Default Styler</sld:Name>" ++ nl
       ++ tab ++ "<sld:FeatureTypeStyle>" ++ nl
       ++ tab ++ tab ++ "<sld:Name>name</sld:Name>" ++ nl
       ++ tab ++ tab ++ "<sld:Rule>" ++ nl
       ++ tab ++ tab ++ tab ++ "<sld:RasterSymbolizer>" ++ nl
       ++ tab ++ tab ++ tab ++ tab ++ "<sld:ColorMap type=" ++ quoted "intervals" ++ ">";
     lut_string := lut_string g;
     gibs_string := xml_declaration ++ nl
       ++ "<ColorMap xmlns:xsi=" ++ quoted "http://www.w3.org/2001/XMLSchema-instance"
       ++ " xsi:noNamespaceSchemaLocation="
       ++ quoted "http://gibs.earthdata.nasa.gov/schemas/ColorMap_v1.0.xsd" ++ ">" ++ nl |}.

Definition finish_geoserver_string (g : globals) : globals :=
  {| COLOR_VAL_MAP := COLOR_VAL_MAP g;
     CSS_COLOR_MAP := CSS_COLOR_MAP g;
     css_string := css_string g ++ ";" ++ nl ++ "raster-color-map-type:intervals;" ++ nl ++ "}";
     sld_string := sld_string g ++ nl
       ++ tab ++ tab ++ tab ++ tab ++ "</sld:ColorMap>" ++ nl
       ++ tab ++ tab ++ tab ++ "</sld:RasterSymbolizer>" ++ nl
       ++ tab ++ tab ++ "</sld:Rule>" ++ nl
       ++ tab ++ "</sld:FeatureTypeStyle>" ++ nl
       ++ "</sld:UserStyle>" ++ nl;
     lut_string := lut_string g;
     gibs_string := gibs_string g ++ "</ColorMap>" |}.

(** A line of the input file, [[color, value]] or
    [[color, value, opacity]], with its numeric fields as [float(...)]
    reads them.  A line on which [float] raises is outside the model. *)
Record line : Type := Line {
  color : string;
  value : float;
  line_opacity : option float
}.

(** [float(line[2]) if len(line) > 2 else 1]. *)
Definition opacity_of (l : line) : num :=
  match line_opacity l with
  | Some x => PyFloat x
  | None => PyInt 1
  end.

(** [sorted(lines, key=lambda x: float(x[1]))]: a stable sort that only
    asks whether one key is less than another. *)
Fixpoint insert_line (x : line) (l : list line) : list line :=
  match l with
  | [] => [x]
  | y :: l' =>
      if (value y <? value x)%float then y :: insert_line x l' else x :: l
  end.

Definition sorted (lines : list line) : list line :=
  fold_right insert_line [] lines.

(** [math.ceil(a / b)] as an integer, for integers [a] and [b]. *)
Definition ceil_div (a b : Z) : result Z :=
  if b =? 0 then Raise ZeroDivisionError else Ok (- ((- a) / b)).

(** The number of bins of one group. *)
Definition num_bins_of (bins_per_group bins_remaining : Z) : Z :=
  if bins_per_group * 2 <=? bins_remaining then bins_per_group else bins_remaining.

Section Groups.
Variables (num_groups bins_per_group : Z).

(** The loop over the groups; [lines] holds the lines from
    [line_index] on, so the loop runs once for each line that has a
    successor. *)
Fixpoint groups_loop (line_index : Z) (lines : list line)
    (bins_remaining : Z) (g : globals) : result globals :=
  match lines with
  | line_a :: ((line_b :: _) as rest) =>
      let num_bins := num_bins_of bins_per_group bins_remaining in
      g' <- generate_gradient_values (color line_a) (color line_b)
              (value line_a) (value line_b) num_bins
              (opacity_of line_a) (opacity_of line_b)
              (negb (line_index =? num_groups - 1)) g ;;
      groups_loop (line_index + 1) rest (bins_remaining - num_bins) g'
  | _ => Ok g
  end.

(** The stops of all groups, in order. *)
Fixpoint groups_stops (line_index : Z) (lines : list line)
    (bins_remaining : Z) : result (list stop) :=
  match lines with
  | line_a :: ((line_b :: _) as rest) =>
      let num_bins := num_bins_of bins_per_group bins_remaining in
      here <- segment_stops (color line_a) (color line_b)
                (value line_a) (value line_b) num_bins
                (opacity_of line_a) (opacity_of line_b)
                (negb (line_index =? num_groups - 1)) ;;
      rest_stops <- groups_stops (line_index + 1) rest (bins_remaining - num_bins) ;;
      Ok (here ++ rest_stops)%list
  | _ => Ok []
  end.

(** The bins the loop hands out to [k] groups in turn. *)
Fixpoint bins (k : nat) (bins_remaining : Z) : list Z :=
  match k with
  | O => []
  | S k' =>
      let num_bins := num_bins_of bins_per_group bins_remaining in
      num_bins :: bins k' (bins_remaining - num_bins)
  end.
End Groups.

(** The bins of [num_groups] groups under a budget. *)
Definition allocate (num_groups budget : Z) : result (list Z) :=
  bins_per_group <- ceil_div budget num_groups ;;
  Ok (bins bins_per_group (Z.to_nat num_groups) budget).

(** The globals at the end of the core of [run], from the lines read. *)
Definition run_globals (lines : list line) : result globals :=
  let lines := sorted lines in
  let num_groups := Z.of_nat (List.length lines) - 1 in
  bins_per_group <- ceil_div MAX_NUM_COLORS num_groups ;;
  g <- groups_loop num_groups bins_per_group 0 lines MAX_NUM_COLORS
         (start_geoserver_string initial_globals) ;;
  Ok (finish_geoserver_string g).

(** The stops of the whole gradient. *)
Definition gradient (lines : list line) : result (list stop) :=
  let lines := sorted lines in
  let num_groups := Z.of_nat (List.length lines) - 1 in
  bins_per_group <- ceil_div MAX_NUM_COLORS num_groups ;;
  groups_stops num_groups bins_per_group 0 lines MAX_NUM_COLORS.

(** [json.dumps] of the two containers; none of their strings holds a
    character that JSON escapes. *)
Definition dumps_stops (l : list (string * string)) : string :=
  "[" ++ join ", "
    (map (fun cs => "{" ++ quoted "color" ++ ": " ++ quoted (fst cs) ++ ", "
                    ++ quoted "stop" ++ ": " ++ quoted (snd cs) ++ "}") l) ++ "]".

Definition dumps_ranges (d : dict) : string :=
  "{" ++ join ", " (map (fun kv => quoted (fst kv) ++ ": " ++ quoted (snd kv)) d) ++ "}".

(** What [run] writes to the six output files when all are asked for. *)
Record outputs : Type := Outputs {
  out_stops : string;
  out_ranges : string;
  out_geoserverCSS : string;
  out_geoserverSLD : string;
  out_LUT : string;
  out_gibs : string
}.

Definition write_outputs (g : globals) : outputs :=
  {| out_stops := dumps_stops (CSS_COLOR_MAP g);
     out_ranges := dumps_ranges (COLOR_VAL_MAP g);
     out_geoserverCSS := css_string g;
     out_geoserverSLD := sld_string g;
     out_LUT := lut_string g;
     out_gibs := gibs_string g |}.

Definition run (lines : list line) : result outputs :=
  g <- run_globals lines ;;
  Ok (write_outputs g).

(** ** Definitions used to state the properties *)

(** *** Views of the run *)

(** The groups receive the bins of a list, one each, in order. *)
Fixpoint groups_with (ng : Z) (i : Z) (lines : list line) (ns : list Z)
  : result (list stop) :=
  match lines, ns with
  | line_a :: ((line_b :: _) as rest), num_bins :: ns' =>
      here <- segment_stops (color line_a) (color line_b)
                (value line_a) (value line_b) num_bins
                (opacity_of line_a) (opacity_of line_b)
                (negb (i =? ng - 1)) ;;
      rest_stops <- groups_with ng (i + 1) rest ns' ;;
      Ok (here ++ rest_stops)%list
  | _, _ => Ok []
  end.

(** The bins handed out in all. *)
Definition sum_bins (l : list Z) : Z := fold_right Z.add 0 l.

(** The value tracker after [i] more increments. *)
Fixpoint accumulate (delta : float) (i : nat) (sv : float) : float :=
  match i with
  | O => sv
  | S k => accumulate delta k (sv + delta)%float
  end.

(** The range a key holds after the stops [G] are written in order over
    a dictionary that held [acc] for it. *)
Definition last_range_from (c : string) (acc : option string) (G : list stop)
  : option string :=
  fold_left
    (fun acc st => if String.eqb (hex_color st) c then Some (val_range st) else acc)
    G acc.

(** The texts one stop adds to the GDAL LUT and to the GIBS colour map. *)
Definition alpha255 (st : stop) : string :=
  if PrimFloat.eqb (to_float (opacity st)) 0%float then "0" else "255".

Definition lut_line (st : stop) : string :=
  stop_str st ++ " " ++ join " " (map str_int (curr_vector st)) ++ " "
    ++ alpha255 st ++ nl.

Definition gibs_entry (st : stop) : string :=
  tab ++ "<ColorMapEntry rgb=" ++ quoted (join "," (map str_int (curr_vector st)))
    ++ " transparent="
    ++ quoted (if PrimFloat.eqb (to_float (opacity st)) 0%float then "true" else "false")
    ++ " label=" ++ quoted (stop_str st) ++ "/>" ++ nl.

Definition concat_strings (l : list string) : string := fold_right append "" l.

(** What [start_geoserver_string] puts before the GIBS entries. *)
Definition gibs_header : string := gibs_string (start_geoserver_string initial_globals).

(** *** Colours *)

(** The two characters [RGB_to_hex] writes for one channel. *)
Definition two_hex (v : Z) : string :=
  if v <? 16 then "0" ++ format_x v else format_x v.

Definition is_lower_hex (c : ascii) : bool :=
  let n := Z.of_nat (nat_of_ascii c) in
  ((48 <=? n) && (n <=? 57)) || ((97 <=? n) && (n <=? 102)).

(** The channel [v] is written as two lower-case hexadecimal digits
    that [int(_, 16)] reads back as [v]. *)
Definition two_hex_round_trips (v : Z) : bool :=
  match two_hex v with
  | String c1 (String c2 EmptyString) =>
      is_lower_hex c1 && is_lower_hex c2
      && match int16 (two_hex v) with
         | Ok z => z =? v
         | Raise _ => false
         end
  | _ => false
  end.

(** Three channels, each of two hexadecimal digits at most. *)
Definition channels_in_range (v : list Z) : Prop :=
  exists r g b, v = [r; g; b] /\ Z.abs r <= 255 /\ Z.abs g <= 255 /\ Z.abs b <= 255.

(** Channels that are not negative, as those of a colour [#RRGGBB]. *)
Definition channels_nonneg (v : list Z) : Prop := Forall (fun c => 0 <= c) v.

(** [c] lies between [a] and [b], whichever of them is the larger. *)
Definition between (a b c : Z) : Prop := Z.min a b <= c <= Z.max a b.

(** The claim's reading of a channel, on exact numbers:
    [round(start + p * (end - start))] with [p = t / steps]. *)
Definition rounded_channel (start finish t steps : Z) : Z :=
  div_half_even (start * steps + t * (finish - start)) steps.

(** *** The order of the lines *)

(** One line comes before another when its value is smaller. *)
Definition before (a b : line) : Prop := (value a <? value b)%float = true.

(** No two lines of the list have values that compare equal or do not
    compare at all. *)
Definition distinct_values (lines : list line) : Prop :=
  ForallOrdPairs (fun a b => before a b \/ before b a) lines.

(** *** Magnitudes of floats

    The specification of the primitive floats gives a finite number as
    a sign, a mantissa [m] and an exponent [e], standing for
    [m * 2^e]. *)

(** The number of binary digits of an integer. *)
Definition digits (z : Z) : Z := Zdigits2 z.

(** The exponent of the format's grid at a magnitude. *)
Definition fexp64 (e : Z) : Z := fexp prec emax e.

(** A float that is zero or finite and smaller than [2^E] in magnitude. *)
Definition sf_below (E : Z) (x : spec_float) : Prop :=
  match x with
  | S754_zero _ => True
  | S754_finite _ m e => digits (Zpos m) + e <= E
  | _ => False
  end.

(** A finite float that is not zero and at least [2^(L-1)] in magnitude. *)
Definition sf_above (L : Z) (x : spec_float) : Prop :=
  match x with
  | S754_finite _ m e => L <= digits (Zpos m) + e
  | _ => False
  end.

(** A float that is zero, or finite with the sign [s] and a magnitude
    between the integers [lo] and [hi]: for [m * 2^e] with [e <= 0],
    the integer [m] lies between [lo * 2^(-e)] and [hi * 2^(-e)]. *)
Definition sf_bracket (s : bool) (lo hi : Z) (x : spec_float) : Prop :=
  match x with
  | S754_zero _ => lo <= 0 <= hi
  | S754_finite s' m e =>
      s' = s /\ e <= 0 /\ lo * 2 ^ (- e) <= Zpos m <= hi * 2 ^ (- e)
  | _ => False
  end.

(** The float of an integer [z] below 2^53 in magnitude: the positive
    zero for 0, and otherwise the sign of [z] with a mantissa of 53
    digits that is [|z| * 2^(-e)]. *)
Definition sf_integer (z : Z) (x : spec_float) : Prop :=
  match x with
  | S754_zero s => z = 0 /\ s = false
  | S754_finite s m e =>
      z <> 0 /\ s = (z <? 0) /\ -52 <= e <= 0
      /\ Zpos m = Z.abs z * 2 ^ (- e) /\ digits (Zpos m) = 53
  | _ => False
  end.

(** A record of [shr] that stands for its mantissa exactly. *)
Definition exact_record (r : shr_record) : Prop :=
  shr_r r = false /\ shr_s r = false.

(** Whether a location says that something was cut off. *)
Definition inexact (l : location) : Z :=
  match l with
  | loc_Exact => 0
  | loc_Inexact _ => 1
  end.

(** *** Sample inputs *)

(** Two lines, the first transparent. *)
Definition two_lines : list line :=
  [Line "#ff0000" 0 (Some 0%float); Line "#0000ff" 10 (Some 1%float)].

(** Three lines, from black over grey to white. *)
Definition three_lines : list line :=
  [Line "#000000" 0 None; Line "#808080" 5 None; Line "#ffffff" 10 None].

(** [k] black lines at the values 0, 1, 2, ... *)
Definition ramp (k : nat) : list line :=
  map (fun i => Line "#000000" (float_of_int (Z.of_nat i)) None) (seq 0 k).

(** ** The rest of the program *)

(** *** Reading the CSV file *)

Definition cr : ascii := ascii_of_nat 13.
Definition lf : ascii := ascii_of_nat 10.

(** The text of a file that [open(filename)] reads: in text mode the
    line ends [\r\n] and [\r] are read as [\n]. *)
Fixpoint universal_newlines (raw : string) : string :=
  match raw with
  | EmptyString => EmptyString
  | String c rest =>
      if Ascii.eqb c cr then
        match rest with
        | String d rest' =>
            if Ascii.eqb d lf then String lf (universal_newlines rest')
            else String lf (universal_newlines rest)
        | EmptyString => String lf EmptyString
        end
      else String c (universal_newlines rest)
  end.

(** [f.readlines()]: the lines of the text, each with the [\n] that
    ends it; the last line has none when the text does not end in one. *)
Fixpoint readlines (text : string) : list string :=
  match text with
  | EmptyString => []
  | String c rest =>
      if Ascii.eqb c lf then String c EmptyString :: readlines rest
      else match readlines rest with
           | [] => [String c EmptyString]
           | l :: ls => String c l :: ls
           end
  end.

(** [s.strip(x)] for a single character [x]. *)
Fixpoint lstrip_char (x : ascii) (s : string) : string :=
  match s with
  | String c s' => if Ascii.eqb c x then lstrip_char x s' else s
  | EmptyString => s
  end.

Fixpoint rstrip_char (x : ascii) (s : string) : string :=
  match s with
  | String c s' =>
      match rstrip_char x s' with
      | EmptyString => if Ascii.eqb c x then EmptyString else String c EmptyString
      | r => String c r
      end
  | EmptyString => s
  end.

Definition strip_char (x : ascii) (s : string) : string :=
  rstrip_char x (lstrip_char x s).

(** [s.split(sep)] for a single character [sep]. *)
Fixpoint split_on (sep : ascii) (s : string) : list string :=
  match s with
  | EmptyString => [EmptyString]
  | String c rest =>
      if Ascii.eqb c sep then EmptyString :: split_on sep rest
      else match split_on sep rest with
           | [] => [String c EmptyString]
           | field :: fields => String c field :: fields
           end
  end.

(** [read_csv_file] on a file that exists and holds [raw]:
    [[line.strip("\n").split(",") for line in content]]. *)
Definition read_csv_file (raw : string) : list (list string) :=
  map (fun line => split_on "," (strip_char lf line))
    (readlines (universal_newlines raw)).

(** *** The run on the records of a file *)

(** What [run] can raise on the records it has read: IndexError, for a
    record that lacks a field, or an exception of the gradient engine. *)
Inductive raised : Type :=
| IndexError
| Raised (e : exn).

Inductive outcome (A : Type) : Type :=
| Returns (a : A)
| Raises (r : raised).

Arguments Returns {A} a.
Arguments Raises {A} r.

Definition and_then {A B : Type} (c : outcome A) (k : A -> outcome B) : outcome B :=
  match c with
  | Returns a => k a
  | Raises r => Raises r
  end.

Notation "x <-- c ;; k" := (and_then c (fun x => k))
  (at level 61, c at next level, right associativity).

Definition lift {A : Type} (c : result A) : outcome A :=
  match c with
  | Ok a => Returns a
  | Raise e => Raises (Raised e)
  end.

Section Records.

(** [float(s)] on a text: the float it reads, or nothing when it raises
    ValueError.  The run is modelled for any such function. *)
Variable float_of_string : string -> option float.

Definition float_str (s : string) : outcome float :=
  match float_of_string s with
  | Some x => Returns x
  | None => Raises (Raised ValueError)
  end.

(** [row[i]]. *)
Definition item (row : list string) (i : nat) : outcome string :=
  match nth_error row i with
  | Some x => Returns x
  | None => Raises IndexError
  end.

(** The sort key, [float(x[1])]. *)
Definition key (row : list string) : outcome float :=
  x <-- item row 1 ;; float_str x.

(** [sorted(lines, key=lambda x: float(x[1]))]: the keys of all records
    are computed first, in the order of the file; then the records are
    sorted on their keys, as the lines are by [sorted]. *)
Fixpoint keys (rows : list (list string)) : outcome (list (float * list string)) :=
  match rows with
  | [] => Returns []
  | row :: rows' =>
      k <-- key row ;;
      ks <-- keys rows' ;;
      Returns ((k, row) :: ks)
  end.

Fixpoint insert_row (x : float * list string) (l : list (float * list string))
  : list (float * list string) :=
  match l with
  | [] => [x]
  | y :: l' => if (fst y <? fst x)%float then y :: insert_row x l' else x :: l
  end.

Definition sorted_rows (rows : list (list string)) : outcome (list (list string)) :=
  ks <-- keys rows ;;
  Returns (map snd (fold_right insert_row [] ks)).

(** [float(line[2]) if len(line) > 2 else 1]. *)
Definition opacity_field (row : list string) : outcome num :=
  if (2 <? List.length row)%nat
  then x <-- item row 2 ;; v <-- float_str x ;; Returns (PyFloat v)
  else Returns (PyInt 1).

(** The loop over the groups, on records. *)
Fixpoint groups_loop_rows (num_groups bins_per_group line_index : Z)
    (rows : list (list string)) (bins_remaining : Z) (g : globals)
  : outcome globals :=
  match rows with
  | line_a :: ((line_b :: _) as rest) =>
      start_val <-- key line_a ;;
      end_val <-- key line_b ;;
      start_color <-- item line_a 0 ;;
      end_color <-- item line_b 0 ;;
      start_opacity <-- opacity_field line_a ;;
      end_opacity <-- opacity_field line_b ;;
      let num_bins := num_bins_of bins_per_group bins_remaining in
      g' <-- lift (generate_gradient_values start_color end_color start_val end_val
                     num_bins start_opacity end_opacity
                     (negb (line_index =? num_groups - 1)) g) ;;
      groups_loop_rows num_groups bins_per_group (line_index + 1) rest
        (bins_remaining - num_bins) g'
  | _ => Returns g
  end.

(** [run] from the records on, with all six outputs asked for. *)
Definition run_rows (rows : list (list string)) : outcome outputs :=
  lines <-- sorted_rows rows ;;
  let num_groups := Z.of_nat (List.length lines) - 1 in
  bins_per_group <-- lift (ceil_div MAX_NUM_COLORS num_groups) ;;
  g <-- groups_loop_rows num_groups bins_per_group 0 lines MAX_NUM_COLORS
          (start_geoserver_string initial_globals) ;;
  Returns (write_outputs (finish_geoserver_string g)).

(** [run] on a CSV file that holds [raw]. *)
Definition run_csv (raw : string) : outcome outputs :=
  run_rows (read_csv_file raw).

End Records.

(** *** The report of the run *)

(** The last line of [run]:
    [print("Complete. Distinct Color Mappings: " + str(len(COLOR_VAL_MAP)))]. *)
Definition report (g : globals) : string :=
  "Complete. Distinct Color Mappings: "
    ++ str_int (Z.of_nat (List.length (COLOR_VAL_MAP g))).

(** *** Writing the output files *)

(** [x in args] and [args.index(x)], the place of the first [x]. *)
Definition contains (x : string) (args : list string) : bool :=
  existsb (String.eqb x) args.

Fixpoint index_of (x : string) (args : list string) : nat :=
  match args with
  | [] => O
  | y :: args' => if String.eqb y x then O else S (index_of x args')
  end.

(** The texts of the files, by name.  Opening a file for writing,
    writing a text and closing the file leaves that text under the
    name.  Names that cannot be opened are outside the model. *)
Definition files : Type := dict.

(** One block [if opt in args: outfile = args[args.index(opt) + 1] ...]. *)
Definition write_option (args : list string) (opt content : string) (fs : files)
  : outcome files :=
  if contains opt args
  then outfile <-- item args (index_of opt args + 1) ;;
       Returns (dict_set fs outfile content)
  else Returns fs.

(** The blocks in their order.  A block that raises leaves what the
    blocks before it have written. *)
Fixpoint write_options (args : list string) (todo : list (string * string))
    (fs : files) : files * option raised :=
  match todo with
  | [] => (fs, None)
  | (opt, content) :: todo' =>
      match write_option args opt content fs with
      | Returns fs' => write_options args todo' fs'
      | Raises r => (fs, Some r)
      end
  end.

(** The six options of [run] with the texts they write, in the order of
    the blocks. *)
Definition requests (o : outputs) : list (string * string) :=
  [("-stops", out_stops o);
   ("-ranges", out_ranges o);
   ("-geoserverCSS", out_geoserverCSS o);
   ("-geoserverSLD", out_geoserverSLD o);
   ("-LUT", out_LUT o);
   ("-gibs", out_gibs o)].

Definition write_output_files (args : list string) (o : outputs) (fs : files)
  : files * option raised :=
  write_options args (requests o) fs.

(** ** Definitions used to state the further properties *)

(** *** Which runs return *)

(** Whether [hex_to_RGB] reads the colour of a line. *)
Definition reads (l : line) : bool :=
  match hex_to_RGB (color l) with
  | Ok _ => true
  | Raise _ => false
  end.

(** Whether the first lines of [generate_gradient_values] divide by
    zero: by [n - 1] in every call, by [n] when the end is excluded. *)
Definition divides_by_zero (exclude_end : bool) (n : Z) : bool :=
  (n =? 1) || (exclude_end && (n =? 0)).

(** No group from [line_index] on divides by zero with the bins [ns]. *)
Fixpoint bins_run (num_groups line_index : Z) (ns : list Z) : bool :=
  match ns with
  | [] => true
  | n :: ns' =>
      negb (divides_by_zero (negb (line_index =? num_groups - 1)) n)
      && bins_run num_groups (line_index + 1) ns'
  end.

(** Whether the bins of a file of [k] lines let every group run. *)
Definition count_runs (k : nat) : bool :=
  match allocate (Z.of_nat k - 1) MAX_NUM_COLORS with
  | Ok ns => bins_run (Z.of_nat k - 1) 0 ns
  | Raise _ => false
  end.

(** The numbers of lines for which they do. *)
Definition line_counts_that_return : list nat :=
  [0; 2; 3; 4; 5; 6; 7; 8; 9; 10; 11; 12; 13; 14; 15; 16; 17; 18; 19; 20; 21;
   23; 25; 27; 30; 33; 38; 44; 52; 53; 65; 86; 87; 129]%nat.

(** *** Texts of colours *)

(** [s.upper()] and [s.lower()] on ASCII text. *)
Definition upper_char (c : ascii) : ascii :=
  let n := nat_of_ascii c in
  if ((97 <=? n) && (n <=? 122))%nat then ascii_of_nat (n - 32) else c.

Definition lower_char (c : ascii) : ascii :=
  let n := nat_of_ascii c in
  if ((65 <=? n) && (n <=? 90))%nat then ascii_of_nat (n + 32) else c.

Fixpoint map_string (f : ascii -> ascii) (s : string) : string :=
  match s with
  | EmptyString => EmptyString
  | String c s' => String (f c) (map_string f s')
  end.

Definition str_upper (s : string) : string := map_string upper_char s.
Definition str_lower (s : string) : string := map_string lower_char s.

(** The characters [int(_, 16)] takes as digits. *)
Definition is_hex_digit (c : ascii) : bool :=
  match hex_digit c with
  | Some _ => true
  | None => false
  end.

Fixpoint string_forallb (p : ascii -> bool) (s : string) : bool :=
  match s with
  | EmptyString => true
  | String c s' => p c && string_forallb p s'
  end.

Definition hex_chars : list ascii :=
  list_ascii_of_string "0123456789abcdefABCDEF".

(** Two hexadecimal digits are read as a number from 0 to 255 that
    [RGB_to_hex] writes as the same two digits in lower case. *)
Definition pair_round_trips (c1 c2 : ascii) : bool :=
  match int16 (String c1 (String c2 EmptyString)) with
  | Ok v =>
      (0 <=? v) && (v <=? 255)
      && String.eqb (two_hex v) (String (lower_char c1) (String (lower_char c2) EmptyString))
  | Raise _ => false
  end.

(** A text that [hex_to_RGB] reads as a colour without doubt: one
    character, then six hexadecimal digits. *)
Definition six_hex_digits (s : string) : bool :=
  match s with
  | String _ s' => (String.length s' =? 6)%nat && string_forallb is_hex_digit s'
  | EmptyString => false
  end.

(** A colour as the outputs are to hold it: [#] and six hexadecimal
    digits in lower case. *)
Definition valid_colour (s : string) : bool :=
  match s with
  | String c s' =>
      Ascii.eqb c "#" && (String.length s' =? 6)%nat && string_forallb is_lower_hex s'
  | EmptyString => false
  end.

(** The colour of a stop is valid and stands for its three channels,
    which lie between 0 and 255. *)
Definition valid_stop (st : stop) : Prop :=
  valid_colour (hex_color st) = true
  /\ hex_to_RGB (hex_color st) = Ok (curr_vector st)
  /\ Forall (fun c => 0 <= c <= 255) (curr_vector st).

(** *** The order of lines with equal values *)

(** The value of a line is a number (not a NaN).  Python's sort is
    specified for keys that [<] puts in an order; with a NaN among the
    keys its result depends on the algorithm.  The properties that
    speak of the order of the sorted lines are stated for values that
    are numbers. *)
Definition has_number (l : line) : bool := (value l =? value l)%float.

(** A line may stand before another: its value is not the larger one. *)
Definition not_after (a b : line) : Prop := (value b <? value a)%float = false.

(** The line's value is equal to [v]. *)
Definition valued (v : float) (l : line) : bool := (value l =? v)%float.

(** *** The GeoServer encoders and the keys of the dictionary *)

(** The texts one stop adds to the GeoServer CSS and SLD styles. *)
Definition css_entry (st : stop) : string :=
  nl ++ tab ++ "color-map-entry(" ++ quoted (hex_color st) ++ "," ++ stop_str st
    ++ "," ++ opacityStr st ++ ")".

Definition sld_entry (st : stop) : string :=
  nl ++ tab ++ tab ++ tab ++ tab ++ tab
    ++ "<sld:ColorMapEntry color=" ++ quoted (hex_color st)
    ++ " opacity=" ++ quoted (opacityStr st)
    ++ " quantity=" ++ quoted (stop_str st) ++ "/>".

(** What [start_geoserver_string] puts before the entries and
    [finish_geoserver_string] after them. *)
Definition css_header : string := css_string (start_geoserver_string initial_globals).
Definition sld_header : string := sld_string (start_geoserver_string initial_globals).

Definition css_footer : string :=
  ";" ++ nl ++ "raster-color-map-type:intervals;" ++ nl ++ "}".

Definition sld_footer : string :=
  nl ++ tab ++ tab ++ tab ++ tab ++ "</sld:ColorMap>" ++ nl
    ++ tab ++ tab ++ tab ++ "</sld:RasterSymbolizer>" ++ nl
    ++ tab ++ tab ++ "</sld:Rule>" ++ nl
    ++ tab ++ "</sld:FeatureTypeStyle>" ++ nl
    ++ "</sld:UserStyle>" ++ nl.

(** The distinct texts of a list, in the order of their first
    occurrences. *)
Definition first_seen (l : list string) : list string :=
  rev (nodup string_dec (rev l)).

(** A key is added at the end of the keys unless it is there already. *)
Definition add_key (keys : list string) (k : string) : list string :=
  if existsb (String.eqb k) keys then keys else (keys ++ [k])%list.

(** *** The records of the CSV file *)

(** The text without the [\n] at its end, if it has one. *)
Fixpoint chomp (s : string) : string :=
  match s with
  | EmptyString => EmptyString
  | String c rest =>
      match rest with
      | EmptyString => if Ascii.eqb c lf then EmptyString else s
      | _ => String c (chomp rest)
      end
  end.

(** The character does not occur in the text. *)
Fixpoint lacks (x : ascii) (s : string) : bool :=
  match s with
  | EmptyString => true
  | String c s' => negb (Ascii.eqb c x) && lacks x s'
  end.

(** A line of [readlines]: text without [\n], then [\n] or, in the last
    line only, nothing. *)
Inductive line_of_text : string -> Prop :=
| line_end : line_of_text (String lf EmptyString)
| line_last c : Ascii.eqb c lf = false -> line_of_text (String c EmptyString)
| line_more c l : Ascii.eqb c lf = false -> line_of_text l -> line_of_text (String c l).

Section RecordsAsLines.
Variable float_of_string : string -> option float.

(** The line that a record stands for: its colour, its value and, when
    it has a third field, its opacity; none when it lacks a field or
    [float] does not read one. *)
Definition line_of (row : list string) : option line :=
  match row with
  | c :: v :: rest =>
      match float_of_string v with
      | Some x =>
          match rest with
          | [] => Some (Line c x None)
          | o :: _ =>
              match float_of_string o with
              | Some y => Some (Line c x (Some y))
              | None => None
              end
          end
      | None => None
      end
  | _ => None
  end.

(** A record with its key stands for a line. *)
Definition stands_for (kr : float * list string) (l : line) : Prop :=
  fst kr = value l /\ line_of (snd kr) = Some l.

End RecordsAsLines.

(** A sample for [float]: the texts of one decimal digit, read as
    [float] reads them; no other text is read. *)
Definition one_digit_float (s : string) : option float :=
  match s with
  | String c EmptyString =>
      let n := Z.of_nat (nat_of_ascii c) in
      if (48 <=? n) && (n <=? 57) then Some (float_of_int (n - 48)) else None
  | _ => None
  end.

(** *** The command line *)

(** Options with their values, as they stand on the command line. *)
Definition flatten (pairs : list (string * string)) : list string :=
  flat_map (fun p => [fst p; snd p]) pairs.

(** The value that follows the first [opt] of the arguments, if [opt]
    is among them: nothing when it is not, an IndexError when nothing
    follows it. *)
Definition value_after (args : list string) (opt : string) : option (outcome string) :=
  if contains opt args then Some (item args (index_of opt args + 1)) else None.

(** ** Properties of the model *)

(** *** The error monad *)

Lemma bind_Ok {A B : Type} (c : result A) (k : A -> result B) (b : B) :
  bind c k = Ok b -> exists a, c = Ok a /\ k a = Ok b.
Proof.
  destruct c as [a|e]; simpl; intros H; [eauto | discriminate].
Qed.

Lemma mapM_length {A B : Type} (f : A -> result B) (l : list A) (r : list B) :
  mapM f l = Ok r -> List.length r = List.length l.
Proof.
  revert r; induction l as [|x l IH]; simpl; intros r H.
  - injection H as <-; reflexivity.
  - apply bind_Ok in H as (y & _ & H).
    apply bind_Ok in H as (ys & Hys & H).
    injection H as <-; simpl; f_equal; auto.
Qed.

Lemma append_assoc (a b c : string) : (a ++ b) ++ c = a ++ (b ++ c).
Proof.
  induction a as [|x a IH]; simpl; [reflexivity | now rewrite IH].
Qed.

Lemma append_nil_r (a : string) : a ++ "" = a.
Proof.
  induction a as [|x a IH]; simpl; [reflexivity | now rewrite IH].
Qed.

(** *** The loops write what the iterations compute *)

Lemma gradient_loop_stops s f end_val n so eo ex delta fuel :
  forall t sv g,
    gradient_loop s f end_val n so eo ex delta fuel t sv g
    = (stops <- stops_loop s f end_val n so eo ex delta fuel t sv ;;
       Ok (fold_left emit stops g)).
Proof.
  induction fuel as [|k IH]; intros t sv g; simpl; [reflexivity|].
  destruct (step s f end_val n so eo ex delta t sv) as [st|e]; simpl; [|reflexivity].
  rewrite IH.
  destruct (stops_loop s f end_val n so eo ex delta k (t + 1) (sv + delta)%float);
    reflexivity.
Qed.

Lemma generate_gradient_values_stops sh fh sv ev n so eo ex g :
  generate_gradient_values sh fh sv ev n so eo ex g
  = (stops <- segment_stops sh fh sv ev n so eo ex ;; Ok (fold_left emit stops g)).
Proof.
  unfold generate_gradient_values, segment_stops.
  destruct (increments sv ev n so eo ex) as [delta|e]; simpl; [|reflexivity].
  destruct (hex_to_RGB sh) as [s|e]; simpl; [|reflexivity].
  destruct (hex_to_RGB fh) as [f|e]; simpl; [|reflexivity].
  apply gradient_loop_stops.
Qed.

Lemma groups_loop_cons ng bpg i a b rest rem g :
  groups_loop ng bpg i (a :: b :: rest) rem g
  = (g' <- generate_gradient_values (color a) (color b) (value a) (value b)
             (num_bins_of bpg rem) (opacity_of a) (opacity_of b)
             (negb (i =? ng - 1)) g ;;
     groups_loop ng bpg (i + 1) (b :: rest) (rem - num_bins_of bpg rem) g').
Proof. reflexivity. Qed.

Lemma groups_stops_cons ng bpg i a b rest rem :
  groups_stops ng bpg i (a :: b :: rest) rem
  = (here <- segment_stops (color a) (color b) (value a) (value b)
               (num_bins_of bpg rem) (opacity_of a) (opacity_of b)
               (negb (i =? ng - 1)) ;;
     rest_stops <- groups_stops ng bpg (i + 1) (b :: rest) (rem - num_bins_of bpg rem) ;;
     Ok (here ++ rest_stops)%list).
Proof. reflexivity. Qed.

Lemma groups_loop_stops ng bpg lines :
  forall i rem g,
    groups_loop ng bpg i lines rem g
    = (G <- groups_stops ng bpg i lines rem ;; Ok (fold_left emit G g)).
Proof.
  induction lines as [|a lines IH]; intros i rem g; [reflexivity|].
  destruct lines as [|b lines]; [reflexivity|].
  rewrite groups_loop_cons, groups_stops_cons, generate_gradient_values_stops.
  destruct (segment_stops _ _ _ _ _ _ _ _) as [here|e]; cbn [bind]; [|reflexivity].
  rewrite IH.
  destruct (groups_stops ng bpg (i + 1) (b :: lines) _) as [rest|e]; cbn [bind];
    [|reflexivity].
  now rewrite fold_left_app.
Qed.

Lemma run_globals_gradient lines :
  run_globals lines
  = (G <- gradient lines ;;
     Ok (finish_geoserver_string
           (fold_left emit G (start_geoserver_string initial_globals)))).
Proof.
  unfold run_globals, gradient.
  destruct (ceil_div _ _) as [bpg|e]; cbn [bind]; [|reflexivity].
  rewrite groups_loop_stops.
  destruct (groups_stops _ _ _ _ _); reflexivity.
Qed.

Lemma groups_stops_bins ng bpg lines :
  forall i rem,
    groups_stops ng bpg i lines rem
    = groups_with ng i lines (bins bpg (List.length lines - 1) rem).
Proof.
  induction lines as [|a lines IH]; intros i rem; [reflexivity|].
  destruct lines as [|b lines]; [reflexivity|].
  rewrite groups_stops_cons, IH.
  cbn [List.length Nat.sub]. rewrite !Nat.sub_0_r. reflexivity.
Qed.

(** *** The bins *)

Lemma bins_length bpg k : forall rem, List.length (bins bpg k rem) = k.
Proof.
  induction k as [|k IH]; intros rem; simpl; [reflexivity | now rewrite IH].
Qed.

Lemma bins_nothing_left bpg k : 0 <= bpg -> sum_bins (bins bpg k 0) = 0.
Proof.
  intros Hb. induction k as [|k IH]; simpl; [reflexivity|].
  unfold num_bins_of. destruct (Z.leb_spec (bpg * 2) 0).
  - replace bpg with 0 by lia. simpl. replace bpg with 0 in IH by lia. exact IH.
  - simpl. exact IH.
Qed.

(** Whatever the budget, the group at which less than two shares remain
    takes all that is left, and that happens at the last group at the
    latest. *)
Lemma bins_sum bpg k :
  0 <= bpg ->
  forall rem, 0 <= rem <= Z.of_nat k * bpg -> sum_bins (bins bpg k rem) = rem.
Proof.
  intros Hb. induction k as [|k IH]; intros rem Hrem.
  - simpl in *. lia.
  - cbn [bins sum_bins fold_right]. fold (sum_bins (bins bpg k (rem - num_bins_of bpg rem))).
    unfold num_bins_of. destruct (Z.leb_spec (bpg * 2) rem).
    + rewrite IH; [lia|]. split; [lia|]. nia.
    + replace (rem - rem) with 0 by lia. rewrite bins_nothing_left by assumption. lia.
Qed.

Lemma bins_even_share q k :
  0 <= q -> bins q k (Z.of_nat k * q) = repeat q k.
Proof.
  intros Hq. induction k as [|k IH]; [reflexivity|].
  cbn [bins repeat]. unfold num_bins_of.
  destruct (Z.leb_spec (q * 2) (Z.of_nat (S k) * q)).
  - f_equal. rewrite <- IH. f_equal. lia.
  - assert (Hk : k = 0%nat \/ q = 0) by nia.
    destruct Hk as [-> | ->].
    + cbn [bins repeat]. f_equal. lia.
    + rewrite <- IH. f_equal; lia.
Qed.

Lemma ceil_div_covers a b :
  1 <= b -> 0 <= a -> 0 <= - ((- a) / b) /\ a <= b * - ((- a) / b).
Proof.
  intros Hb Ha.
  pose proof (Z.mul_div_le (- a) b ltac:(lia)).
  assert ((- a) / b <= 0) by (apply Z.div_le_upper_bound; lia).
  lia.
Qed.

(** *** Colours *)

Lemma two_hex_round_trips_all :
  forallb two_hex_round_trips (map Z.of_nat (seq 0 256)) = true.
Proof. vm_compute. reflexivity. Qed.

Lemma two_hex_spec v :
  0 <= v <= 255 ->
  exists c1 c2,
    two_hex v = String c1 (String c2 EmptyString)
    /\ is_lower_hex c1 = true /\ is_lower_hex c2 = true
    /\ int16 (String c1 (String c2 EmptyString)) = Ok v.
Proof.
  intros Hv.
  pose proof two_hex_round_trips_all as H.
  rewrite forallb_forall in H.
  specialize (H v).
  assert (Hin : In v (map Z.of_nat (seq 0 256))).
  { apply in_map_iff. exists (Z.to_nat v). split; [lia|].
    apply in_seq. lia. }
  apply H in Hin. unfold two_hex_round_trips in Hin.
  destruct (two_hex v) as [|c1 [|c2 [|? ?]]]; try discriminate.
  exists c1, c2.
  destruct (is_lower_hex c1), (is_lower_hex c2); try discriminate.
  destruct (int16 _) as [z|]; try discriminate.
  simpl in Hin. apply Z.eqb_eq in Hin. subst z. auto.
Qed.

Lemma RGB_to_hex_three r g b :
  RGB_to_hex [r; g; b] = "#" ++ two_hex r ++ two_hex g ++ two_hex b.
Proof.
  reflexivity.
Qed.

(** *** What [int(s, 16)] can return *)

Lemma hex_digit_range c d : hex_digit c = Some d -> 0 <= d <= 15.
Proof.
  unfold hex_digit.
  repeat match goal with
         | |- context [if ?b then _ else _] => destruct b eqn:?
         end; intros H; inversion H; subst; lia.
Qed.

Lemma hex_digits_bound s :
  forall acc p z,
    hex_digits s acc p = Some z -> 0 <= acc ->
    0 <= z < (acc + 1) * 16 ^ Z.of_nat (String.length s).
Proof.
  induction s as [|c s IH]; intros acc p z H Hacc.
  - simpl in H. destruct p; inversion H; subst. simpl. lia.
  - cbn [hex_digits] in H. cbn [String.length].
    rewrite Nat2Z.inj_succ, Z.pow_succ_r by lia.
    assert (0 < 16 ^ Z.of_nat (String.length s)) by (apply Z.pow_pos_nonneg; lia).
    destruct (Ascii.eqb c "_").
    + destruct p; [discriminate|].
      apply IH in H; [|lia]. nia.
    + destruct (hex_digit c) as [d|] eqn:Ed; [|discriminate].
      apply hex_digit_range in Ed. apply IH in H; [|lia]. nia.
Qed.

Lemma skip_prefix_length s : (String.length (skip_prefix s) <= String.length s)%nat.
Proof.
  destruct s as [|c [|x s']]; cbn [String.length].
  { simpl. lia. }
  { destruct c as [[] [] [] [] [] [] [] []]; simpl; lia. }
  destruct (Ascii.eqb c "0") eqn:E0.
  - apply Ascii.eqb_eq in E0. subst c. cbn [skip_prefix].
    destruct (Ascii.eqb x "x" || Ascii.eqb x "X"); cbn [String.length]; [|lia].
    destruct s' as [|u s'']; cbn [String.length]; [lia|].
    destruct (Ascii.eqb u "_") eqn:Eu.
    + apply Ascii.eqb_eq in Eu. subst u. cbn [String.length]. lia.
    + assert (Hu : u <> "_"%char) by (apply Ascii.eqb_neq; exact Eu).
      destruct u as [[] [] [] [] [] [] [] []]; cbn [String.length]; try lia; congruence.
  - assert (Hc : c <> "0"%char) by (apply Ascii.eqb_neq; exact E0).
    destruct c as [[] [] [] [] [] [] [] []]; cbn [skip_prefix String.length]; try lia; congruence.
Qed.

Lemma hex_body_bound s z :
  hex_body s = Some z -> 0 <= z < 16 ^ Z.of_nat (String.length s).
Proof.
  unfold hex_body. pose proof (skip_prefix_length s) as Hlen.
  destruct (skip_prefix s) as [|c s1']; [discriminate|].
  destruct (Ascii.eqb c "_"); [discriminate|]. intros H.
  apply hex_digits_bound in H; [|lia].
  assert (16 ^ Z.of_nat (String.length (String c s1')) <= 16 ^ Z.of_nat (String.length s)).
  { apply Z.pow_le_mono_r; lia. }
  lia.
Qed.

Lemma lstrip_length s : (String.length (lstrip s) <= String.length s)%nat.
Proof.
  induction s as [|c s IH]; simpl; [lia|].
  destruct (is_space c); simpl; lia.
Qed.

Lemma rstrip_length s : (String.length (rstrip s) <= String.length s)%nat.
Proof.
  induction s as [|c s IH]; simpl; [lia|].
  destruct (rstrip s); [destruct (is_space c)|]; simpl in *; lia.
Qed.

Lemma skip_sign_length s : (String.length (snd (skip_sign s)) <= String.length s)%nat.
Proof.
  destruct s as [|c s']; [simpl; lia|].
  destruct (Ascii.eqb c "+") eqn:Ep; [apply Ascii.eqb_eq in Ep; subst c; simpl; lia|].
  destruct (Ascii.eqb c "-") eqn:Em; [apply Ascii.eqb_eq in Em; subst c; simpl; lia|].
  assert (Hp : c <> "+"%char) by (apply Ascii.eqb_neq; exact Ep).
  assert (Hm : c <> "-"%char) by (apply Ascii.eqb_neq; exact Em).
  destruct c as [[] [] [] [] [] [] [] []]; cbn [skip_sign snd String.length]; try lia; congruence.
Qed.

Lemma int16_bound s z :
  int16 s = Ok z -> Z.abs z < 16 ^ Z.of_nat (String.length s).
Proof.
  unfold int16, strip.
  pose proof (lstrip_length s) as H1. pose proof (rstrip_length (lstrip s)) as H2.
  pose proof (skip_sign_length (rstrip (lstrip s))) as H3.
  destruct (skip_sign (rstrip (lstrip s))) as [negative ds]. cbn [snd] in H3.
  destruct (hex_body ds) as [y|] eqn:Ey; [|discriminate].
  intros H. injection H as <-. apply hex_body_bound in Ey.
  assert (16 ^ Z.of_nat (String.length ds) <= 16 ^ Z.of_nat (String.length s))
    by (apply Z.pow_le_mono_r; lia).
  destruct negative; lia.
Qed.

Lemma substring_length n m s : (String.length (substring n m s) <= m)%nat.
Proof.
  revert n m. induction s as [|c s IH]; intros n m.
  - destruct n, m; simpl; lia.
  - destruct n as [|n]; destruct m as [|m]; simpl; try lia.
    + specialize (IH 0%nat m). lia.
    + apply (IH n 0%nat).
    + apply IH.
Qed.


Lemma hex_to_RGB_range hex v : hex_to_RGB hex = Ok v -> channels_in_range v.
Proof.
  unfold hex_to_RGB. cbn [mapM]. intros H.
  apply bind_Ok in H as (r & Hr & H).
  apply bind_Ok in H as (l1 & H1 & H). injection H as <-.
  apply bind_Ok in H1 as (g & Hg & H1).
  apply bind_Ok in H1 as (l2 & H2 & H1). injection H1 as <-.
  apply bind_Ok in H2 as (b & Hb & H2).
  apply bind_Ok in H2 as (l3 & H3 & H2). injection H2 as <-. injection H3 as <-.
  exists r, g, b. split; [reflexivity|].
  assert (Hs : forall i z, int16 (substring i 2 hex) = Ok z -> Z.abs z <= 255).
  { intros i z Hz. apply int16_bound in Hz.
    pose proof (substring_length i 2 hex).
    assert (16 ^ Z.of_nat (String.length (substring i 2 hex)) <= 16 ^ 2)
      by (apply Z.pow_le_mono_r; lia).
    change (16 ^ 2) with 256 in *. lia. }
  repeat split; eapply Hs; eassumption.
Qed.

(** *** Binary64 arithmetic stays finite on bounded operands *)

Lemma digits2_pos_size p : digits2_pos p = Pos.size p.
Proof. induction p; simpl; congruence. Qed.

Lemma digits_pos p : digits (Zpos p) = Z.log2 (Zpos p) + 1.
Proof.
  unfold digits; simpl. rewrite digits2_pos_size.
  destruct p; simpl; lia.
Qed.

Lemma digits_nonneg z : 0 <= digits z.
Proof. destruct z; simpl; lia. Qed.

Lemma digits_bounds z : 0 < z -> 2 ^ (digits z - 1) <= z < 2 ^ digits z.
Proof.
  intros Hz. destruct z as [|p|p]; try lia.
  rewrite digits_pos. replace (Z.log2 (Z.pos p) + 1 - 1) with (Z.log2 (Z.pos p)) by lia.
  replace (Z.log2 (Z.pos p) + 1) with (Z.succ (Z.log2 (Z.pos p))) by lia.
  apply Z.log2_spec. lia.
Qed.

Lemma digits_le z k : 0 <= z -> 0 <= k -> z < 2 ^ k -> digits z <= k.
Proof.
  intros Hz Hk H. destruct z as [|p|p]; try lia; [simpl; lia|].
  rewrite digits_pos.
  assert (Z.log2 (Z.pos p) < k) by (apply Z.log2_lt_pow2; lia). lia.
Qed.

Lemma digits_lt_pow z : 0 <= z -> z < 2 ^ digits z.
Proof.
  intros Hz. destruct (Z.eq_dec z 0) as [->|]; [simpl; lia|].
  apply digits_bounds; lia.
Qed.

Lemma shr_1_m r : 0 <= shr_m r -> shr_m (shr_1 r) = shr_m r / 2.
Proof.
  destruct r as [m r s]; simpl. intros Hm.
  destruct m as [|[p|p|]|p]; simpl; try lia; try reflexivity.
  - rewrite Pos2Z.inj_xI. apply Z.div_unique with 1; lia.
  - rewrite Pos2Z.inj_xO. apply Z.div_unique with 0; lia.
Qed.

Lemma iter_shr_1_m p : forall r,
  0 <= shr_m r -> shr_m (iter_pos shr_1 p r) = shr_m r / 2 ^ Zpos p.
Proof.
  assert (Hnn : forall q r, 0 <= shr_m r -> shr_m (iter_pos shr_1 q r) = shr_m r / 2 ^ Zpos q -> 0 <= shr_m (iter_pos shr_1 q r)).
  { intros q r H ->. apply Z.div_pos; lia. }
  induction p as [p IH|p IH|]; intros r Hr; simpl iter_pos.
  - assert (H1 : 0 <= shr_m (shr_1 r)) by (rewrite shr_1_m by lia; apply Z.div_pos; lia).
    pose proof (IH _ H1) as E1. pose proof (Hnn _ _ H1 E1) as H2.
    rewrite (IH _ H2), E1, shr_1_m by lia.
    rewrite !Z.div_div by lia. f_equal.
    rewrite Pos2Z.inj_xI. rewrite <- !Z.pow_add_r, <- Z.pow_succ_r by lia. f_equal. lia.
  - pose proof (IH _ Hr) as E1. pose proof (Hnn _ _ Hr E1) as H2.
    rewrite (IH _ H2), E1.
    rewrite !Z.div_div by lia. f_equal.
    rewrite Pos2Z.inj_xO. rewrite <- !Z.pow_add_r by lia. f_equal. lia.
  - rewrite shr_1_m by lia. reflexivity.
Qed.

Lemma shr_spec m l e n :
  0 <= m ->
  shr_m (fst (shr (shr_record_of_loc m l) e n)) = m / 2 ^ Z.max 0 n
  /\ snd (shr (shr_record_of_loc m l) e n) = e + Z.max 0 n.
Proof.
  intros Hm.
  assert (Hrec : shr_m (shr_record_of_loc m l) = m) by (destruct l as [|[]]; reflexivity).
  destruct n as [|p|p]; simpl shr; cbn [fst snd].
  - rewrite Hrec, Z.div_1_r. split; [reflexivity | lia].
  - rewrite iter_shr_1_m by lia. rewrite Hrec. split; [reflexivity | lia].
  - rewrite Hrec, Z.div_1_r. split; [reflexivity | lia].
Qed.

Lemma fexp64_eq e : fexp64 e = Z.max (e - 53) (-1074).
Proof. reflexivity. Qed.

(** digits of a quotient by a power of two *)
Lemma digits_shift m k :
  0 <= m -> 0 <= k -> digits (m / 2 ^ k) + k <= Z.max (digits m) k.
Proof.
  intros Hm Hk.
  assert (Hq : 0 <= m / 2 ^ k) by (apply Z.div_pos; lia).
  destruct (Z.eq_dec (m / 2 ^ k) 0) as [E|NE].
  - rewrite E. simpl. lia.
  - assert (Hd : digits m - k >= 0 \/ digits m - k < 0) by lia.
    assert (digits (m / 2 ^ k) <= Z.max 0 (digits m - k)); [|lia].
    apply digits_le; [lia | lia |].
    pose proof (digits_lt_pow m Hm) as Hlt.
    pose proof (digits_nonneg m).
    destruct (Z.le_gt_cases k (digits m)) as [Hle|Hgt].
    + rewrite Z.max_r by lia.
      apply Z.div_lt_upper_bound; [lia|].
      rewrite <- Z.pow_add_r by lia. replace (k + (digits m - k)) with (digits m) by lia. lia.
    + exfalso. apply NE. apply Z.div_small. split; [lia|].
      assert (2 ^ digits m <= 2 ^ k) by (apply Z.pow_le_mono_r; lia). lia.
Qed.

Lemma digits_succ m : 0 <= m -> digits (m + 1) <= digits m + 1.
Proof.
  intros Hm. pose proof (digits_nonneg m).
  apply digits_le; [lia | lia |].
  pose proof (digits_lt_pow m Hm).
  rewrite Z.pow_add_r by lia. lia.
Qed.

Lemma round_nearest_even_bounds m l :
  0 <= m -> m <= round_nearest_even m l <= m + 1.
Proof.
  intros Hm. destruct l as [|[]]; simpl; try lia.
  destruct (Z.even m); lia.
Qed.

Lemma digits_mono a b : 0 <= a <= b -> digits a <= digits b.
Proof.
  intros H. pose proof (digits_nonneg b).
  apply digits_le; [lia | lia |].
  pose proof (digits_lt_pow b ltac:(lia)). lia.
Qed.

(** What [shr_fexp] returns. *)
Lemma shr_fexp_spec m e l :
  0 <= m ->
  let k := Z.max 0 (fexp64 (digits m + e) - e) in
  shr_m (fst (shr_fexp prec emax m e l)) = m / 2 ^ k
  /\ snd (shr_fexp prec emax m e l) = e + k.
Proof.
  intros Hm k. unfold shr_fexp. apply shr_spec. exact Hm.
Qed.

Lemma binary_round_aux_below sx mx ex lx E :
  0 <= mx -> digits mx + ex <= E -> -1074 <= E <= 971 ->
  sf_below (E + 1) (binary_round_aux prec emax sx mx ex lx).
Proof.
  intros Hm HE HEr. unfold binary_round_aux.
  pose proof (shr_fexp_spec mx ex lx Hm) as [Hm1 He1].
  destruct (shr_fexp prec emax mx ex lx) as [r1 e1]. cbn [fst snd] in *.
  set (m2 := round_nearest_even (shr_m r1) (loc_of_shr_record r1)).
  assert (Hm1' : 0 <= shr_m r1) by (rewrite Hm1; apply Z.div_pos; lia).
  pose proof (round_nearest_even_bounds (shr_m r1) (loc_of_shr_record r1) Hm1') as Hm2.
  fold m2 in Hm2.
  pose proof (shr_fexp_spec m2 e1 loc_Exact ltac:(lia)) as [Hm3 He3].
  destruct (shr_fexp prec emax m2 e1 loc_Exact) as [r3 e3]. cbn [fst snd] in *.
  pose proof (digits_nonneg mx) as Hdx.
  set (k1 := Z.max 0 (fexp64 (digits mx + ex) - ex)) in *.
  set (k3 := Z.max 0 (fexp64 (digits m2 + e1) - e1)) in *.
  pose proof (digits_shift mx k1 Hm ltac:(lia)) as Hs1. rewrite <- Hm1 in Hs1.
  assert (Hd2 : digits m2 <= digits (shr_m r1) + 1).
  { etransitivity; [apply digits_mono; split; [|apply Hm2]; lia | apply digits_succ; lia]. }
  pose proof (digits_shift m2 k3 ltac:(lia) ltac:(lia)) as Hs3. rewrite <- Hm3 in Hs3.
  pose proof (digits_nonneg (shr_m r1)). pose proof (digits_nonneg m2).
  pose proof (digits_nonneg (shr_m r3)).
  assert (Hk1 : k1 = Z.max 0 (Z.max (digits mx + ex - 53) (-1074) - ex)) by reflexivity.
  assert (Hk3 : k3 = Z.max 0 (Z.max (digits m2 + e1 - 53) (-1074) - e1)) by reflexivity.
  assert (Hm3nn : 0 <= shr_m r3) by (rewrite Hm3; apply Z.div_pos; lia).
  destruct (shr_m r3) as [|m3|m3] eqn:E3; [exact I| |lia].
  assert (Hfin : e3 <= 971) by lia.
  replace (e3 <=? emax - prec) with true by (symmetry; apply Z.leb_le; exact Hfin).
  cbn [sf_below].
  assert (1 <= digits (Z.pos m3)) by (unfold digits; simpl; lia).
  lia.
Qed.

Lemma sf_below_mono E E' x : E <= E' -> sf_below E x -> sf_below E' x.
Proof. destruct x; simpl; auto. lia. Qed.

Lemma digits_mul a b : 0 <= a -> 0 <= b -> digits (a * b) <= digits a + digits b.
Proof.
  intros Ha Hb. pose proof (digits_nonneg a). pose proof (digits_nonneg b).
  apply digits_le; [nia | lia |].
  pose proof (digits_lt_pow a Ha). pose proof (digits_lt_pow b Hb).
  rewrite Z.pow_add_r by lia. nia.
Qed.

Lemma digits_mul_pow2 a k : 0 < a -> 0 <= k -> digits (a * 2 ^ k) = digits a + k.
Proof.
  intros Ha Hk.
  assert (0 < a * 2 ^ k) by (apply Z.mul_pos_pos; lia).
  destruct a as [|p|p]; try lia.
  destruct (Z.pos p * 2 ^ k) as [|q|q] eqn:Eq; try lia.
  rewrite !digits_pos. rewrite <- Eq.
  rewrite Z.log2_mul_pow2 by lia. lia.
Qed.

Lemma SFmul_below x y E1 E2 :
  sf_below E1 x -> sf_below E2 y -> -1074 <= E1 + E2 <= 971 ->
  sf_below (E1 + E2 + 1) (SF64mul x y).
Proof.
  intros Hx Hy HE.
  destruct x as [sx|sx| |sx mx ex], y as [sy|sy| |sy my ey]; cbn [sf_below] in Hx, Hy;
    try contradiction; try exact I.
  unfold SF64mul, SFmul.
  apply binary_round_aux_below; [lia | | lia].
  change (Z.pos (mx * my)) with (Z.pos mx * Z.pos my).
  pose proof (digits_mul (Z.pos mx) (Z.pos my) ltac:(lia) ltac:(lia)). lia.
Qed.

Lemma iter_xO m d : Z.pos (Pos.iter xO m d) = Z.pos m * 2 ^ Z.pos d.
Proof.
  induction d as [|d IH] using Pos.peano_ind.
  - simpl. lia.
  - rewrite Pos.iter_succ, Pos2Z.inj_xO, IH, Pos2Z.inj_succ, Z.pow_succ_r by lia. ring.
Qed.

Lemma shl_align_spec m e e' :
  let r := shl_align m e e' in
  snd r <= e /\ Z.pos (fst r) = Z.pos m * 2 ^ (e - snd r) /\ snd r = Z.min e e'.
Proof.
  unfold shl_align. destruct (e' - e) as [|d|d] eqn:Ed; cbn [fst snd].
  - rewrite Z.sub_diag. simpl. lia.
  - rewrite Z.sub_diag. simpl. lia.
  - rewrite iter_xO. replace (e - e') with (Z.pos d) by lia. lia.
Qed.

Lemma binary_round_below s m e E :
  digits (Z.pos m) + e <= E -> -1074 <= E <= 971 ->
  sf_below (E + 1) (binary_round prec emax s m e).
Proof.
  intros HE Hr. unfold binary_round.
  pose proof (shl_align_spec m e (fexp prec emax (Z.pos (digits2_pos m) + e))) as (H1 & H2 & _).
  destruct (shl_align m e _) as [mz ez]. cbn [fst snd] in *.
  apply binary_round_aux_below; [lia | | lia].
  rewrite H2, digits_mul_pow2 by lia. lia.
Qed.

Lemma binary_normalize_below M e E :
  digits (Z.abs M) + e <= E -> -1074 <= E <= 971 ->
  sf_below (E + 1) (binary_normalize prec emax M e false).
Proof.
  intros HE Hr. destruct M as [|m|m]; simpl binary_normalize; [exact I| |];
    apply binary_round_below; auto.
Qed.

Lemma digits_abs_sum a b k :
  0 <= k -> Z.abs a < 2 ^ k -> Z.abs b < 2 ^ k -> digits (Z.abs (a + b)) <= k + 1.
Proof.
  intros Hk Ha Hb. apply digits_le; [lia | lia |].
  rewrite Z.pow_add_r by lia. lia.
Qed.

Lemma cond_Zopp_abs s z : Z.abs (cond_Zopp s z) = Z.abs z.
Proof. destruct s; simpl; lia. Qed.

Lemma aligned_below m e ez E :
  ez <= e -> digits (Z.pos m) + e <= E ->
  Z.pos (fst (shl_align m e ez)) < 2 ^ (E - ez).
Proof.
  intros Hle HE.
  pose proof (shl_align_spec m e ez) as (H1 & H2 & H3).
  rewrite H2, H3, Z.min_r by lia.
  pose proof (digits_lt_pow (Z.pos m) ltac:(lia)).
  pose proof (digits_nonneg (Z.pos m)).
  assert (2 ^ digits (Z.pos m) * 2 ^ (e - ez) <= 2 ^ (E - ez)).
  { rewrite <- Z.pow_add_r by lia. apply Z.pow_le_mono_r; lia. }
  assert (0 < 2 ^ (e - ez)) by (apply Z.pow_pos_nonneg; lia).
  nia.
Qed.

Lemma SFadd_below x y E :
  sf_below E x -> sf_below E y -> -1074 <= E + 1 <= 971 ->
  sf_below (E + 2) (SF64add x y).
Proof.
  intros Hx Hy HE.
  destruct x as [sx|sx| |sx mx ex], y as [sy|sy| |sy my ey]; cbn [sf_below] in Hx, Hy;
    try contradiction.
  - destruct sx, sy; exact I.
  - change (sf_below (E + 2) (S754_finite sy my ey)). cbn [sf_below]. lia.
  - change (sf_below (E + 2) (S754_finite sx mx ex)). cbn [sf_below]. lia.
  - unfold SF64add, SFadd.
    replace (E + 2) with ((E + 1) + 1) by lia.
    apply binary_normalize_below; [|lia].
    set (ez := Z.min ex ey).
    pose proof (aligned_below mx ex ez E ltac:(lia) Hx) as Ha.
    pose proof (aligned_below my ey ez E ltac:(lia) Hy) as Hb.
    assert (Hk : 0 <= E - ez).
    { pose proof (digits_nonneg (Z.pos mx)).
      assert (1 <= digits (Z.pos mx)) by (unfold digits; simpl; lia). lia. }
    pose proof (digits_abs_sum
                  (cond_Zopp sx (Z.pos (fst (shl_align mx ex ez))))
                  (cond_Zopp sy (Z.pos (fst (shl_align my ey ez))))
                  (E - ez) Hk) as Hs.
    rewrite !cond_Zopp_abs in Hs. specialize (Hs ltac:(lia) ltac:(lia)). lia.
Qed.

Lemma SFdiv_core_below m1 e1 m2 e2 E :
  0 < m1 -> 0 < m2 ->
  digits m1 + e1 - (digits m2 + e2) + 1 <= E -> -1074 <= E ->
  let '(q, e', _) := SFdiv_core_binary prec emax m1 e1 m2 e2 in
  0 <= q /\ digits q + e' <= E.
Proof.
  intros H1 H2 HE Hr. unfold SFdiv_core_binary.
  set (d1 := Zdigits2 m1). set (d2 := Zdigits2 m2).
  change (Zdigits2 m1) with (digits m1) in d1. change (Zdigits2 m2) with (digits m2) in d2.
  set (e' := Z.min (fexp prec emax (d1 + e1 - (d2 + e2))) (e1 - e2)).
  set (s := e1 - e2 - e').
  assert (Hs : 0 <= s) by (unfold s, e'; lia).
  set (m' := match s with Z.pos _ => Z.shiftl m1 s | 0 => m1 | Z.neg _ => 0 end).
  assert (Hm' : m' = m1 * 2 ^ s).
  { unfold m'. destruct s as [|p|p]; [simpl; lia | apply Z.shiftl_mul_pow2; lia | lia]. }
  pose proof (Z_div_mod m' m2 ltac:(lia)) as Hdiv.
  destruct (Z.div_eucl m' m2) as [q r]. destruct Hdiv as [Hq Hr2].
  assert (Hm'pos : 0 < m') by (rewrite Hm'; apply Z.mul_pos_pos; [lia | apply Z.pow_pos_nonneg; lia]).
  assert (Hq0 : 0 <= q) by nia.
  split; [exact Hq0|].
  assert (He' : e' <= Z.max (d1 + e1 - (d2 + e2) - 53) (-1074)) by (unfold e'; change (fexp prec emax (d1 + e1 - (d2 + e2))) with (Z.max (d1 + e1 - (d2 + e2) - 53) (-1074)); lia).
  destruct (Z.eq_dec q 0) as [->|Hq1]; [simpl; fold d1 d2 in HE; lia|].
  pose proof (digits_bounds m2 H2) as Hb2. fold d2 in Hb2.
  pose proof (digits_lt_pow m1 ltac:(lia)) as Hb1. fold d1 in Hb1.
  assert (Hd1 : 1 <= d1) by (unfold d1; destruct m1; try lia; unfold digits; simpl; lia).
  assert (Hd2 : 1 <= d2) by (unfold d2; destruct m2; try lia; unfold digits; simpl; lia).
  (* q * 2^(d2-1) <= q * m2 <= m' < 2^(d1+s) *)
  assert (Hlt : q * 2 ^ (d2 - 1) < 2 ^ (d1 + s)).
  { rewrite Z.pow_add_r by lia.
    assert (0 < 2 ^ s) by (apply Z.pow_pos_nonneg; lia). nia. }
  assert (Hk : 0 <= d1 + s - (d2 - 1)).
  { destruct (Z.lt_ge_cases (d1 + s) (d2 - 1)) as [Hc|]; [|lia].
    exfalso. assert (2 ^ (d1 + s) < 2 ^ (d2 - 1)) by (apply Z.pow_lt_mono_r; lia).
    assert (0 < 2 ^ (d1 + s)) by (apply Z.pow_pos_nonneg; lia). nia. }
  assert (digits q <= d1 + s - (d2 - 1)).
  { apply digits_le; [lia | lia |].
    assert (Hsplit : 2 ^ (d1 + s) = 2 ^ (d1 + s - (d2 - 1)) * 2 ^ (d2 - 1)).
    { rewrite <- Z.pow_add_r by lia. f_equal. lia. }
    rewrite Hsplit in Hlt.
    assert (0 < 2 ^ (d2 - 1)) by (apply Z.pow_pos_nonneg; lia). nia. }
  fold d1 d2 in HE. unfold s in *. lia.
Qed.

Lemma SFdiv_below x y E L :
  sf_below E x -> sf_above L y -> -1074 <= E - L + 1 <= 971 ->
  sf_below (E - L + 2) (SF64div x y).
Proof.
  intros Hx Hy HE.
  destruct x as [sx|sx| |sx mx ex], y as [sy|sy| |sy my ey];
    cbn [sf_below sf_above] in Hx, Hy; try contradiction.
  - exact I.
  - unfold SF64div, SFdiv.
    pose proof (SFdiv_core_below (Z.pos mx) ex (Z.pos my) ey (E - L + 1)
                  ltac:(lia) ltac:(lia) ltac:(lia) ltac:(lia)) as H.
    destruct (SFdiv_core_binary prec emax (Z.pos mx) ex (Z.pos my) ey) as [[q e'] l].
    destruct H as [Hq Hd].
    replace (E - L + 2) with (E - L + 1 + 1) by lia.
    apply binary_round_aux_below; lia.
Qed.

(** An exact mantissa that is in place already is kept. *)
Lemma binary_round_aux_canonical sx m e :
  fexp64 (digits (Z.pos m) + e) <= e -> e <= 971 ->
  binary_round_aux prec emax sx (Z.pos m) e loc_Exact = S754_finite sx m e.
Proof.
  intros Hc He. unfold binary_round_aux.
  assert (Hs : shr_fexp prec emax (Z.pos m) e loc_Exact
               = (shr_record_of_loc (Z.pos m) loc_Exact, e)).
  { unfold shr_fexp, shr. change (Zdigits2 (Z.pos m)) with (digits (Z.pos m)).
    change (fexp prec emax) with fexp64.
    destruct (fexp64 (digits (Z.pos m) + e) - e) eqn:Ek; try reflexivity. lia. }
  rewrite Hs. cbn [shr_record_of_loc shr_m loc_of_shr_record round_nearest_even].
  rewrite Hs. cbn [shr_record_of_loc shr_m].
  replace (e <=? emax - prec) with true by (symmetry; apply Z.leb_le; exact He).
  reflexivity.
Qed.

Lemma of_uint63_exact z :
  0 < z < 2 ^ 53 ->
  Prim2SF (of_uint63 (Uint63.of_Z z))
  = S754_finite false (Z.to_pos (z * 2 ^ (53 - digits z))) (digits z - 53).
Proof.
  intros Hz. rewrite of_uint63_spec.
  rewrite Uint63.of_Z_spec.
  rewrite Z.mod_small by (change Uint63.wB with (2 ^ 63); split; [lia|];
                          assert (2 ^ 53 < 2 ^ 63) by (apply Z.pow_lt_mono_r; lia); lia).
  destruct z as [|p|p]; try lia.
  cbn [binary_normalize]. unfold binary_round.
  pose proof (digits_le (Z.pos p) 53 ltac:(lia) ltac:(lia) ltac:(lia)) as Hd.
  assert (1 <= digits (Z.pos p)) by (unfold digits; simpl; lia).
  pose proof (shl_align_spec p 0 (fexp prec emax (Z.pos (digits2_pos p) + 0))) as (H1 & H2 & H3).
  change (Z.pos (digits2_pos p)) with (digits (Z.pos p)) in *.
  change (fexp prec emax (digits (Z.pos p) + 0)) with (Z.max (digits (Z.pos p) + 0 - 53) (-1074)) in *.
  destruct (shl_align p 0 _) as [mz ez]. cbn [fst snd] in *.
  assert (Hez : ez = digits (Z.pos p) - 53) by lia.
  assert (Hdz : digits (Z.pos mz) = 53).
  { rewrite H2, digits_mul_pow2 by lia. lia. }
  rewrite binary_round_aux_canonical.
  - f_equal; [|lia]. rewrite <- (Pos2Z.id mz). f_equal. rewrite H2. f_equal. f_equal. lia.
  - rewrite fexp64_eq. lia.
  - lia.
Qed.

(** *** Integers as floats *)

Lemma float_of_int_zero : Prim2SF (float_of_int 0) = S754_zero false.
Proof. reflexivity. Qed.

Lemma float_of_int_pos z :
  0 < z < 2 ^ 53 ->
  Prim2SF (float_of_int z)
  = S754_finite false (Z.to_pos (z * 2 ^ (53 - digits z))) (digits z - 53).
Proof.
  intros Hz. unfold float_of_int.
  replace (z <? 0) with false by (symmetry; apply Z.ltb_ge; lia).
  now apply of_uint63_exact.
Qed.

Lemma float_of_int_neg z :
  - 2 ^ 53 < z < 0 ->
  Prim2SF (float_of_int z)
  = S754_finite true (Z.to_pos (- z * 2 ^ (53 - digits (- z)))) (digits (- z) - 53).
Proof.
  intros Hz. unfold float_of_int.
  replace (z <? 0) with true by (symmetry; apply Z.ltb_lt; lia).
  rewrite opp_spec, of_uint63_exact by lia. reflexivity.
Qed.

Lemma digits_scaled z :
  0 < z < 2 ^ 53 -> digits (Z.pos (Z.to_pos (z * 2 ^ (53 - digits z)))) = 53.
Proof.
  intros Hz.
  pose proof (digits_le z 53 ltac:(lia) ltac:(lia) ltac:(lia)).
  assert (0 < z * 2 ^ (53 - digits z)) by (apply Z.mul_pos_pos; [lia | apply Z.pow_pos_nonneg; lia]).
  rewrite Z2Pos.id by lia. rewrite digits_mul_pow2 by lia. lia.
Qed.

Lemma float_of_int_below z :
  - 2 ^ 53 < z < 2 ^ 53 -> sf_below 53 (Prim2SF (float_of_int z)).
Proof.
  intros Hz.
  destruct (Z.lt_trichotomy z 0) as [Hn | [-> | Hp]].
  - rewrite float_of_int_neg by lia. cbn [sf_below].
    rewrite digits_scaled by lia.
    pose proof (digits_le (- z) 53 ltac:(lia) ltac:(lia) ltac:(lia)). lia.
  - rewrite float_of_int_zero. exact I.
  - rewrite float_of_int_pos by lia. cbn [sf_below].
    rewrite digits_scaled by lia.
    pose proof (digits_le z 53 ltac:(lia) ltac:(lia) ltac:(lia)). lia.
Qed.

Lemma float_of_int_above z :
  1 <= z < 2 ^ 53 -> sf_above 1 (Prim2SF (float_of_int z)).
Proof.
  intros Hz. rewrite float_of_int_pos by lia. cbn [sf_above].
  rewrite digits_scaled by lia.
  assert (1 <= digits z) by (destruct z; try lia; unfold digits; simpl; lia). lia.
Qed.

(** [int(x)] is defined on every float that is zero or finite. *)
Lemma int_of_float_defined x E :
  sf_below E (Prim2SF x) -> exists c, int_of_float x = Ok c.
Proof.
  unfold int_of_float. destruct (Prim2SF x); cbn [sf_below]; intros H;
    try contradiction; eauto.
Qed.

(** The interpolated channel is defined when the operands are
    integers that floats hold exactly. *)
Lemma interpolation_defined a d t steps :
  - 2 ^ 53 < a < 2 ^ 53 -> - 2 ^ 53 < d < 2 ^ 53 ->
  0 <= t < 2 ^ 53 -> 1 <= steps < 2 ^ 53 ->
  exists c,
    int_of_float
      (float_of_int a + (float_of_int t / float_of_int steps) * float_of_int d)%float
    = Ok c.
Proof.
  intros Ha Hd Ht Hs.
  apply int_of_float_defined with (E := 110).
  rewrite add_spec, mul_spec, div_spec.
  pose proof (float_of_int_below a Ha) as Ba.
  pose proof (float_of_int_below d Hd) as Bd.
  pose proof (float_of_int_below t ltac:(lia)) as Bt.
  pose proof (float_of_int_above steps Hs) as As.
  pose proof (SFdiv_below _ _ 53 1 Bt As ltac:(lia)) as Bp.
  pose proof (SFmul_below _ _ _ 53 Bp Bd ltac:(lia)) as Bq.
  apply (SFadd_below _ _ 108); [| exact Bq | lia].
  eapply sf_below_mono; [|exact Ba]. lia.
Qed.

(** *** Rounding keeps a number between two integers *)

Lemma shr_1_exact r k :
  0 <= k -> exact_record r -> 0 <= shr_m r -> (2 ^ (k + 1) | shr_m r) ->
  exact_record (shr_1 r) /\ 0 <= shr_m (shr_1 r) /\ (2 ^ k | shr_m (shr_1 r)).
Proof.
  intros Hk [Hr Hs] Hm [c Hc].
  assert (Hhalf : shr_m r = 2 * (c * 2 ^ k))
    by (rewrite Hc, Z.pow_add_r, Z.pow_1_r by lia; ring).
  rewrite (shr_1_m r Hm).
  assert (Hq : shr_m r / 2 = c * 2 ^ k)
    by (rewrite Hhalf, Z.mul_comm, Z.div_mul by lia; reflexivity).
  split; [|split; [rewrite Hq; lia | rewrite Hq; now exists c]].
  destruct r as [m rb sb]. cbn [shr_r shr_s shr_m] in *. subst rb sb.
  unfold exact_record.
  destruct m as [|[p|p|]|p]; cbn; try lia; auto.
Qed.

Lemma iter_shr_1_exact p : forall r k,
  0 <= k -> exact_record r -> 0 <= shr_m r -> (2 ^ (Z.pos p + k) | shr_m r) ->
  exact_record (iter_pos shr_1 p r)
  /\ 0 <= shr_m (iter_pos shr_1 p r) /\ (2 ^ k | shr_m (iter_pos shr_1 p r)).
Proof.
  induction p as [p IH|p IH|]; intros r k Hk He Hm Hd; cbn [iter_pos].
  - rewrite Pos2Z.inj_xI in Hd.
    destruct (shr_1_exact r (Z.pos p + (Z.pos p + k)) ltac:(lia) He Hm) as (He1 & Hm1 & Hd1).
    { replace (Z.pos p + (Z.pos p + k) + 1) with (2 * Z.pos p + 1 + k) by lia. exact Hd. }
    destruct (IH _ (Z.pos p + k) ltac:(lia) He1 Hm1 Hd1) as (He2 & Hm2 & Hd2).
    exact (IH _ k Hk He2 Hm2 Hd2).
  - rewrite Pos2Z.inj_xO in Hd.
    destruct (IH r (Z.pos p + k) ltac:(lia) He Hm) as (He2 & Hm2 & Hd2).
    { replace (Z.pos p + (Z.pos p + k)) with (2 * Z.pos p + k) by lia. exact Hd. }
    exact (IH _ k Hk He2 Hm2 Hd2).
  - apply shr_1_exact; auto. now rewrite Z.add_comm.
Qed.

(** An exact mantissa that is a multiple of the power of two it is
    shifted by stays exact. *)
Lemma shr_fexp_exact m e :
  0 <= m ->
  (2 ^ Z.max 0 (fexp64 (digits m + e) - e) | m) ->
  loc_of_shr_record (fst (shr_fexp prec emax m e loc_Exact)) = loc_Exact.
Proof.
  intros Hm Hd. unfold shr_fexp, shr.
  change (fexp prec emax (Zdigits2 m + e)) with (fexp64 (digits m + e)).
  destruct (fexp64 (digits m + e) - e) as [|p|p] eqn:Ek; cbn [fst]; try reflexivity.
  rewrite Z.max_r in Hd by lia.
  destruct (iter_shr_1_exact p (shr_record_of_loc m loc_Exact) 0 ltac:(lia)) as ([Hr Hs] & _).
  - split; reflexivity.
  - exact Hm.
  - now rewrite Z.add_0_r.
  - destruct (iter_pos shr_1 p _) as [m' r' s']. cbn in Hr, Hs. subst. reflexivity.
Qed.

Lemma pow2_pos k : 0 <= k -> 0 < 2 ^ k.
Proof. intros. apply Z.pow_pos_nonneg; lia. Qed.

Lemma pow2_split a b : 0 <= a -> 0 <= b -> 2 ^ (a + b) = 2 ^ a * 2 ^ b.
Proof. intros. apply Z.pow_add_r; lia. Qed.

(** One shift and cut: a mantissa between [lo * 2^k] and [hi * 2^k]
    goes between [lo] and [hi]. *)
Lemma shift_between m k lo hi :
  0 <= k -> lo * 2 ^ k <= m <= hi * 2 ^ k -> lo <= m / 2 ^ k <= hi.
Proof.
  intros Hk [Hl Hh]. pose proof (pow2_pos k Hk).
  split.
  - apply Z.div_le_lower_bound; lia.
  - apply Z.div_le_upper_bound; lia.
Qed.

Lemma digits_below m hi k :
  0 <= m -> 0 <= k -> hi < 2 ^ 51 -> m <= hi * 2 ^ k -> digits m <= 51 + k.
Proof.
  intros Hm Hk Hhi Hle. apply digits_le; [lia | lia |].
  rewrite pow2_split by lia. pose proof (pow2_pos k Hk). nia.
Qed.

Lemma binary_round_aux_bracket sx mx ex lx lo hi :
  0 <= mx -> ex <= 0 -> 0 <= lo -> hi < 2 ^ 51 ->
  lo * 2 ^ (- ex) <= mx -> mx + inexact lx <= hi * 2 ^ (- ex) ->
  sf_bracket sx lo hi (binary_round_aux prec emax sx mx ex lx).
Proof.
  intros Hm Hex Hlo Hhi Hl Hh. unfold binary_round_aux.
  assert (Hc : 0 <= inexact lx <= 1) by (destruct lx; simpl; lia).
  pose proof (pow2_pos (- ex) ltac:(lia)) as Hpex.
  (* the first shift *)
  pose proof (shr_fexp_spec mx ex lx Hm) as [Hm1 He1].
  pose proof (shr_fexp_exact mx ex Hm) as Hexact.
  pose proof (digits_below mx hi (- ex) Hm ltac:(lia) Hhi ltac:(lia)) as Hdx.
  pose proof (digits_nonneg mx) as Hdx0.
  assert (Hk1 : Z.max 0 (fexp64 (digits mx + ex) - ex) = Z.max 0 (Z.max (digits mx + ex - 53) (-1074) - ex))
    by reflexivity.
  set (k1 := Z.max 0 (fexp64 (digits mx + ex) - ex)) in *.
  assert (Hk1' : 0 <= k1 /\ ex + k1 <= 0) by lia.
  assert (Hsplit1 : 2 ^ (- ex) = 2 ^ (- (ex + k1)) * 2 ^ k1).
  { rewrite <- pow2_split by lia. f_equal. lia. }
  pose proof (pow2_pos k1 ltac:(lia)) as Hpk1.
  pose proof (pow2_pos (- (ex + k1)) ltac:(lia)) as Hpe1.
  assert (Hb1 : lo * 2 ^ (- (ex + k1)) <= mx / 2 ^ k1 <= hi * 2 ^ (- (ex + k1))).
  { apply shift_between; [lia|]. rewrite Hsplit1 in Hl, Hh. lia. }
  set (m2 := round_nearest_even (shr_m (fst (shr_fexp prec emax mx ex lx)))
               (loc_of_shr_record (fst (shr_fexp prec emax mx ex lx)))).
  assert (Hb2 : lo * 2 ^ (- (ex + k1)) <= m2 <= hi * 2 ^ (- (ex + k1))).
  { pose proof (round_nearest_even_bounds
                  (shr_m (fst (shr_fexp prec emax mx ex lx)))
                  (loc_of_shr_record (fst (shr_fexp prec emax mx ex lx)))) as Hr.
    fold m2 in Hr. rewrite Hm1 in Hr. specialize (Hr ltac:(lia)).
    split; [lia|].
    destruct (Z.eq_dec (mx / 2 ^ k1) (hi * 2 ^ (- (ex + k1)))) as [Heq|Hne]; [|lia].
    (* the quotient is at the bound already: nothing was cut off *)
    pose proof (Z.mul_div_le mx (2 ^ k1) Hpk1) as Hfloor.
    assert (Hmx : mx = hi * 2 ^ (- (ex + k1)) * 2 ^ k1).
    { rewrite Hsplit1 in Hh. rewrite Heq in Hfloor. nia. }
    assert (Hlx : lx = loc_Exact).
    { destruct lx; [reflexivity|]. simpl in Hh. rewrite Hsplit1 in Hh. nia. }
    subst lx. unfold m2. rewrite Hexact.
    - cbn [round_nearest_even]. rewrite Hm1. lia.
    - fold k1. exists (hi * 2 ^ (- (ex + k1))). exact Hmx. }
  destruct (shr_fexp prec emax mx ex lx) as [r1 e1] eqn:Es1. cbn [fst snd] in *.
  subst e1.
  change (round_nearest_even (shr_m r1) (loc_of_shr_record r1)) with m2.
  assert (Hm2 : 0 <= m2) by nia.
  (* the second shift *)
  pose proof (shr_fexp_spec m2 (ex + k1) loc_Exact Hm2) as [Hm3 He3].
  pose proof (digits_below m2 hi (- (ex + k1)) Hm2 ltac:(lia) Hhi ltac:(lia)) as Hd2.
  pose proof (digits_nonneg m2) as Hd20.
  assert (Hk3 : Z.max 0 (fexp64 (digits m2 + (ex + k1)) - (ex + k1))
                = Z.max 0 (Z.max (digits m2 + (ex + k1) - 53) (-1074) - (ex + k1)))
    by reflexivity.
  set (k3 := Z.max 0 (fexp64 (digits m2 + (ex + k1)) - (ex + k1))) in *.
  assert (Hk3' : 0 <= k3 /\ ex + k1 + k3 <= 0) by lia.
  assert (Hsplit3 : 2 ^ (- (ex + k1)) = 2 ^ (- (ex + k1 + k3)) * 2 ^ k3).
  { rewrite <- pow2_split by lia. f_equal. lia. }
  pose proof (pow2_pos (- (ex + k1 + k3)) ltac:(lia)) as Hpe3.
  assert (Hb3 : lo * 2 ^ (- (ex + k1 + k3)) <= m2 / 2 ^ k3 <= hi * 2 ^ (- (ex + k1 + k3))).
  { apply shift_between; [lia|]. rewrite Hsplit3 in Hb2. lia. }
  destruct (shr_fexp prec emax m2 (ex + k1) loc_Exact) as [r3 e3]. cbn [fst snd] in *.
  subst e3. rewrite <- Hm3 in Hb3.
  destruct (shr_m r3) as [|m3|m3]; cbn [sf_bracket].
  - nia.
  - replace (ex + k1 + k3 <=? emax - prec) with true
      by (symmetry; apply Z.leb_le; change (emax - prec) with 971; lia).
    cbn [sf_bracket]. split; [reflexivity|]. split; [lia | exact Hb3].
  - nia.
Qed.

Lemma float_of_int_integer z :
  - 2 ^ 53 < z < 2 ^ 53 -> sf_integer z (Prim2SF (float_of_int z)).
Proof.
  intros Hz.
  assert (Hrep : forall y, 0 < y < 2 ^ 53 ->
            -52 <= digits y - 53 <= 0
            /\ Z.pos (Z.to_pos (y * 2 ^ (53 - digits y))) = y * 2 ^ (- (digits y - 53))
            /\ digits (Z.pos (Z.to_pos (y * 2 ^ (53 - digits y)))) = 53).
  { intros y Hy.
    pose proof (digits_le y 53 ltac:(lia) ltac:(lia) ltac:(lia)).
    assert (1 <= digits y) by (destruct y; try lia; unfold digits; simpl; lia).
    pose proof (pow2_pos (53 - digits y) ltac:(lia)).
    split; [lia|]. split; [|now apply digits_scaled].
    rewrite Z2Pos.id by nia. f_equal. f_equal. lia. }
  destruct (Z.lt_trichotomy z 0) as [Hn | [-> | Hp]].
  - rewrite float_of_int_neg by lia. cbn [sf_integer].
    destruct (Hrep (- z) ltac:(lia)) as (He & Hm & Hd).
    replace (Z.abs z) with (- z) by lia.
    repeat split; try lia; try assumption.
  - rewrite float_of_int_zero. split; reflexivity.
  - rewrite float_of_int_pos by lia. cbn [sf_integer].
    destruct (Hrep z ltac:(lia)) as (He & Hm & Hd).
    replace (Z.abs z) with z by lia.
    repeat split; try lia; try assumption.
Qed.

Lemma new_location_inexact n r :
  inexact (new_location n r) = if r =? 0 then 0 else 1.
Proof.
  unfold new_location, new_location_even, new_location_odd.
  destruct (Z.even n), (r =? 0); reflexivity.
Qed.

(** The quotient of two positive integers, as floats, lies between the
    integers that bound the exact quotient. *)
Lemma SFdiv_bracket t steps x y lo hi :
  0 < t -> 0 < steps -> sf_integer t x -> sf_integer steps y ->
  0 <= lo -> hi < 2 ^ 51 -> lo * steps <= t <= hi * steps ->
  sf_bracket false lo hi (SF64div x y).
Proof.
  intros Ht Hs Hx Hy Hlo Hhi Hb.
  destruct x as [sx|sx| |sx m1 e1]; cbn [sf_integer] in Hx; try lia; try contradiction.
  destruct y as [sy|sy| |sy m2 e2]; cbn [sf_integer] in Hy; try lia; try contradiction.
  destruct Hx as (_ & Hsx & He1 & Hm1 & Hd1). destruct Hy as (_ & Hsy & He2 & Hm2 & Hd2).
  replace (t <? 0) with false in Hsx by (symmetry; apply Z.ltb_ge; lia).
  replace (steps <? 0) with false in Hsy by (symmetry; apply Z.ltb_ge; lia).
  subst sx sy. rewrite Z.abs_eq in Hm1, Hm2 by lia.
  unfold SF64div, SFdiv, SFdiv_core_binary. cbn [xorb].
  change (Zdigits2 (Z.pos m1)) with (digits (Z.pos m1)).
  change (Zdigits2 (Z.pos m2)) with (digits (Z.pos m2)).
  rewrite Hd1, Hd2.
  change (fexp prec emax (53 + e1 - (53 + e2)))
    with (Z.max (53 + e1 - (53 + e2) - 53) (-1074)).
  replace (Z.min (Z.max (53 + e1 - (53 + e2) - 53) (-1074)) (e1 - e2))
    with (e1 - e2 - 53) by lia.
  replace (e1 - e2 - (e1 - e2 - 53)) with 53 by lia.
  cbv iota. rewrite Z.shiftl_mul_pow2 by lia.
  pose proof (Z_div_mod (Z.pos m1 * 2 ^ 53) (Z.pos m2) ltac:(lia)) as Hdiv.
  destruct (Z.div_eucl (Z.pos m1 * 2 ^ 53) (Z.pos m2)) as [q r].
  destruct Hdiv as [Hq Hr].
  set (e' := e1 - e2 - 53).
  pose proof (pow2_pos (- e') ltac:(unfold e'; lia)) as Hpe.
  pose proof (pow2_pos (- e2) ltac:(lia)) as Hp2.
  assert (Hscale : Z.pos m1 * 2 ^ 53 = t * (2 ^ (- e') * 2 ^ (- e2))).
  { rewrite Hm1, <- Z.mul_assoc, <- !pow2_split by (unfold e'; lia).
    f_equal. f_equal. unfold e'. lia. }
  assert (Hq0 : 0 <= q) by nia.
  apply binary_round_aux_bracket; try lia; try (unfold e'; lia).
  - (* lo * 2^(-e') <= q *)
    assert (lo * 2 ^ (- e') * Z.pos m2 <= Z.pos m1 * 2 ^ 53).
    { rewrite Hscale, Hm2. nia. }
    nia.
  - rewrite new_location_inexact.
    assert (Hup : Z.pos m1 * 2 ^ 53 <= hi * 2 ^ (- e') * Z.pos m2).
    { rewrite Hscale, Hm2. nia. }
    destruct (Z.eqb_spec r 0); nia.
Qed.

(** A fraction between [lo] and [hi] times an integer [d]. *)
Lemma SFmul_bracket s lo hi d x y :
  sf_bracket s lo hi x -> sf_integer d y ->
  0 <= lo -> hi * Z.abs d < 2 ^ 51 ->
  sf_bracket (xorb s (d <? 0)) (lo * Z.abs d) (hi * Z.abs d) (SF64mul x y).
Proof.
  intros Hx Hy Hlo Hhi.
  destruct x as [sx|sx| |sx mx ex]; cbn [sf_bracket] in Hx; try contradiction;
    destruct y as [sy|sy| |sy my ey]; cbn [sf_integer] in Hy; try contradiction.
  - cbn. nia.
  - cbn. nia.
  - destruct Hy as [-> _]. cbn. lia.
  - destruct Hx as (-> & Hex & Hmx). destruct Hy as (Hd & -> & Hey & Hmy & _).
    unfold SF64mul, SFmul.
    change (Z.pos (mx * my)) with (Z.pos mx * Z.pos my).
    pose proof (pow2_pos (- ex) ltac:(lia)). pose proof (pow2_pos (- ey) ltac:(lia)).
    assert (Hsplit : 2 ^ (- (ex + ey)) = 2 ^ (- ex) * 2 ^ (- ey)).
    { rewrite <- pow2_split by lia. f_equal. lia. }
    assert (HD : 0 <= Z.abs d * 2 ^ (- ey)) by nia.
    apply binary_round_aux_bracket; try lia; try nia.
    change (inexact loc_Exact) with 0. rewrite Hsplit, Hmy, Z.add_0_r.
    replace (hi * Z.abs d * (2 ^ (- ex) * 2 ^ (- ey)))
      with (hi * 2 ^ (- ex) * (Z.abs d * 2 ^ (- ey))) by ring.
    apply Z.mul_le_mono_nonneg_r; lia.
Qed.

(** An integer [a >= 0] plus a number between [lo] and [hi]. *)
Lemma binary_normalize_bracket M e lo hi :
  e <= 0 -> 0 <= lo -> hi < 2 ^ 51 ->
  lo * 2 ^ (- e) <= M <= hi * 2 ^ (- e) ->
  sf_bracket false lo hi (binary_normalize prec emax M e false).
Proof.
  intros He Hlo Hhi HM. pose proof (pow2_pos (- e) ltac:(lia)) as Hpe.
  destruct M as [|m|m]; cbn [binary_normalize]; [cbn; nia | | nia].
  unfold binary_round.
  pose proof (shl_align_spec m e (fexp prec emax (Z.pos (digits2_pos m) + e)))
    as (H1 & H2 & _).
  destruct (shl_align m e _) as [mz ez]. cbn [fst snd] in *.
  pose proof (pow2_pos (e - ez) ltac:(lia)).
  assert (Hsplit : 2 ^ (- ez) = 2 ^ (- e) * 2 ^ (e - ez)).
  { rewrite <- pow2_split by lia. f_equal. lia. }
  apply binary_round_aux_bracket; try lia.
  - rewrite H2, Hsplit. nia.
  - change (inexact loc_Exact) with 0. rewrite H2, Hsplit. nia.
Qed.

Lemma aligned_value m e ez :
  ez <= e -> Z.pos (fst (shl_align m e ez)) = Z.pos m * 2 ^ (e - ez).
Proof.
  intros Hle. pose proof (shl_align_spec m e ez) as (H1 & H2 & H3).
  rewrite H2, H3, Z.min_r by lia. reflexivity.
Qed.

Lemma SFadd_bracket a sq lo hi x y :
  0 <= a -> sf_integer a x -> sf_bracket sq lo hi y ->
  0 <= lo <= hi -> a + hi < 2 ^ 51 -> (sq = true -> hi <= a) ->
  sf_bracket false (if sq then a - hi else a + lo) (if sq then a - lo else a + hi)
    (SF64add x y).
Proof.
  intros Ha Hx Hy Hlo Hhi Hneg.
  assert (Hrange : 0 <= (if sq then a - hi else a + lo)
                   /\ (if sq then a - lo else a + hi) < 2 ^ 51).
  { destruct sq; [specialize (Hneg eq_refl)|]; lia. }
  destruct x as [sx|sx| |sx mx ex]; cbn [sf_integer] in Hx; try contradiction;
    destruct y as [sy|sy| |sy my ey]; cbn [sf_bracket] in Hy; try contradiction.
  - (* 0 + 0 *)
    destruct Hx as [-> ->]. destruct sy; cbn; destruct sq;
      try specialize (Hneg eq_refl); lia.
  - (* 0 + q *)
    destruct Hx as [-> ->]. destruct Hy as (-> & Hey & Hmy).
    change (SF64add (S754_zero false) (S754_finite sq my ey)) with (S754_finite sq my ey).
    pose proof (pow2_pos (- ey) ltac:(lia)).
    destruct sq; [specialize (Hneg eq_refl); nia|].
    cbn [sf_bracket]. split; [reflexivity|]. split; [lia|].
    rewrite !Z.add_0_l. exact Hmy.
  - (* a + 0 *)
    destruct Hx as (Hnz & -> & Hex & Hmx & _).
    change (SF64add (S754_finite (a <? 0) mx ex) (S754_zero sy))
      with (S754_finite (a <? 0) mx ex).
    cbn [sf_bracket]. pose proof (pow2_pos (- ex) ltac:(lia)).
    rewrite Z.abs_eq in Hmx by lia.
    split; [apply Z.ltb_ge; lia|]. split; [lia|].
    rewrite Hmx. destruct sq; nia.
  - (* a + q *)
    destruct Hx as (Hnz & -> & Hex & Hmx & _). destruct Hy as (-> & Hey & Hmy).
    rewrite Z.abs_eq in Hmx by lia.
    replace (a <? 0) with false by (symmetry; apply Z.ltb_ge; lia).
    unfold SF64add, SFadd. set (ez := Z.min ex ey).
    rewrite !aligned_value by (unfold ez; lia).
    pose proof (pow2_pos (- ex) ltac:(lia)). pose proof (pow2_pos (- ey) ltac:(lia)).
    pose proof (pow2_pos (- ez) ltac:(unfold ez; lia)).
    pose proof (pow2_pos (ex - ez) ltac:(unfold ez; lia)).
    pose proof (pow2_pos (ey - ez) ltac:(unfold ez; lia)).
    assert (Hsx : 2 ^ (- ez) = 2 ^ (- ex) * 2 ^ (ex - ez)).
    { rewrite <- pow2_split by (unfold ez; lia). f_equal. lia. }
    assert (Hsy : 2 ^ (- ez) = 2 ^ (- ey) * 2 ^ (ey - ez)).
    { rewrite <- pow2_split by (unfold ez; lia). f_equal. lia. }
    assert (Hav : Z.pos mx * 2 ^ (ex - ez) = a * 2 ^ (- ez)).
    { rewrite Hmx, Hsx. ring. }
    assert (Hqv : lo * 2 ^ (- ez) <= Z.pos my * 2 ^ (ey - ez) <= hi * 2 ^ (- ez)).
    { rewrite Hsy. nia. }
    apply binary_normalize_bracket; try (unfold ez; lia); try (apply Hrange).
    cbn [cond_Zopp]. rewrite Hav.
    destruct sq; cbn [cond_Zopp]; nia.
Qed.

(** [int] of a float between two integers that are not negative. *)
Lemma int_of_float_bracket x lo hi :
  0 <= lo -> sf_bracket false lo hi (Prim2SF x) ->
  exists c, int_of_float x = Ok c /\ lo <= c <= hi.
Proof.
  intros Hlo H. unfold int_of_float.
  destruct (Prim2SF x) as [s|s| |s m e]; cbn [sf_bracket] in H; try contradiction.
  - exists 0. split; [reflexivity | lia].
  - destruct H as (-> & He & Hm).
    destruct (Z.leb_spec 0 e) as [H0|H0].
    + replace e with 0 in * by lia. change (- 0) with 0 in Hm.
      rewrite Z.pow_0_r, !Z.mul_1_r in *. eauto.
    + eexists. split; [reflexivity|]. apply shift_between; lia.
Qed.

(** The interpolated channel lies between the start channel and the end
    channel, and is the end channel at the last of the steps. *)
Lemma interpolation_between a b t steps :
  0 <= a < 2 ^ 50 -> 0 <= b < 2 ^ 50 -> 0 <= t <= steps -> 1 <= steps < 2 ^ 53 ->
  exists c,
    int_of_float
      (float_of_int a + (float_of_int t / float_of_int steps) * float_of_int (b - a))%float
    = Ok c
    /\ Z.min a b <= c <= Z.max a b
    /\ (t = steps -> c = b).
Proof.
  intros Ha Hb Ht Hs.
  assert (H5051 : 2 ^ 50 < 2 ^ 51 /\ 2 ^ 51 < 2 ^ 53) by (split; apply Z.pow_lt_mono_r; lia).
  set (lo := if t =? steps then 1 else 0).
  assert (Hlo : 0 <= lo <= 1) by (unfold lo; destruct (t =? steps); lia).
  pose proof (float_of_int_integer a ltac:(lia)) as Ia.
  pose proof (float_of_int_integer (b - a) ltac:(lia)) as Id.
  pose proof (float_of_int_integer steps ltac:(lia)) as Is.
  pose proof (float_of_int_integer t ltac:(lia)) as It.
  assert (Hp : sf_bracket false lo 1 (SF64div (Prim2SF (float_of_int t))
                                              (Prim2SF (float_of_int steps)))).
  { destruct (Z.eq_dec t 0) as [->|Ht0].
    - rewrite float_of_int_zero.
      destruct (Prim2SF (float_of_int steps)) as [?|?| |? ? ?]; cbn [sf_integer] in Is;
        try contradiction; try lia.
      cbn. unfold lo. replace (0 =? steps) with false by (symmetry; apply Z.eqb_neq; lia). lia.
    - apply (SFdiv_bracket t steps); try lia; auto.
      unfold lo. destruct (Z.eqb_spec t steps); lia. }
  pose proof (SFmul_bracket false lo 1 (b - a) _ _ Hp Id ltac:(lia) ltac:(lia)) as Hq.
  cbn [xorb] in Hq.
  pose proof (SFadd_bracket a (b - a <? 0) (lo * Z.abs (b - a)) (1 * Z.abs (b - a)) _ _
                ltac:(lia) Ia Hq ltac:(nia) ltac:(lia)) as Hr.
  specialize (Hr ltac:(intros H; apply Z.ltb_lt in H; lia)).
  rewrite <- div_spec, <- mul_spec, <- add_spec in Hr.
  apply int_of_float_bracket in Hr.
  - destruct Hr as (c & Hc & Hrange). exists c. split; [exact Hc|].
    unfold lo in Hrange.
    destruct (Z.ltb_spec (b - a) 0); destruct (Z.eqb_spec t steps); split; try lia; nia.
  - destruct (Z.ltb_spec (b - a) 0); nia.
Qed.

(** *** The order of floats *)

Lemma SFltb_Lt x y : SFltb x y = true <-> SFcompare x y = Some Lt.
Proof.
  unfold SFltb. destruct (SFcompare x y) as [[]|]; split; congruence.
Qed.

Ltac compare_cases :=
  repeat match goal with
         | H : context [Z.compare ?a ?b] |- _ =>
             destruct (Z.compare_spec a b); try discriminate
         | |- context [Z.compare ?a ?b] =>
             destruct (Z.compare_spec a b); try discriminate
         | H : context [Pos.compare_cont Eq ?a ?b] |- _ =>
             change (Pos.compare_cont Eq a b) with (Pos.compare a b) in H;
             destruct (Pos.compare_spec a b); try discriminate
         | |- context [Pos.compare_cont Eq ?a ?b] =>
             change (Pos.compare_cont Eq a b) with (Pos.compare a b);
             destruct (Pos.compare_spec a b); try discriminate
         end.

Lemma SFcompare_Lt_trans x y z :
  SFcompare x y = Some Lt -> SFcompare y z = Some Lt -> SFcompare x z = Some Lt.
Proof.
  destruct x as [sx|sx| |sx mx ex], y as [sy|sy| |sy my ey], z as [sz|sz| |sz mz ez];
    cbn [SFcompare]; intros H1 H2; try discriminate; try reflexivity;
    try (destruct sx; try discriminate); try (destruct sy; try discriminate);
    try (destruct sz; try discriminate); try reflexivity;
    cbn [CompOpp] in *; compare_cases; subst; cbn [CompOpp] in *;
    try discriminate; try reflexivity; try lia.
Qed.

Lemma SFcompare_Lt_asym x y :
  SFcompare x y = Some Lt -> SFcompare y x <> Some Lt.
Proof.
  destruct x as [sx|sx| |sx mx ex], y as [sy|sy| |sy my ey];
    cbn [SFcompare]; intros H1 H2; try discriminate;
    try (destruct sx; try discriminate); try (destruct sy; try discriminate);
    cbn [CompOpp] in *; compare_cases; subst; cbn [CompOpp] in *;
    try discriminate; try lia.
Qed.

Lemma ltb_trans (x y z : float) :
  (x <? y)%float = true -> (y <? z)%float = true -> (x <? z)%float = true.
Proof.
  rewrite !ltb_spec, !SFltb_Lt. apply SFcompare_Lt_trans.
Qed.

Lemma ltb_asym (x y : float) :
  (x <? y)%float = true -> (y <? x)%float = false.
Proof.
  rewrite !ltb_spec. intros H. apply SFltb_Lt in H.
  destruct (SFltb (Prim2SF y) (Prim2SF x)) eqn:E; [|reflexivity].
  apply SFltb_Lt in E. now apply SFcompare_Lt_asym in H.
Qed.

(** *** The interpolator returns, and what its iterations compute *)

Lemma mapM_defined {A B : Type} (f : A -> result B) (l : list A) :
  (forall x, In x l -> exists y, f x = Ok y) -> exists r, mapM f l = Ok r.
Proof.
  induction l as [|x l IH]; intros H; cbn [mapM]; [eauto|].
  destruct (H x (or_introl eq_refl)) as [y ->].
  destruct IH as [r ->]; [intros; apply H; now right|].
  cbn [bind]. eauto.
Qed.

Lemma nth_in_range (v : list Z) (j : nat) :
  channels_in_range v -> Z.abs (nth j v 0) <= 255.
Proof.
  intros (r & g & b & -> & Hr & Hg & Hb).
  destruct j as [|[|[|[|j]]]]; cbn [nth]; lia.
Qed.

Section InterpolatorFacts.
Variables (s f : list Z) (end_val : float) (n : Z).
Variables (start_opacity end_opacity : num) (exclude_end : bool) (delta : float).
Hypothesis s_range : channels_in_range s.
Hypothesis f_range : channels_in_range f.
Hypothesis steps_range : 1 <= (if exclude_end then n else n - 1) < 2 ^ 53.

Local Abbreviation step' := (step s f end_val n start_opacity end_opacity exclude_end delta).
Local Abbreviation stops_loop' :=
  (stops_loop s f end_val n start_opacity end_opacity exclude_end delta).

Lemma channel_defined t j :
  0 <= t < 2 ^ 53 -> exists c, channel s f n exclude_end t j = Ok c.
Proof.
  intros Ht. unfold channel.
  pose proof (nth_in_range s j s_range). pose proof (nth_in_range f j f_range).
  apply interpolation_defined; try lia; change (2 ^ 53) with 9007199254740992; lia.
Qed.

Lemma step_defined t sv :
  0 <= t < 2 ^ 53 -> exists st, step' t sv = Ok st.
Proof.
  intros Ht. unfold step.
  destruct (mapM_defined (channel s f n exclude_end t) [0; 1; 2]%nat) as [vec ->].
  { intros j _. now apply channel_defined. }
  cbn [bind]. eauto.
Qed.

Lemma stops_loop_defined fuel :
  forall t sv, 0 <= t -> t + Z.of_nat fuel <= 2 ^ 53 ->
  exists stops, stops_loop' fuel t sv = Ok stops.
Proof.
  induction fuel as [|k IH]; intros t sv Ht Hk; cbn [stops_loop]; [eauto|].
  destruct (step_defined t sv ltac:(lia)) as [st ->]. cbn [bind].
  destruct (IH (t + 1) (sv + delta)%float ltac:(lia) ltac:(lia)) as [rest ->].
  cbn [bind]. eauto.
Qed.
End InterpolatorFacts.

Lemma stops_loop_nth s f end_val n so eo ex delta fuel :
  forall t sv stops,
    stops_loop s f end_val n so eo ex delta fuel t sv = Ok stops ->
    List.length stops = fuel
    /\ forall i st, nth_error stops i = Some st ->
         step s f end_val n so eo ex delta (t + Z.of_nat i) (accumulate delta i sv) = Ok st.
Proof.
  induction fuel as [|k IH]; intros t sv stops H; cbn [stops_loop] in H.
  - injection H as <-. split; [reflexivity|]. intros [|i] st Hi; discriminate.
  - apply bind_Ok in H as (st0 & Hst & H).
    apply bind_Ok in H as (rest & Hrest & H). injection H as <-.
    apply IH in Hrest as [Hlen Hnth].
    split; [simpl; now rewrite Hlen|].
    intros [|i] st Hi; cbn [nth_error accumulate] in *.
    + injection Hi as <-. now rewrite Z.add_0_r.
    + apply Hnth in Hi. rewrite <- Hi. f_equal. lia.
Qed.

Lemma increments_defined sv ev n so eo ex :
  2 <= n ->
  increments sv ev n so eo ex
  = Ok (PrimFloat.div (ev - sv)%float (float_of_int (if ex then n else n - 1))).
Proof.
  intros Hn. unfold increments, num_truediv, truediv_int.
  replace (n - 1 =? 0) with false by (symmetry; apply Z.eqb_neq; lia).
  replace (n =? 0) with false by (symmetry; apply Z.eqb_neq; lia).
  destruct ex; reflexivity.
Qed.

(** A call with at least two bins and colours that [hex_to_RGB] reads
    returns one stop for each [t] in [range(0, n)], and the stop of
    iteration [t] is what the body computes at [t]. *)
Lemma segment_stops_spec sh fh (sv ev : float) (n : Z) so eo (ex : bool) s f :
  2 <= n < 2 ^ 53 -> hex_to_RGB sh = Ok s -> hex_to_RGB fh = Ok f ->
  let delta := PrimFloat.div (ev - sv)%float (float_of_int (if ex then n else n - 1)) in
  exists stops,
    segment_stops sh fh sv ev n so eo ex = Ok stops
    /\ Z.of_nat (List.length stops) = n
    /\ forall i st, nth_error stops i = Some st ->
         step s f ev n so eo ex delta (Z.of_nat i) (accumulate delta i sv) = Ok st.
Proof.
  intros Hn Hs Hf delta. unfold segment_stops.
  rewrite increments_defined by lia. cbn [bind]. rewrite Hs, Hf. cbn [bind].
  fold delta.
  assert (Hsteps : 1 <= (if ex then n else n - 1) < 2 ^ 53) by (destruct ex; lia).
  destruct (stops_loop_defined s f ev n so eo ex delta
              (hex_to_RGB_range _ _ Hs) (hex_to_RGB_range _ _ Hf)
              Hsteps (Z.to_nat n) 0 sv) as [stops Hstops]; [lia | lia |].
  exists stops. split; [exact Hstops|].
  apply stops_loop_nth in Hstops as [Hlen Hnth].
  split; [lia|]. intros i st Hi. apply Hnth in Hi. exact Hi.
Qed.

Lemma step_inv s f end_val n so eo ex delta t sv st :
  step s f end_val n so eo ex delta t sv = Ok st ->
  mapM (channel s f n ex t) [0; 1; 2]%nat = Ok (curr_vector st)
  /\ hex_color st = RGB_to_hex (curr_vector st)
  /\ opacity st = (if t =? 0 then so else if t =? n - 1 then eo else PyInt 1)
  /\ step_val st = sv
  /\ upper_bound st
     = (if t =? n - 2 then end_val
        else if (sv + delta <=? end_val)%float then (sv + delta)%float else end_val)
  /\ val_range st
     = strip (format_10_10f (step_val st)) ++ "," ++ strip (format_10_10f (upper_bound st))
  /\ stop_str st = strip (format_10_10f (sv + delta - delta)%float).
Proof.
  unfold step. intros H. apply bind_Ok in H as (vec & Hvec & H).
  injection H as <-. cbn. repeat split; auto.
Qed.

(** At [t = 0] the channel is the start channel itself. *)
Lemma int_of_float_of_int z :
  - 2 ^ 53 < z < 2 ^ 53 -> int_of_float (float_of_int z) = Ok z.
Proof.
  intros Hz. unfold int_of_float.
  assert (Hexact : forall y, 0 < y < 2 ^ 53 ->
            Z.pos (Z.to_pos (y * 2 ^ (53 - digits y))) / 2 ^ (- (digits y - 53)) = y
            /\ digits y - 53 <= 0).
  { intros y Hy.
    pose proof (digits_le y 53 ltac:(lia) ltac:(lia) ltac:(lia)).
    assert (0 < 2 ^ (53 - digits y)) by (apply Z.pow_pos_nonneg; lia).
    rewrite Z2Pos.id by nia.
    replace (- (digits y - 53)) with (53 - digits y) by lia.
    split; [apply Z.div_mul; lia | lia]. }
  destruct (Z.lt_trichotomy z 0) as [Hn | [-> | Hp]].
  - rewrite float_of_int_neg by lia.
    destruct (Hexact (- z) ltac:(lia)) as [He Hd].
    destruct (Z.leb_spec 0 (digits (- z) - 53)) as [H0|H0].
    + replace (digits (- z) - 53) with 0 in * by lia.
      change (- 0) with 0 in He. rewrite Z.pow_0_r, Z.div_1_r in He.
      rewrite Z.pow_0_r, Z.mul_1_r, He. f_equal. lia.
    + rewrite He. f_equal. lia.
  - reflexivity.
  - rewrite float_of_int_pos by lia.
    destruct (Hexact z ltac:(lia)) as [He Hd].
    destruct (Z.leb_spec 0 (digits z - 53)) as [H0|H0].
    + replace (digits z - 53) with 0 in * by lia.
      change (- 0) with 0 in He. rewrite Z.pow_0_r, Z.div_1_r in He.
      rewrite Z.pow_0_r, Z.mul_1_r, He. reflexivity.
    + rewrite He. reflexivity.
Qed.

Lemma first_channel_is_start a d steps :
  - 2 ^ 53 < a < 2 ^ 53 -> - 2 ^ 53 < d < 2 ^ 53 -> 1 <= steps < 2 ^ 53 ->
  int_of_float
    (float_of_int a + (float_of_int 0 / float_of_int steps) * float_of_int d)%float
  = Ok a.
Proof.
  intros Ha Hd Hs.
  rewrite <- (int_of_float_of_int a Ha).
  unfold int_of_float. rewrite add_spec, mul_spec, div_spec.
  rewrite float_of_int_zero, (float_of_int_pos steps) by lia.
  cbn [SF64div SFdiv xorb].
  assert (Hq : exists sq, SF64mul (S754_zero false) (Prim2SF (float_of_int d)) = S754_zero sq).
  { destruct (Z.lt_trichotomy d 0) as [Hn | [-> | Hp]].
    - rewrite float_of_int_neg by lia. eexists; reflexivity.
    - rewrite float_of_int_zero. eexists; reflexivity.
    - rewrite float_of_int_pos by lia. eexists; reflexivity. }
  destruct Hq as [sq ->].
  destruct (Z.lt_trichotomy a 0) as [Hn | [-> | Hp]].
  - rewrite float_of_int_neg by lia. reflexivity.
  - rewrite float_of_int_zero. destruct sq; reflexivity.
  - rewrite float_of_int_pos by lia. reflexivity.
Qed.

(** *** The channels of a stop *)

Lemma nth_nonneg (v : list Z) (j : nat) : channels_nonneg v -> 0 <= nth j v 0.
Proof.
  intros H. destruct (nth_in_or_default j v 0) as [Hin| ->]; [|lia].
  unfold channels_nonneg in H. rewrite Forall_forall in H. auto.
Qed.

Lemma channel_between s f n (ex : bool) t j :
  channels_in_range s -> channels_in_range f ->
  channels_nonneg s -> channels_nonneg f ->
  0 <= t <= (if ex then n else n - 1) -> 1 <= (if ex then n else n - 1) < 2 ^ 53 ->
  exists c,
    channel s f n ex t j = Ok c
    /\ between (nth j s 0) (nth j f 0) c
    /\ (t = (if ex then n else n - 1) -> c = nth j f 0).
Proof.
  intros Hs Hf Hs0 Hf0 Ht Hsteps. unfold channel, between.
  pose proof (nth_in_range s j Hs). pose proof (nth_in_range f j Hf).
  pose proof (nth_nonneg s j Hs0). pose proof (nth_nonneg f j Hf0).
  assert (255 < 2 ^ 50) by (change (2 ^ 50) with 1125899906842624; lia).
  apply interpolation_between; lia.
Qed.

(** *** The globals after a sequence of writes *)

Lemma dict_get_set d k v c :
  dict_get (dict_set d k v) c = if String.eqb k c then Some v else dict_get d c.
Proof.
  induction d as [|[k' v'] d IH]; simpl.
  - reflexivity.
  - destruct (String.eqb k' k) eqn:E; simpl.
    + apply String.eqb_eq in E. subst k'. destruct (String.eqb k c); reflexivity.
    + destruct (String.eqb k' c) eqn:E'.
      * apply String.eqb_eq in E'. subst k'.
        rewrite String.eqb_sym in E. now rewrite E.
      * exact IH.
Qed.

Lemma COLOR_VAL_MAP_writes G : forall g c,
  dict_get (COLOR_VAL_MAP (fold_left emit G g)) c
  = last_range_from c (dict_get (COLOR_VAL_MAP g) c) G.
Proof.
  induction G as [|st G IH]; intros g c; [reflexivity|].
  cbn [fold_left]. rewrite IH. cbn [emit COLOR_VAL_MAP]. rewrite dict_get_set.
  reflexivity.
Qed.

Lemma last_range_from_absent c G : forall acc,
  Forall (fun st => hex_color st <> c) G -> last_range_from c acc G = acc.
Proof.
  induction G as [|st G IH]; intros acc H; [reflexivity|].
  inversion H as [|? ? Hst HG]; subst.
  unfold last_range_from. cbn [fold_left]. fold (last_range_from c).
  apply String.eqb_neq in Hst. rewrite Hst. now apply IH.
Qed.

Lemma last_range_from_last c acc G1 st G2 :
  hex_color st = c -> Forall (fun st' => hex_color st' <> c) G2 ->
  last_range_from c acc (G1 ++ st :: G2) = Some (val_range st).
Proof.
  intros <- HG2. unfold last_range_from. rewrite fold_left_app. cbn [fold_left].
  rewrite String.eqb_refl.
  exact (last_range_from_absent (hex_color st) G2 (Some (val_range st)) HG2).
Qed.

Lemma CSS_COLOR_MAP_writes G : forall g,
  CSS_COLOR_MAP (fold_left emit G g)
  = (CSS_COLOR_MAP g ++ map (fun st => (hex_color st, stop_str st)) G)%list.
Proof.
  induction G as [|st G IH]; intros g; cbn [fold_left map].
  - now rewrite app_nil_r.
  - rewrite IH. cbn [emit CSS_COLOR_MAP]. now rewrite <- app_assoc.
Qed.

Lemma lut_string_writes G : forall g,
  lut_string (fold_left emit G g) = lut_string g ++ concat_strings (map lut_line G).
Proof.
  induction G as [|st G IH]; intros g; cbn [fold_left map concat_strings fold_right].
  - now rewrite append_nil_r.
  - rewrite IH. cbn [emit lut_string]. fold (concat_strings (map lut_line G)).
    unfold lut_line, alpha255, transparent. now rewrite !append_assoc.
Qed.

Lemma gibs_string_writes G : forall g,
  gibs_string (fold_left emit G g) = gibs_string g ++ concat_strings (map gibs_entry G).
Proof.
  induction G as [|st G IH]; intros g; cbn [fold_left map concat_strings fold_right].
  - now rewrite append_nil_r.
  - rewrite IH. cbn [emit gibs_string]. fold (concat_strings (map gibs_entry G)).
    unfold gibs_entry, transparent. now rewrite !append_assoc.
Qed.

(** Every stop has three channels. *)
Lemma stops_loop_vectors s f end_val n so eo ex delta fuel t sv stops :
  stops_loop s f end_val n so eo ex delta fuel t sv = Ok stops ->
  Forall (fun st => exists r g b, curr_vector st = [r; g; b]) stops.
Proof.
  intros H. apply stops_loop_nth in H as [_ Hnth].
  apply Forall_forall. intros st Hin.
  apply In_nth_error in Hin as [i Hi]. apply Hnth in Hi.
  apply step_inv in Hi as (Hm & _). apply mapM_length in Hm.
  destruct (curr_vector st) as [|r [|g [|b [|? ?]]]]; try discriminate. eauto.
Qed.

Lemma segment_stops_vectors sh fh sv ev n so eo ex stops :
  segment_stops sh fh sv ev n so eo ex = Ok stops ->
  Forall (fun st => exists r g b, curr_vector st = [r; g; b]) stops.
Proof.
  unfold segment_stops. intros H.
  apply bind_Ok in H as (delta & _ & H).
  apply bind_Ok in H as (s & _ & H).
  apply bind_Ok in H as (f & _ & H).
  eapply stops_loop_vectors; eauto.
Qed.

Lemma groups_stops_vectors ng bpg lines : forall i rem G,
  groups_stops ng bpg i lines rem = Ok G ->
  Forall (fun st => exists r g b, curr_vector st = [r; g; b]) G.
Proof.
  induction lines as [|a lines IH]; intros i rem G H.
  - injection H as <-. constructor.
  - destruct lines as [|b lines]; [injection H as <-; constructor|].
    rewrite groups_stops_cons in H.
    apply bind_Ok in H as (here & Hhere & H).
    apply bind_Ok in H as (rest & Hrest & H). injection H as <-.
    apply Forall_app. split; [eapply segment_stops_vectors; eauto | eapply IH; eauto].
Qed.

Lemma gradient_vectors lines G :
  gradient lines = Ok G ->
  Forall (fun st => exists r g b, curr_vector st = [r; g; b]) G.
Proof.
  unfold gradient. intros H. apply bind_Ok in H as (bpg & _ & H).
  eapply groups_stops_vectors; eauto.
Qed.

Lemma run_globals_Ok lines g :
  run_globals lines = Ok g ->
  exists G, gradient lines = Ok G
    /\ g = finish_geoserver_string
             (fold_left emit G (start_geoserver_string initial_globals)).
Proof.
  rewrite run_globals_gradient. intros H. apply bind_Ok in H as (G & HG & H).
  injection H as <-. eauto.
Qed.

Lemma dict_set_keys d k v :
  map fst (dict_set d k v)
  = if existsb (String.eqb k) (map fst d) then map fst d else (map fst d ++ [k])%list.
Proof.
  induction d as [|[k' v'] d IH]; cbn [dict_set map fst existsb]; [reflexivity|].
  rewrite (String.eqb_sym k k').
  destruct (String.eqb k' k); cbn [map fst orb]; [reflexivity|].
  rewrite IH. destruct (existsb (String.eqb k) (map fst d)); reflexivity.
Qed.

Lemma dict_set_NoDup d k v : NoDup (map fst d) -> NoDup (map fst (dict_set d k v)).
Proof.
  intros H. rewrite dict_set_keys.
  destruct (existsb (String.eqb k) (map fst d)) eqn:E; [exact H|].
  apply NoDup_app; [exact H | repeat constructor; intros [] |].
  intros x Hx [Hk|[]]. subst x.
  assert (existsb (String.eqb k) (map fst d) = true); [|congruence].
  apply existsb_exists. exists k. split; [exact Hx | apply String.eqb_refl].
Qed.

Lemma COLOR_VAL_MAP_NoDup G : forall g,
  NoDup (map fst (COLOR_VAL_MAP g)) ->
  NoDup (map fst (COLOR_VAL_MAP (fold_left emit G g))).
Proof.
  induction G as [|st G IH]; intros g H; cbn [fold_left]; [exact H|].
  apply IH. cbn [emit COLOR_VAL_MAP]. now apply dict_set_NoDup.
Qed.

(** *** Sorting *)

Lemma insert_line_perm x l : Permutation (x :: l) (insert_line x l).
Proof.
  induction l as [|y l IH]; cbn [insert_line]; [reflexivity|].
  destruct (value y <? value x)%float; [|reflexivity].
  rewrite perm_swap. now apply perm_skip.
Qed.

Lemma sorted_perm l : Permutation l (sorted l).
Proof.
  induction l as [|x l IH]; cbn [sorted fold_right]; [reflexivity|].
  rewrite <- insert_line_perm. now apply perm_skip.
Qed.

Lemma distinct_values_perm l l' :
  Permutation l l' -> distinct_values l -> distinct_values l'.
Proof.
  unfold distinct_values. induction 1 as [|x l l' Hp IH|x y l|l l' l'' _ IH1 _ IH2];
    intros H.
  - constructor.
  - inversion H as [|? ? Hx Hl]; subst. constructor; [|auto].
    eapply Permutation_Forall; eauto.
  - inversion H as [|? ? Hy Hl]; subst. inversion Hl as [|? ? Hx Hl']; subst.
    inversion Hy as [|? ? Hyx Hy']; subst.
    constructor; [constructor; [tauto | exact Hx]|].
    constructor; [exact Hy' | exact Hl'].
  - auto.
Qed.

Lemma insert_line_sorted x l :
  Forall (fun y => before x y \/ before y x) l ->
  StronglySorted before l -> StronglySorted before (insert_line x l).
Proof.
  induction l as [|y l IH]; intros Hx Hl; cbn [insert_line].
  - constructor; constructor.
  - inversion Hx as [|? ? Hxy Hx']; subst. inversion Hl as [|? ? Hl' Hy]; subst.
    destruct (value y <? value x)%float eqn:E.
    + constructor; [auto|].
      eapply Permutation_Forall; [apply insert_line_perm|].
      constructor; [exact E | exact Hy].
    + assert (Hb : before x y) by (destruct Hxy as [H|H]; [exact H | unfold before in H; congruence]).
      constructor; [exact Hl|]. constructor; [exact Hb|].
      eapply Forall_impl; [|exact Hy]. intros z Hz. unfold before in *.
      eapply ltb_trans; eauto.
Qed.

Lemma sorted_sorted l : distinct_values l -> StronglySorted before (sorted l).
Proof.
  induction l as [|x l IH]; intros H; cbn [sorted fold_right].
  - constructor.
  - inversion H as [|? ? Hx Hl]; subst. apply insert_line_sorted; [|auto].
    eapply Permutation_Forall; [apply sorted_perm | exact Hx].
Qed.

(** Two strictly increasing arrangements of the same lines are equal. *)
Lemma sorted_unique l1 : forall l2,
  StronglySorted before l1 -> StronglySorted before l2 -> Permutation l1 l2 ->
  l1 = l2.
Proof.
  induction l1 as [|a l1 IH]; intros l2 H1 H2 Hp.
  - apply Permutation_nil in Hp. now subst.
  - destruct l2 as [|b l2]; [apply Permutation_sym, Permutation_nil in Hp; discriminate|].
    inversion H1 as [|? ? H1' Ha]; subst. inversion H2 as [|? ? H2' Hb]; subst.
    assert (Hab : a = b).
    { assert (Hina : In a (b :: l2)) by (eapply Permutation_in; [exact Hp | now left]).
      assert (Hinb : In b (a :: l1))
        by (eapply Permutation_in; [apply Permutation_sym; exact Hp | now left]).
      destruct Hina as [->|Hina]; [reflexivity|].
      destruct Hinb as [->|Hinb]; [reflexivity|].
      rewrite Forall_forall in Ha, Hb.
      pose proof (Ha _ Hinb) as Hlt1. pose proof (Hb _ Hina) as Hlt2.
      unfold before in *. apply ltb_asym in Hlt1. congruence. }
    subst b. f_equal. apply IH; auto. eapply Permutation_cons_inv; eauto.
Qed.

Lemma sorted_ignores_order l l' :
  Permutation l l' -> distinct_values l -> sorted l' = sorted l.
Proof.
  intros Hp Hd. apply sorted_unique.
  - apply sorted_sorted. eapply distinct_values_perm; eauto.
  - now apply sorted_sorted.
  - rewrite <- (sorted_perm l'), <- (sorted_perm l). now apply Permutation_sym.
Qed.

(** *** The run hands the allocated bins to the groups *)

Lemma sorted_length l : List.length (sorted l) = List.length l.
Proof. apply Permutation_length, Permutation_sym, sorted_perm. Qed.

Lemma gradient_uses_allocation lines :
  let num_groups := Z.of_nat (List.length lines) - 1 in
  gradient lines
  = (ns <- allocate num_groups MAX_NUM_COLORS ;;
     groups_with num_groups 0 (sorted lines) ns).
Proof.
  intros num_groups. unfold gradient, allocate. rewrite sorted_length. fold num_groups.
  destruct (ceil_div MAX_NUM_COLORS num_groups) as [bpg|e]; cbn [bind]; [|reflexivity].
  rewrite groups_stops_bins, sorted_length. do 2 f_equal. unfold num_groups. lia.
Qed.

Lemma segment_stops_length sh fh sv ev n so eo ex stops :
  segment_stops sh fh sv ev n so eo ex = Ok stops -> List.length stops = Z.to_nat n.
Proof.
  unfold segment_stops. intros H.
  apply bind_Ok in H as (delta & _ & H).
  apply bind_Ok in H as (s & _ & H).
  apply bind_Ok in H as (f & _ & H).
  now apply stops_loop_nth in H as [H _].
Qed.

Lemma groups_with_length ng lines : forall i ns G,
  groups_with ng i lines ns = Ok G ->
  List.length ns = (List.length lines - 1)%nat ->
  Forall (fun b => 0 <= b) ns ->
  Z.of_nat (List.length G) = sum_bins ns.
Proof.
  induction lines as [|a lines IH]; intros i ns G H Hlen Hpos.
  - destruct ns; [|discriminate]. injection H as <-. reflexivity.
  - destruct lines as [|b lines].
    + destruct ns; [|discriminate]. injection H as <-. reflexivity.
    + destruct ns as [|k ns]; [discriminate|].
      cbn [groups_with] in H.
      apply bind_Ok in H as (here & Hhere & H).
      apply bind_Ok in H as (rest & Hrest & H). injection H as <-.
      inversion Hpos as [|? ? Hk Hns]; subst.
      apply segment_stops_length in Hhere.
      apply IH in Hrest; [|simpl in *; lia | exact Hns].
      rewrite length_app, Nat2Z.inj_add, Hrest, Hhere.
      cbn [sum_bins fold_right]. fold (sum_bins ns). lia.
Qed.

Lemma bins_nonneg bpg k : 0 <= bpg -> forall rem, 0 <= rem ->
  Forall (fun b => 0 <= b) (bins bpg k rem).
Proof.
  intros Hb. induction k as [|k IH]; intros rem Hr; cbn [bins]; constructor.
  - unfold num_bins_of. destruct (bpg * 2 <=? rem); lia.
  - apply IH. unfold num_bins_of. destruct (Z.leb_spec (bpg * 2) rem); lia.
Qed.

(** When the run gets through a file of two lines or more, the gradient
    has as many stops as the budget allows: 255. *)
Lemma gradient_length lines G :
  (2 <= List.length lines)%nat -> gradient lines = Ok G ->
  Z.of_nat (List.length G) = MAX_NUM_COLORS.
Proof.
  intros Hk H. rewrite gradient_uses_allocation in H.
  unfold allocate, ceil_div in H.
  replace (Z.of_nat (List.length lines) - 1 =? 0) with false in H
    by (symmetry; apply Z.eqb_neq; lia).
  cbn [bind] in H.
  destruct (ceil_div_covers MAX_NUM_COLORS (Z.of_nat (List.length lines) - 1))
    as [H0 Hcov]; [lia | unfold MAX_NUM_COLORS; lia |].
  apply groups_with_length in H.
  - rewrite H. apply bins_sum; [exact H0|].
    rewrite Z2Nat.id by lia. unfold MAX_NUM_COLORS in *. lia.
  - rewrite bins_length, sorted_length. lia.
  - apply bins_nonneg; [exact H0 | unfold MAX_NUM_COLORS; lia].
Qed.

(** ** The properties of the specification *)

(** *** C1: the stops of the gradient *)

(** C1 at three lines: the two groups get 255 bins and none, so the
    gradient has 255 stops that all lie in the first group: no range
    reaches beyond 5, the value of the second line, while the last line
    is at 10; and the ranges of the last two stops overlap, the stop of
    step 253 ending at 5 where the stop of step 254 starts below 5. *)
Lemma gradient_of_three_lines_stops_at_the_second :
  allocate 2 MAX_NUM_COLORS = Ok [255; 0]
  /\ exists G,
       gradient three_lines = Ok G
       /\ List.length G = 255%nat
       /\ forallb (fun st => (upper_bound st <=? 5)%float) G = true
       /\ map val_range (skipn 253 G)
          = ["4.9607843137,5.0000000000"; "4.9803921569,5.0000000000"].
Proof.
  split; [reflexivity|].
  exists (match gradient three_lines with Ok G => G | Raise _ => [] end).
  repeat split; vm_compute; reflexivity.
Qed.

(** With 22 lines the bins run out three groups before the end, and a
    group that is not the last is handed no bin: the run raises. *)
Lemma twenty_two_lines_raise :
  allocate 21 MAX_NUM_COLORS
  = Ok [13; 13; 13; 13; 13; 13; 13; 13; 13; 13; 13; 13; 13; 13; 13; 13; 13; 13; 21; 0; 0]
  /\ gradient (ramp 22) = Raise ZeroDivisionError
  /\ run (ramp 22) = Raise ZeroDivisionError.
Proof. repeat split; vm_compute; reflexivity. Qed.

(** *** C2: the bin allocation *)

(** C2 at three lines, that is two groups under the budget of 255: the
    loop hands the first group every bin and the second none, where
    every group is to get one bin at least, or the allocation to fail.
    Nothing fails: these are the bins with which the run calls the
    groups, and the run returns. *)
Lemma allocate_two_groups_leaves_one_empty :
  exists l,
    allocate 2 MAX_NUM_COLORS = Ok l /\ 2 <= MAX_NUM_COLORS
    /\ ~ Forall (fun b => 1 <= b) l
    /\ gradient three_lines = groups_with 2 0 (sorted three_lines) l
    /\ exists o, run three_lines = Ok o.
Proof.
  exists [255; 0]. split; [reflexivity|]. split; [unfold MAX_NUM_COLORS; lia|].
  split; [|split].
  - intros H. inversion H as [|? ? _ H']; subst.
    inversion H' as [|? ? H0 _]; subst. lia.
  - exact (gradient_uses_allocation three_lines).
  - destruct (run three_lines) as [o|e] eqn:E; [now exists o|].
    vm_compute in E. discriminate.
Qed.

(** What the bins do keep: for at least one group and a budget that is
    not negative there is one entry for each group and the entries sum
    to the budget exactly; when the number of groups divides the budget
    every entry is their quotient, hence at least 1 for a positive
    budget. *)
Lemma allocate_exhausts_budget (num_groups budget : Z) :
  1 <= num_groups -> 0 <= budget ->
  exists l,
    allocate num_groups budget = Ok l
    /\ Z.of_nat (List.length l) = num_groups
    /\ sum_bins l = budget
    /\ (forall q, budget = num_groups * q -> l = repeat q (Z.to_nat num_groups))
    /\ ((num_groups | budget) -> 1 <= budget -> Forall (fun b => 1 <= b) l).
Proof.
  intros Hg Hb. unfold allocate, ceil_div.
  replace (num_groups =? 0) with false by (symmetry; apply Z.eqb_neq; lia).
  cbn [bind]. eexists. split; [reflexivity|].
  destruct (ceil_div_covers budget num_groups Hg Hb) as [H0 Hcov].
  assert (Heven : forall q, budget = num_groups * q ->
            bins (- (- budget / num_groups)) (Z.to_nat num_groups) budget
            = repeat q (Z.to_nat num_groups)).
  { intros q Hq.
    assert (Hc : - (- budget / num_groups) = q).
    { subst budget. replace (- (num_groups * q)) with ((- q) * num_groups) by ring.
      rewrite Z.div_mul by lia. lia. }
    rewrite Hc. rewrite <- bins_even_share by nia. f_equal. subst budget.
    rewrite Z2Nat.id by lia. reflexivity. }
  split; [rewrite bins_length; lia|].
  split; [apply bins_sum; [exact H0 | rewrite Z2Nat.id by lia; lia]|].
  split; [exact Heven|].
  intros [q Hq] Hpos. rewrite (Heven q) by lia.
  apply Forall_forall. intros b Hin. apply repeat_spec in Hin. nia.
Qed.

(** *** C3: the channels of a stop *)

(** C3, as stated, fails twice.  With three bins from [#000000] to
    [#050000], end excluded, the red channel at [t = 1] is 1, where the
    nearest integer to [0 + (1/3) * 5] is 2; and a call with one bin and
    the end included raises instead of returning the start colour. *)
Lemma channel_truncates_and_one_bin_raises :
  (exists stops st,
      segment_stops "#000000" "#050000" 0 1 3 (PyInt 1) (PyInt 1) true = Ok stops
      /\ nth_error stops 1 = Some st
      /\ curr_vector st = [1; 0; 0]
      /\ rounded_channel 0 5 1 3 = 2)
  /\ segment_stops "#000000" "#050000" 0 1 1 (PyInt 1) (PyInt 1) false
     = Raise ZeroDivisionError.
Proof.
  split; [|reflexivity].
  destruct (segment_stops "#000000" "#050000" 0 1 3 (PyInt 1) (PyInt 1) true)
    as [stops|] eqn:E; vm_compute in E; [|discriminate].
  injection E as <-. eexists. eexists.
  split; [reflexivity|]. split; [reflexivity|]. split; reflexivity.
Qed.

(** C3, amended: in a call with at least two bins whose colours
    [hex_to_RGB] reads, the stop of step [t] has three channels, each
    the binary64 number [s[j] + (float(t)/steps) * (f[j] - s[j])] cut
    toward zero by [int] (not rounded to the nearest integer), with
    [steps = n] when the end is excluded and [n - 1] when it is
    included, and its colour is [RGB_to_hex] of them.  When no channel
    of the two colours is negative, each channel of the stop lies
    between the start channel and the end channel, hence in 0..255; the
    stop of step 0 has the start colour itself and, when the end is
    included, the stop of step [n - 1] has the end colour.  A call with
    one bin and the end included raises ZeroDivisionError. *)
Theorem channels_are_truncated_interpolation
    sh fh (sv ev : float) (n : Z) so eo (ex : bool) s f :
  2 <= n < 2 ^ 53 -> hex_to_RGB sh = Ok s -> hex_to_RGB fh = Ok f ->
  (exists stops,
      segment_stops sh fh sv ev n so eo ex = Ok stops
      /\ Z.of_nat (List.length stops) = n
      /\ (forall t st, nth_error stops t = Some st ->
            exists r g b,
              curr_vector st = [r; g; b]
              /\ hex_color st = RGB_to_hex [r; g; b]
              /\ channel s f n ex (Z.of_nat t) 0 = Ok r
              /\ channel s f n ex (Z.of_nat t) 1 = Ok g
              /\ channel s f n ex (Z.of_nat t) 2 = Ok b
              /\ (channels_nonneg s -> channels_nonneg f ->
                    between (nth 0 s 0) (nth 0 f 0) r
                    /\ between (nth 1 s 0) (nth 1 f 0) g
                    /\ between (nth 2 s 0) (nth 2 f 0) b
                    /\ 0 <= r <= 255 /\ 0 <= g <= 255 /\ 0 <= b <= 255))
      /\ (forall st, nth_error stops 0 = Some st -> curr_vector st = s)
      /\ (ex = false -> channels_nonneg s -> channels_nonneg f ->
            forall st, nth_error stops (Z.to_nat (n - 1)) = Some st ->
                       curr_vector st = f))
  /\ segment_stops sh fh sv ev 1 so eo false = Raise ZeroDivisionError.
Proof.
  intros Hn Hs Hf. split; [|reflexivity].
  destruct (segment_stops_spec sh fh sv ev n so eo ex s f Hn Hs Hf)
    as (stops & Hstops & Hlen & Hnth).
  pose proof (hex_to_RGB_range _ _ Hs) as Rs.
  pose proof (hex_to_RGB_range _ _ Hf) as Rf.
  assert (Hsteps : 1 <= (if ex then n else n - 1) < 2 ^ 53) by (destruct ex; lia).
  exists stops. split; [exact Hstops|]. split; [exact Hlen|].
  assert (Hvec : forall t st, nth_error stops t = Some st ->
            exists r g b,
              curr_vector st = [r; g; b]
              /\ hex_color st = RGB_to_hex [r; g; b]
              /\ channel s f n ex (Z.of_nat t) 0 = Ok r
              /\ channel s f n ex (Z.of_nat t) 1 = Ok g
              /\ channel s f n ex (Z.of_nat t) 2 = Ok b).
  { intros t st Ht. apply Hnth in Ht. apply step_inv in Ht as (Hm & Hc & _).
    cbn [mapM] in Hm.
    apply bind_Ok in Hm as (r & Hr & Hm).
    apply bind_Ok in Hm as (l1 & H1 & Hm).
    apply bind_Ok in H1 as (g & Hg & H1).
    apply bind_Ok in H1 as (l2 & H2 & H1).
    apply bind_Ok in H2 as (b & Hb & H2).
    apply bind_Ok in H2 as (l3 & H3 & H2).
    injection H3 as <-. injection H2 as <-. injection H1 as <-. injection Hm as Hm.
    exists r, g, b. rewrite Hc, <- Hm. auto. }
  assert (Hbetween : forall t j c, (t < List.length stops)%nat ->
            channels_nonneg s -> channels_nonneg f ->
            channel s f n ex (Z.of_nat t) j = Ok c ->
            between (nth j s 0) (nth j f 0) c
            /\ (Z.of_nat t = (if ex then n else n - 1) -> c = nth j f 0)).
  { intros t j c Ht Hs0 Hf0 Hc.
    destruct (channel_between s f n ex (Z.of_nat t) j Rs Rf Hs0 Hf0) as (c' & Hc' & Hb & He);
      [destruct ex; lia | exact Hsteps |].
    rewrite Hc in Hc'. injection Hc' as <-. auto. }
  split; [|split].
  - intros t st Ht. destruct (Hvec t st Ht) as (r & g & b & Hv & Hc & Hr & Hg & Hb).
    exists r, g, b. repeat (split; [assumption|]).
    intros Hs0 Hf0.
    assert (Hlt : (t < List.length stops)%nat)
      by (apply nth_error_Some; rewrite Ht; discriminate).
    destruct (Hbetween t 0%nat r Hlt Hs0 Hf0 Hr) as [B0 _].
    destruct (Hbetween t 1%nat g Hlt Hs0 Hf0 Hg) as [B1 _].
    destruct (Hbetween t 2%nat b Hlt Hs0 Hf0 Hb) as [B2 _].
    repeat (split; [assumption|]).
    pose proof (nth_in_range s 0 Rs). pose proof (nth_in_range s 1 Rs).
    pose proof (nth_in_range s 2 Rs). pose proof (nth_in_range f 0 Rf).
    pose proof (nth_in_range f 1 Rf). pose proof (nth_in_range f 2 Rf).
    pose proof (nth_nonneg s 0 Hs0). pose proof (nth_nonneg s 1 Hs0).
    pose proof (nth_nonneg s 2 Hs0). pose proof (nth_nonneg f 0 Hf0).
    pose proof (nth_nonneg f 1 Hf0). pose proof (nth_nonneg f 2 Hf0).
    unfold between in *. lia.
  - intros st H0. destruct (Hvec 0%nat st H0) as (r & g & b & Hv & _ & Hr & Hg & Hb).
    rewrite Hv.
    destruct Rs as (r0 & g0 & b0 & -> & Hr0 & Hg0 & Hb0).
    destruct Rf as (r1 & g1 & b1 & -> & Hr1 & Hg1 & Hb1).
    unfold channel in Hr, Hg, Hb. cbn [nth Z.of_nat] in Hr, Hg, Hb.
    change (2 ^ 53) with 9007199254740992 in *.
    rewrite first_channel_is_start in Hr, Hg, Hb
      by (change (2 ^ 53) with 9007199254740992; lia).
    congruence.
  - intros -> Hs0 Hf0 st Hl.
    destruct (Hvec _ st Hl) as (r & g & b & Hv & _ & Hr & Hg & Hb).
    assert (Hlt : (Z.to_nat (n - 1) < List.length stops)%nat)
      by (apply nth_error_Some; rewrite Hl; discriminate).
    destruct (Hbetween _ 0%nat r Hlt Hs0 Hf0 Hr) as [_ E0].
    destruct (Hbetween _ 1%nat g Hlt Hs0 Hf0 Hg) as [_ E1].
    destruct (Hbetween _ 2%nat b Hlt Hs0 Hf0 Hb) as [_ E2].
    rewrite Z2Nat.id in E0, E1, E2 by lia.
    rewrite Hv, (E0 eq_refl), (E1 eq_refl), (E2 eq_refl).
    destruct Rf as (r1 & g1 & b1 & -> & _). reflexivity.
Qed.

Lemma channels_are_truncated_interpolation_witness :
  exists stops,
    segment_stops "#000000" "#050000" 0 1 3 (PyInt 1) (PyInt 1) true = Ok stops
    /\ Z.of_nat (List.length stops) = 3.
Proof.
  destruct (channels_are_truncated_interpolation
              "#000000" "#050000" 0 1 3 (PyInt 1) (PyInt 1) true [0; 0; 0] [5; 0; 0])
    as [(stops & H1 & H2 & _) _];
    [change (2 ^ 53) with 9007199254740992; lia | reflexivity | reflexivity |].
  exists stops. auto.
Defined.

(** *** C4: the range ends *)

(** The boundary correction: in a call with at least two bins the stop
    of step [n - 2] has its range end at [end_val] itself. *)
Lemma second_to_last_range_ends_at_end_val
    sh fh (sv ev : float) (n : Z) so eo (ex : bool) s f :
  2 <= n < 2 ^ 53 -> hex_to_RGB sh = Ok s -> hex_to_RGB fh = Ok f ->
  exists stops st,
    segment_stops sh fh sv ev n so eo ex = Ok stops
    /\ nth_error stops (Z.to_nat (n - 2)) = Some st
    /\ upper_bound st = ev
    /\ val_range st
       = strip (format_10_10f (step_val st)) ++ "," ++ strip (format_10_10f ev).
Proof.
  intros Hn Hs Hf.
  destruct (segment_stops_spec sh fh sv ev n so eo ex s f Hn Hs Hf)
    as (stops & Hstops & Hlen & Hnth).
  destruct (nth_error stops (Z.to_nat (n - 2))) as [st|] eqn:E.
  - exists stops, st. split; [exact Hstops|]. split; [exact E|].
    apply Hnth in E. apply step_inv in E as (_ & _ & _ & _ & Hub & Hvr & _).
    rewrite Z2Nat.id, Z.eqb_refl in Hub by lia.
    split; [exact Hub|]. rewrite Hvr, Hub. reflexivity.
  - apply nth_error_None in E. lia.
Qed.

(** C4 at three lines: the last stop of the gradient has its range end
    just below 5, the value of the second line, and prints it as 5,
    where the last line is at 10. *)
Lemma final_stop_of_three_lines_ends_at_the_second :
  exists G st,
    gradient three_lines = Ok G
    /\ nth_error G 254 = Some st /\ List.length G = 255%nat
    /\ (upper_bound st <? 5)%float = true
    /\ val_range st = "4.9803921569,5.0000000000"
    /\ strip (format_10_10f 10) = "10.0000000000".
Proof.
  exists (match gradient three_lines with Ok G => G | Raise _ => [] end).
  exists (nth 254 (match gradient three_lines with Ok G => G | Raise _ => [] end)
            (Stop "" [] (PyInt 0) 0 0 "" "")).
  repeat split; vm_compute; reflexivity.
Qed.

(** *** C5: the opacity of a stop *)



(** *** C6: fewer than two lines *)

(** C6, as stated, fails: with no line at all the run does not fail; it
    writes the outputs of an empty gradient. *)
Lemma run_without_lines_returns :
  exists o, run [] = Ok o /\ out_stops o = "[]" /\ out_ranges o = "{}" /\ out_LUT o = "".
Proof. eexists. repeat split. Qed.

(** C6, amended: there is no error of its own for a short input.  With
    one line the run raises ZeroDivisionError while it prepares the
    bins, before any stop is computed or anything is written; with no
    line it returns the outputs of the empty gradient. *)
Theorem fewer_than_two_lines :
  (forall l, gradient [l] = Raise ZeroDivisionError /\ run [l] = Raise ZeroDivisionError)
  /\ gradient [] = Ok []
  /\ run [] = Ok (write_outputs
                    (finish_geoserver_string (start_geoserver_string initial_globals))).
Proof. repeat split. Qed.

(** *** C7: the colour-to-range dictionary *)

(** C7: when the run returns, the list of stops keeps every stop of the
    gradient, the dictionary has each key once, and the key of a colour
    holds the range of the last stop of that colour in the order of
    assembly; a colour of no stop is not a key. *)
Theorem range_map_keeps_last_write lines g :
  run_globals lines = Ok g ->
  exists G,
    gradient lines = Ok G
    /\ CSS_COLOR_MAP g = map (fun st => (hex_color st, stop_str st)) G
    /\ NoDup (map fst (COLOR_VAL_MAP g))
    /\ (forall G1 st G2,
          G = (G1 ++ st :: G2)%list ->
          Forall (fun st' => hex_color st' <> hex_color st) G2 ->
          dict_get (COLOR_VAL_MAP g) (hex_color st) = Some (val_range st))
    /\ (forall c, Forall (fun st => hex_color st <> c) G ->
          dict_get (COLOR_VAL_MAP g) c = None).
Proof.
  intros H. apply run_globals_Ok in H as (G & HG & ->).
  exists G. split; [exact HG|].
  cbn [finish_geoserver_string CSS_COLOR_MAP COLOR_VAL_MAP].
  split; [now rewrite CSS_COLOR_MAP_writes|].
  split; [apply COLOR_VAL_MAP_NoDup; constructor|].
  split.
  - intros G1 st G2 -> Hlast. rewrite COLOR_VAL_MAP_writes.
    now apply last_range_from_last.
  - intros c Hc. rewrite COLOR_VAL_MAP_writes. now rewrite last_range_from_absent.
Qed.


Lemma range_map_keeps_last_write_witness :
  match run_globals two_lines with
  | Ok g => exists G, gradient two_lines = Ok G
                      /\ CSS_COLOR_MAP g = map (fun st => (hex_color st, stop_str st)) G
  | Raise _ => False
  end.
Proof.
  destruct (run_globals two_lines) as [g|e] eqn:E.
  - destruct (range_map_keeps_last_write two_lines g E) as (G & H1 & H2 & _).
    exists G. auto.
  - vm_compute in E. discriminate.
Defined.

(** *** C8: the GDAL and GIBS encoders *)

(** C8: when the run returns, the GDAL LUT is one line for each stop of
    the gradient and the GIBS colour map one entry for each stop between
    its header and its closing tag, both in the order of assembly; a
    LUT line is the stop, the three channels and an alpha that is 0
    when the stop's opacity is equal to zero and 255 otherwise, and the
    GIBS entry is marked transparent in exactly the same case. *)
Theorem lut_and_gibs_follow_the_stops lines o :
  run lines = Ok o ->
  exists G,
    gradient lines = Ok G
    /\ out_LUT o = concat_strings (map lut_line G)
    /\ out_gibs o = gibs_header ++ concat_strings (map gibs_entry G) ++ "</ColorMap>"
    /\ Forall
         (fun st =>
            exists r g b,
              curr_vector st = [r; g; b]
              /\ lut_line st
                 = stop_str st ++ " " ++ str_int r ++ " " ++ str_int g ++ " "
                     ++ str_int b ++ " " ++ alpha255 st ++ nl
              /\ gibs_entry st
                 = tab ++ "<ColorMapEntry rgb="
                     ++ quoted (str_int r ++ "," ++ str_int g ++ "," ++ str_int b)
                     ++ " transparent="
                     ++ quoted (if PrimFloat.eqb (to_float (opacity st)) 0%float
                                then "true" else "false")
                     ++ " label=" ++ quoted (stop_str st) ++ "/>" ++ nl
              /\ alpha255 st
                 = (if PrimFloat.eqb (to_float (opacity st)) 0%float then "0" else "255"))
         G.
Proof.
  unfold run. intros H. apply bind_Ok in H as (g & Hg & H). injection H as <-.
  apply run_globals_Ok in Hg as (G & HG & ->). exists G.
  split; [exact HG|].
  cbn [write_outputs out_LUT out_gibs finish_geoserver_string lut_string gibs_string].
  split; [rewrite lut_string_writes; reflexivity|].
  split; [rewrite gibs_string_writes, append_assoc; reflexivity|].
  eapply Forall_impl; [|exact (gradient_vectors _ _ HG)].
  intros st (r & gg & b & Hv). exists r, gg, b.
  split; [exact Hv|]. unfold lut_line, gibs_entry. rewrite Hv. cbn [map join].
  repeat split; now rewrite ?append_assoc.
Qed.

Lemma lut_and_gibs_follow_the_stops_witness :
  match run two_lines with
  | Ok o => exists G, gradient two_lines = Ok G
                      /\ out_LUT o = concat_strings (map lut_line G)
  | Raise _ => False
  end.
Proof.
  destruct (run two_lines) as [o|e] eqn:E.
  - destruct (lut_and_gibs_follow_the_stops two_lines o E) as (G & H1 & H2 & _).
    exists G. auto.
  - vm_compute in E. discriminate.
Defined.

(** *** C9: the order of the input lines *)

(** C9: the lines are sorted by value before anything else, so for
    lines whose values are pairwise distinct the run works on the one
    increasing arrangement of them, and every rearrangement of the
    input gives the same result: the same six outputs, or the same
    exception. *)
Theorem run_ignores_line_order lines lines' :
  Permutation lines lines' -> distinct_values lines ->
  StronglySorted before (sorted lines)
  /\ Permutation lines (sorted lines)
  /\ run lines' = run lines
  /\ gradient lines' = gradient lines.
Proof.
  intros Hp Hd.
  split; [now apply sorted_sorted|]. split; [apply sorted_perm|].
  unfold run, run_globals, gradient.
  rewrite (sorted_ignores_order lines lines' Hp Hd). split; reflexivity.
Qed.

Lemma run_ignores_line_order_witness :
  run (rev two_lines) = run two_lines.
Proof.
  apply (run_ignores_line_order two_lines (rev two_lines)).
  - apply Permutation_rev.
  - repeat constructor.
Defined.

(** *** C10: colours as text *)

(** C10: for channels in 0..255, [RGB_to_hex] returns [#] and six
    lower-case hexadecimal digits, a channel below 16 starting with
    [0], and [hex_to_RGB] reads the channels back. *)
Theorem RGB_to_hex_round_trip (r g b : Z) :
  0 <= r <= 255 -> 0 <= g <= 255 -> 0 <= b <= 255 ->
  (exists c1 c2 c3 c4 c5 c6,
      RGB_to_hex [r; g; b]
      = String "#" (String c1 (String c2 (String c3 (String c4
          (String c5 (String c6 EmptyString))))))
      /\ forallb is_lower_hex [c1; c2; c3; c4; c5; c6] = true
      /\ (r < 16 -> c1 = "0"%char) /\ (g < 16 -> c3 = "0"%char)
      /\ (b < 16 -> c5 = "0"%char))
  /\ hex_to_RGB (RGB_to_hex [r; g; b]) = Ok [r; g; b].
Proof.
  intros Hr Hg Hb.
  assert (Hpad : forall v c1 c2, two_hex v = String c1 (String c2 EmptyString) ->
                   v < 16 -> c1 = "0"%char).
  { intros v c1 c2 H Hv. unfold two_hex in H.
    replace (v <? 16) with true in H by (symmetry; apply Z.ltb_lt; lia).
    simpl in H. congruence. }
  destruct (two_hex_spec r Hr) as (c1 & c2 & Er & L1 & L2 & Ir).
  destruct (two_hex_spec g Hg) as (c3 & c4 & Eg & L3 & L4 & Ig).
  destruct (two_hex_spec b Hb) as (c5 & c6 & Eb & L5 & L6 & Ib).
  rewrite RGB_to_hex_three, Er, Eg, Eb. cbn [append].
  split.
  - exists c1, c2, c3, c4, c5, c6. split; [reflexivity|].
    split; [cbn [forallb]; rewrite L1, L2, L3, L4, L5, L6; reflexivity|].
    repeat split; intros; eapply Hpad; eauto.
  - unfold hex_to_RGB. cbn [mapM substring]. rewrite Ir, Ig, Ib. reflexivity.
Qed.

Lemma RGB_to_hex_round_trip_witness :
  hex_to_RGB (RGB_to_hex [255; 10; 0]) = Ok [255; 10; 0].
Proof.
  apply (RGB_to_hex_round_trip 255 10 0); lia.
Defined.

(** ** More properties of the program *)

(** *** The shape of the allocation *)

Lemma num_bins_of_nothing bpg : 1 <= bpg -> num_bins_of bpg 0 = 0.
Proof.
  intros H. unfold num_bins_of. destruct (Z.leb_spec (bpg * 2) 0); [lia | reflexivity].
Qed.

Lemma bins_of_nothing bpg k : 1 <= bpg -> bins bpg k 0 = repeat 0 k.
Proof.
  intros H. induction k as [|k IH]; [reflexivity|].
  cbn [bins repeat]. rewrite num_bins_of_nothing by exact H.
  replace (0 - 0) with 0 by reflexivity. now rewrite IH.
Qed.

Lemma bins_shape bpg :
  1 <= bpg ->
  forall k rem,
    bpg <= rem -> rem / bpg - 1 < Z.of_nat k ->
    bins bpg k rem
    = (repeat bpg (Z.to_nat (rem / bpg - 1))
       ++ (rem - (rem / bpg - 1) * bpg)
       :: repeat 0 (k - 1 - Z.to_nat (rem / bpg - 1)))%list.
Proof.
  intros Hb. induction k as [|k IH]; intros rem Hrem Hk.
  - assert (1 <= rem / bpg) by (apply Z.div_le_lower_bound; lia). lia.
  - cbn [bins]. unfold num_bins_of at 1 2.
    assert (Hq : 1 <= rem / bpg) by (apply Z.div_le_lower_bound; lia).
    destruct (Z.leb_spec (bpg * 2) rem) as [H2|H2].
    + assert (Hq2 : 2 <= rem / bpg) by (apply Z.div_le_lower_bound; lia).
      assert (Hd : (rem - bpg) / bpg = rem / bpg - 1).
      { replace (rem - bpg) with (rem + (-1) * bpg) by ring.
        rewrite Z.div_add by lia. ring. }
      rewrite IH by (rewrite ?Hd; lia). rewrite Hd.
      replace (Z.to_nat (rem / bpg - 1)) with (S (Z.to_nat (rem / bpg - 1 - 1))) by lia.
      cbn [repeat app].
      replace (rem - bpg - (rem / bpg - 1 - 1) * bpg)
        with (rem - (rem / bpg - 1) * bpg) by ring.
      replace (S k - 1 - S (Z.to_nat (rem / bpg - 1 - 1)))%nat
        with (k - 1 - Z.to_nat (rem / bpg - 1 - 1))%nat by lia.
      reflexivity.
    + assert (Hq1 : rem / bpg = 1).
      { apply Z.le_antisymm; [|exact Hq].
        apply Z.lt_succ_r. apply Z.div_lt_upper_bound; lia. }
      rewrite Hq1. replace (rem - rem) with 0 by ring.
      rewrite bins_of_nothing by exact Hb.
      cbn [Z.to_nat repeat app Z.sub Z.add Z.opp Z.pos_sub].
      f_equal; [ring | f_equal; lia].
Qed.

(** X1: for at least one group and a budget of at least one bin, the
    bins are a run of full shares, then one group that takes all that is
    left (at least one share, less than two), then groups with no bin at
    all.  With [bins_per_group] the share, rounded up, the full shares
    are [budget / bins_per_group - 1] in number, so that
    [num_groups - budget / bins_per_group] groups at the end stay empty. *)
Theorem allocate_shape (num_groups budget : Z) :
  1 <= num_groups -> 1 <= budget ->
  exists bins_per_group full,
    ceil_div budget num_groups = Ok bins_per_group
    /\ full = budget / bins_per_group - 1
    /\ 1 <= bins_per_group
    /\ 0 <= full <= num_groups - 1
    /\ bins_per_group <= budget - full * bins_per_group < 2 * bins_per_group
    /\ allocate num_groups budget
       = Ok (repeat bins_per_group (Z.to_nat full)
             ++ (budget - full * bins_per_group)
             :: repeat 0 (Z.to_nat (num_groups - 1 - full)))%list.
Proof.
  intros Hg Hb.
  destruct (ceil_div_covers budget num_groups Hg ltac:(lia)) as [Hc0 Hc].
  set (bpg := - (- budget / num_groups)) in *.
  assert (Hbpg : 1 <= bpg).
  { destruct (Z.le_gt_cases 1 bpg) as [|Hlt]; [assumption|].
    assert (bpg = 0) by lia. rewrite H in Hc. lia. }
  assert (Hle : bpg <= budget).
  { unfold bpg.
    assert (- budget <= (- budget / num_groups)).
    { apply Z.div_le_lower_bound; [lia|]. nia. }
    lia. }
  assert (Hq : 1 <= budget / bpg) by (apply Z.div_le_lower_bound; lia).
  assert (Hqg : budget / bpg <= num_groups).
  { apply Z.lt_succ_r. apply Z.div_lt_upper_bound; [lia|]. nia. }
  exists bpg, (budget / bpg - 1).
  assert (Hmod := Z.div_mod budget bpg ltac:(lia)).
  assert (Hmb := Z.mod_pos_bound budget bpg ltac:(lia)).
  assert (Hrem : budget - (budget / bpg - 1) * bpg = bpg + budget mod bpg).
  { rewrite Hmod at 1. ring. }
  repeat split; try lia.
  - unfold ceil_div. destruct (Z.eqb_spec num_groups 0); [lia | reflexivity].
  - unfold allocate, ceil_div. destruct (Z.eqb_spec num_groups 0); [lia|].
    cbn [bind]. fold bpg.
    assert (Hk : budget / bpg - 1 < Z.of_nat (Z.to_nat num_groups))
      by (rewrite Z2Nat.id by lia; lia).
    rewrite (bins_shape bpg Hbpg _ _ Hle Hk).
    replace (Z.to_nat num_groups - 1 - Z.to_nat (budget / bpg - 1))%nat
      with (Z.to_nat (num_groups - 1 - (budget / bpg - 1))).
    + reflexivity.
    + rewrite !Z2Nat.inj_sub by lia. reflexivity.
Qed.

Lemma allocate_shape_witness :
  exists bins_per_group full,
    ceil_div 255 21 = Ok bins_per_group
    /\ full = 255 / bins_per_group - 1
    /\ allocate 21 255
       = Ok (repeat bins_per_group (Z.to_nat full)
             ++ (255 - full * bins_per_group)
             :: repeat 0 (Z.to_nat (21 - 1 - full)))%list.
Proof.
  destruct (allocate_shape 21 255) as (b & f & H1 & H2 & _ & _ & _ & H3); [lia | lia |].
  exists b, f. repeat split; assumption.
Defined.

(** *** Which runs return *)

Lemma int16_raises s e : int16 s = Raise e -> e = ValueError.
Proof.
  unfold int16. destruct (skip_sign (strip s)) as [negative ds].
  destruct (hex_body ds); [discriminate | intros H; now inversion H].
Qed.

Lemma mapM_raises {A B : Type} (f : A -> result B) (e0 : exn) (l : list A) (e : exn) :
  (forall x e', f x = Raise e' -> e' = e0) -> mapM f l = Raise e -> e = e0.
Proof.
  intros Hf. induction l as [|x l IH]; cbn [mapM]; [discriminate|].
  destruct (f x) as [y|e1] eqn:E; cbn [bind].
  - destruct (mapM f l) as [ys|e2]; cbn [bind]; [discriminate|].
    intros H. inversion H. subst. now apply IH.
  - intros H. inversion H. subst. now apply (Hf x).
Qed.

Lemma hex_to_RGB_raises hex e : hex_to_RGB hex = Raise e -> e = ValueError.
Proof.
  unfold hex_to_RGB. apply mapM_raises. intros x e'. apply int16_raises.
Qed.

Lemma reads_false l : reads l = false -> hex_to_RGB (color l) = Raise ValueError.
Proof.
  unfold reads. destruct (hex_to_RGB (color l)) as [v|e] eqn:E; [discriminate|].
  intros _. now rewrite (hex_to_RGB_raises _ _ E).
Qed.

Lemma reads_true l : reads l = true -> exists v, hex_to_RGB (color l) = Ok v.
Proof.
  unfold reads. destruct (hex_to_RGB (color l)) as [v|e]; [|discriminate].
  intros _. now exists v.
Qed.

Lemma segment_stops_divides sh fh sv ev n so eo ex :
  divides_by_zero ex n = true ->
  segment_stops sh fh sv ev n so eo ex = Raise ZeroDivisionError.
Proof.
  unfold divides_by_zero. intros H.
  unfold segment_stops, increments, num_truediv, truediv_int.
  destruct (Z.eqb_spec n 1) as [->|Hn1]; [reflexivity|].
  cbn [orb] in H. destruct ex; [|discriminate]. cbn [andb] in H.
  apply Z.eqb_eq in H. subst n. reflexivity.
Qed.

Lemma segment_stops_no_bins sh fh sv ev so eo :
  segment_stops sh fh sv ev 0 so eo false
  = (s <- hex_to_RGB sh ;; f <- hex_to_RGB fh ;; Ok []).
Proof. reflexivity. Qed.

Lemma segment_stops_outcome sh fh (sv ev : float) (n : Z) so eo (ex : bool) :
  0 <= n < 2 ^ 53 -> divides_by_zero ex n = false ->
  match hex_to_RGB sh, hex_to_RGB fh with
  | Ok _, Ok _ => exists stops, segment_stops sh fh sv ev n so eo ex = Ok stops
  | _, _ => segment_stops sh fh sv ev n so eo ex = Raise ValueError
  end.
Proof.
  intros Hn Hd. unfold divides_by_zero in Hd.
  apply orb_false_iff in Hd. destruct Hd as [Hn1 Hn0]. apply Z.eqb_neq in Hn1.
  destruct (Z.eq_dec n 0) as [->|Hnz].
  - destruct ex; [discriminate|]. rewrite segment_stops_no_bins.
    destruct (hex_to_RGB sh) as [s|e] eqn:Es; cbn [bind].
    + destruct (hex_to_RGB fh) as [f|e] eqn:Ef; cbn [bind].
      * now exists [].
      * now rewrite (hex_to_RGB_raises _ _ Ef).
    + now rewrite (hex_to_RGB_raises _ _ Es).
  - assert (H2 : 2 <= n < 2 ^ 53) by lia.
    destruct (hex_to_RGB sh) as [s|e] eqn:Es.
    + destruct (hex_to_RGB fh) as [f|e] eqn:Ef.
      * destruct (segment_stops_spec sh fh sv ev n so eo ex s f H2 Es Ef)
          as (stops & Hs & _).
        now exists stops.
      * unfold segment_stops. rewrite increments_defined by lia.
        cbn [bind]. rewrite Es, Ef. cbn [bind].
        now rewrite (hex_to_RGB_raises _ _ Ef).
    + unfold segment_stops. rewrite increments_defined by lia.
      cbn [bind]. rewrite Es. cbn [bind].
      now rewrite (hex_to_RGB_raises _ _ Es).
Qed.

Lemma groups_with_cons ng i a b rest n ns :
  groups_with ng i (a :: b :: rest) (n :: ns)
  = (here <- segment_stops (color a) (color b) (value a) (value b) n
               (opacity_of a) (opacity_of b) (negb (i =? ng - 1)) ;;
     rest_stops <- groups_with ng (i + 1) (b :: rest) ns ;;
     Ok (here ++ rest_stops)%list).
Proof. reflexivity. Qed.

Lemma groups_with_returns ng lines : forall i ns,
  Forall (fun n => 0 <= n < 2 ^ 53) ns ->
  bins_run ng i ns = true -> forallb reads lines = true ->
  exists G, groups_with ng i lines ns = Ok G.
Proof.
  induction lines as [|a l IH]; intros i ns Hr Hb Hl; [now exists []|].
  destruct l as [|b rest]; [now exists []|].
  destruct ns as [|n ns]; [now exists []|].
  rewrite groups_with_cons.
  cbn [bins_run] in Hb. apply andb_true_iff in Hb. destruct Hb as [Hd Hb].
  apply negb_true_iff in Hd. inversion Hr as [|? ? Hn Hr']. subst.
  change (forallb reads (a :: b :: rest)) with (reads a && forallb reads (b :: rest)) in Hl.
  apply andb_true_iff in Hl. destruct Hl as [Ha Hl].
  assert (Hb' : reads b = true).
  { cbn [forallb] in Hl. now apply andb_true_iff in Hl. }
  destruct (reads_true a Ha) as [va Eva]. destruct (reads_true b Hb') as [vb Evb].
  pose proof (segment_stops_outcome (color a) (color b) (value a) (value b) n
                (opacity_of a) (opacity_of b) _ Hn Hd) as Ho.
  rewrite Eva, Evb in Ho. destruct Ho as [here Hh]. rewrite Hh. cbn [bind].
  destruct (IH (i + 1) ns Hr' Hb Hl) as [G HG]. rewrite HG. cbn [bind].
  now eexists.
Qed.

Lemma groups_with_value_error ng lines : forall i ns,
  Forall (fun n => 0 <= n < 2 ^ 53) ns ->
  bins_run ng i ns = true ->
  List.length ns = (List.length lines - 1)%nat -> (2 <= List.length lines)%nat ->
  forallb reads lines = false ->
  groups_with ng i lines ns = Raise ValueError.
Proof.
  induction lines as [|a l IH]; intros i ns Hr Hb Hlen H2 Hl; [cbn in H2; lia|].
  destruct l as [|b rest]; [cbn in H2; lia|].
  destruct ns as [|n ns]; [cbn in Hlen; lia|].
  rewrite groups_with_cons.
  cbn [bins_run] in Hb. apply andb_true_iff in Hb. destruct Hb as [Hd Hb].
  apply negb_true_iff in Hd. inversion Hr as [|? ? Hn Hr']. subst.
  pose proof (segment_stops_outcome (color a) (color b) (value a) (value b) n
                (opacity_of a) (opacity_of b) _ Hn Hd) as Ho.
  destruct (reads a) eqn:Ha.
  - destruct (reads_true a Ha) as [va Eva]. rewrite Eva in Ho.
    destruct (reads b) eqn:Hb'.
    + destruct (reads_true b Hb') as [vb Evb]. rewrite Evb in Ho.
      destruct Ho as [here Hh]. rewrite Hh. cbn [bind].
      change (forallb reads (a :: b :: rest)) with (reads a && forallb reads (b :: rest)) in Hl.
      rewrite Ha in Hl. cbn [andb] in Hl.
      assert (Hrest : (2 <= List.length (b :: rest))%nat).
      { destruct rest; [|cbn; lia]. cbn in Hl. rewrite Hb' in Hl. discriminate. }
      rewrite (IH (i + 1) ns Hr' Hb); [reflexivity | cbn in Hlen |- *; lia | exact Hrest | exact Hl].
    + rewrite (reads_false b Hb') in Ho. now rewrite Ho.
  - rewrite (reads_false a Ha) in Ho. now rewrite Ho.
Qed.

Lemma groups_with_raises ng lines : forall i ns,
  Forall (fun n => 0 <= n < 2 ^ 53) ns ->
  bins_run ng i ns = false ->
  List.length ns = (List.length lines - 1)%nat ->
  groups_with ng i lines ns = Raise ZeroDivisionError
  \/ groups_with ng i lines ns = Raise ValueError.
Proof.
  induction lines as [|a l IH]; intros i ns Hr Hb Hlen.
  { destruct ns; [discriminate | cbn in Hlen; lia]. }
  destruct l as [|b rest].
  { destruct ns; [discriminate | cbn in Hlen; lia]. }
  destruct ns as [|n ns]; [discriminate|].
  rewrite groups_with_cons. inversion Hr as [|? ? Hn Hr']. subst.
  cbn [bins_run] in Hb.
  destruct (divides_by_zero (negb (i =? ng - 1)) n) eqn:Hd.
  - left. now rewrite segment_stops_divides.
  - cbn [negb andb] in Hb.
    pose proof (segment_stops_outcome (color a) (color b) (value a) (value b) n
                  (opacity_of a) (opacity_of b) _ Hn Hd) as Ho.
    assert (Hlen' : List.length ns = (List.length (b :: rest) - 1)%nat)
      by (cbn in Hlen |- *; lia).
    destruct (hex_to_RGB (color a)); [|right; now rewrite Ho].
    destruct (hex_to_RGB (color b)); [|right; now rewrite Ho].
    destruct Ho as [here Hh]. rewrite Hh. cbn [bind].
    destruct (IH (i + 1) ns Hr' Hb Hlen') as [H|H]; rewrite H; [left | right]; reflexivity.
Qed.

Lemma forallb_perm {A : Type} (p : A -> bool) l l' :
  Permutation l l' -> forallb p l = forallb p l'.
Proof.
  induction 1 as [|x l l' _ IH|x y l|l l' l'' _ IH1 _ IH2]; cbn [forallb].
  - reflexivity.
  - now rewrite IH.
  - destruct (p x), (p y); reflexivity.
  - now rewrite IH1.
Qed.

Lemma bins_bounded bpg k : 0 <= bpg -> forall rem, 0 <= rem ->
  Forall (fun b => 0 <= b <= rem) (bins bpg k rem).
Proof.
  intros Hb. induction k as [|k IH]; intros rem Hrem; cbn [bins]; constructor.
  - unfold num_bins_of. destruct (Z.leb_spec (bpg * 2) rem); lia.
  - assert (Hn : 0 <= num_bins_of bpg rem <= rem)
      by (unfold num_bins_of; destruct (Z.leb_spec (bpg * 2) rem); lia).
    eapply Forall_impl; [|apply IH; lia].
    cbn beta. intros b Hb'. lia.
Qed.

Lemma allocate_bounded ng ns :
  allocate ng MAX_NUM_COLORS = Ok ns -> Forall (fun n => 0 <= n < 2 ^ 53) ns.
Proof.
  unfold allocate, ceil_div, MAX_NUM_COLORS.
  destruct (Z.eqb_spec ng 0); [discriminate|]. cbn [bind].
  intros H. inversion H. subst ns. clear H.
  destruct (Z.le_gt_cases ng 0) as [Hle|Hgt].
  - replace (Z.to_nat ng) with 0%nat by lia. constructor.
  - destruct (ceil_div_covers 255 ng ltac:(lia) ltac:(lia)) as [H0 _].
    eapply Forall_impl; [|apply bins_bounded; [exact H0 | lia]].
    cbn beta. intros b Hb. assert (255 < 2 ^ 53) by reflexivity. lia.
Qed.

Lemma allocate_length ng ns :
  allocate ng MAX_NUM_COLORS = Ok ns -> List.length ns = Z.to_nat ng.
Proof.
  unfold allocate, ceil_div. destruct (Z.eqb_spec ng 0); [discriminate|]. cbn [bind].
  intros H. inversion H. apply bins_length.
Qed.

Lemma allocate_raises ng e :
  allocate ng MAX_NUM_COLORS = Raise e -> e = ZeroDivisionError.
Proof.
  unfold allocate, ceil_div. destruct (Z.eqb_spec ng 0); cbn [bind]; [|discriminate].
  intros H. now inversion H.
Qed.

Lemma count_runs_small :
  forallb (fun k => Bool.eqb (existsb (Nat.eqb k) line_counts_that_return) (count_runs k))
    (seq 0 257) = true.
Proof. vm_compute. reflexivity. Qed.

Lemma line_counts_small :
  forallb (fun k => (k <=? 129)%nat) line_counts_that_return = true.
Proof. vm_compute. reflexivity. Qed.

Lemma count_runs_large k : (257 <= k)%nat -> count_runs k = false.
Proof.
  intros Hk. unfold count_runs, allocate, ceil_div, MAX_NUM_COLORS.
  set (ng := Z.of_nat k - 1). assert (Hng : 256 <= ng) by (unfold ng; lia).
  destruct (Z.eqb_spec ng 0); [lia|]. cbn [bind].
  assert (Hq : - 255 / ng = - 1).
  { symmetry. apply (Z.div_unique (- 255) ng (- 1) (ng - 255)); [left; lia | ring]. }
  change (- (255)) with (- 255)%Z. cbn [Z.opp]. rewrite Hq. change (- - 1) with 1.
  destruct (Z.to_nat ng) as [|m] eqn:Em; [lia|].
  cbn [bins]. change (num_bins_of 1 255) with 1. cbn [bins_run].
  unfold divides_by_zero. reflexivity.
Qed.

Lemma count_runs_spec k : In k line_counts_that_return <-> count_runs k = true.
Proof.
  destruct (Nat.le_gt_cases k 256) as [Hs|Hl].
  - pose proof count_runs_small as H. rewrite forallb_forall in H.
    specialize (H k ltac:(apply in_seq; lia)). apply eqb_prop in H.
    rewrite <- H. rewrite existsb_exists. split.
    + intros Hin. exists k. split; [exact Hin | apply Nat.eqb_refl].
    + intros (x & Hin & Hx). apply Nat.eqb_eq in Hx. now subst.
  - rewrite (count_runs_large k) by lia. split; [|discriminate].
    intros Hin. pose proof line_counts_small as H. rewrite forallb_forall in H.
    specialize (H k Hin). apply Nat.leb_le in H. lia.
Qed.

Lemma run_of_gradient lines :
  run lines
  = (G <- gradient lines ;;
     Ok (write_outputs
           (finish_geoserver_string
              (fold_left emit G (start_geoserver_string initial_globals))))).
Proof.
  unfold run. rewrite run_globals_gradient.
  destruct (gradient lines); reflexivity.
Qed.

(** X2: which runs return.  A run returns exactly when the number of
    lines is one of 0, 2 to 21, 23, 25, 27, 30, 33, 38, 44, 52, 53, 65,
    86, 87 and 129 and [hex_to_RGB] reads the colour of every line; it
    then has 255 stops when there are lines at all.  With such a number
    of lines and a colour that cannot be read the run raises ValueError;
    with any other number of lines some group is handed one bin, or no
    bin before the last group, and the run raises ZeroDivisionError (or
    ValueError, when a colour that cannot be read comes first). *)
Theorem run_returns_for_these_line_counts (lines : list line) :
  (In (List.length lines) line_counts_that_return -> forallb reads lines = true ->
     exists o G,
       run lines = Ok o /\ gradient lines = Ok G
       /\ ((2 <= List.length lines)%nat -> List.length G = 255%nat))
  /\ (In (List.length lines) line_counts_that_return -> forallb reads lines = false ->
        run lines = Raise ValueError)
  /\ (~ In (List.length lines) line_counts_that_return ->
        run lines = Raise ZeroDivisionError \/ run lines = Raise ValueError).
Proof.
  pose proof (gradient_uses_allocation lines) as Hg. cbv zeta in Hg.
  pose proof (count_runs_spec (List.length lines)) as Hc. unfold count_runs in Hc.
  set (ng := Z.of_nat (List.length lines) - 1) in *.
  assert (Hperm : forallb reads (sorted lines) = forallb reads lines)
    by (symmetry; apply forallb_perm, sorted_perm).
  split; [|split].
  - intros Hin Hl. apply Hc in Hin.
    destruct (allocate ng MAX_NUM_COLORS) as [ns|e] eqn:Ea; [|discriminate].
    cbn [bind] in Hg.
    destruct (groups_with_returns ng (sorted lines) 0 ns (allocate_bounded _ _ Ea) Hin)
      as [G HG]; [now rewrite Hperm|].
    rewrite HG in Hg. rewrite run_of_gradient, Hg. cbn [bind].
    eexists. exists G. split; [reflexivity | split; [reflexivity|]].
    intros H2. pose proof (gradient_length lines G H2 Hg) as Hlen.
    unfold MAX_NUM_COLORS in Hlen. lia.
  - intros Hin Hl. apply Hc in Hin.
    destruct (allocate ng MAX_NUM_COLORS) as [ns|e] eqn:Ea; [|discriminate].
    cbn [bind] in Hg.
    assert (H2 : (2 <= List.length lines)%nat).
    { destruct lines as [|a [|b rest]]; [discriminate | | cbn; lia].
      exfalso. revert Ea. vm_compute. discriminate. }
    rewrite run_of_gradient, Hg.
    rewrite (groups_with_value_error ng (sorted lines) 0 ns (allocate_bounded _ _ Ea) Hin).
    + reflexivity.
    + rewrite (allocate_length _ _ Ea), sorted_length. unfold ng. lia.
    + now rewrite sorted_length.
    + now rewrite Hperm.
  - intros Hin. rewrite run_of_gradient, Hg.
    destruct (allocate ng MAX_NUM_COLORS) as [ns|e] eqn:Ea; cbn [bind].
    + assert (Hb : bins_run ng 0 ns = false).
      { destruct (bins_run ng 0 ns); [|reflexivity]. exfalso. apply Hin. now apply Hc. }
      destruct (groups_with_raises ng (sorted lines) 0 ns (allocate_bounded _ _ Ea) Hb)
        as [H|H]; [| rewrite H; now left | rewrite H; now right].
      rewrite (allocate_length _ _ Ea), sorted_length. unfold ng. lia.
    + left. now rewrite (allocate_raises _ _ Ea).
Qed.

Lemma run_returns_for_these_line_counts_witness :
  exists o G,
    run two_lines = Ok o /\ gradient two_lines = Ok G
    /\ ((2 <= List.length two_lines)%nat -> List.length G = 255%nat).
Proof.
  apply (proj1 (run_returns_for_these_line_counts two_lines)).
  - cbn. tauto.
  - reflexivity.
Defined.

(** *** What [hex_to_RGB] accepts *)

Lemma substring_beyond s : forall n m, (String.length s <= n)%nat -> substring n m s = "".
Proof.
  induction s as [|c s IH]; intros n m H.
  - destruct n, m; reflexivity.
  - destruct n as [|n]; [cbn in H; lia|]. cbn [substring]. apply IH. cbn in H. lia.
Qed.

(** White space beyond ASCII.  [int] drops a no-break space (U+00A0)
    or a next line character (U+0085) beside the digits of a slice, as
    it drops a space; it does not drop the separator U+001C. *)
Lemma hex_to_RGB_white_space :
  hex_to_RGB (String "#" (String (ascii_of_nat 160) "f0000")) = Ok [15; 0; 0]
  /\ hex_to_RGB (String "#" (String (ascii_of_nat 133) "f0000")) = Ok [15; 0; 0]
  /\ hex_to_RGB "# f0000" = Ok [15; 0; 0]
  /\ hex_to_RGB (String "#" (String (ascii_of_nat 28) "f0000")) = Raise ValueError.
Proof. repeat split; reflexivity. Qed.

(** X3: [hex_to_RGB] reads the six characters after the first one and
    nothing else: the first character, which is never compared with [#],
    and whatever follows the seventh do not change the result. *)
Theorem hex_to_RGB_reads_six_characters (c c' : ascii) (s t : string) :
  String.length s = 6%nat ->
  hex_to_RGB (String c (s ++ t)) = hex_to_RGB (String c' s).
Proof.
  intros H.
  destruct s as [|a1 [|a2 [|a3 [|a4 [|a5 [|a6 [|a7 s]]]]]]]; try discriminate H.
  destruct t; reflexivity.
Qed.

Lemma hex_to_RGB_reads_six_characters_witness :
  hex_to_RGB "#ff8000" = Ok [255; 128; 0]
  /\ hex_to_RGB "#ff8000ff" = hex_to_RGB "?ff8000".
Proof.
  split; [reflexivity|].
  apply (hex_to_RGB_reads_six_characters "#" "?" "ff8000" "ff"). reflexivity.
Defined.

Lemma int16_empty : int16 "" = Raise ValueError.
Proof. reflexivity. Qed.

(** X4: the only exception [hex_to_RGB] raises is ValueError, and it
    raises it on every text of fewer than six characters (the slice
    [hex[5:7]] is then empty), the empty text included. *)
Theorem hex_to_RGB_raises_ValueError :
  (forall hex e, hex_to_RGB hex = Raise e -> e = ValueError)
  /\ (forall hex, (String.length hex <= 5)%nat -> hex_to_RGB hex = Raise ValueError).
Proof.
  split; [apply hex_to_RGB_raises|].
  intros hex H. unfold hex_to_RGB. cbn [mapM].
  rewrite (substring_beyond hex 5 2 H), int16_empty.
  destruct (int16 (substring 1 2 hex)) as [r|e] eqn:E1; cbn [bind];
    [|now rewrite (int16_raises _ _ E1)].
  destruct (int16 (substring 3 2 hex)) as [g|e] eqn:E2; cbn [bind];
    [|now rewrite (int16_raises _ _ E2)].
  reflexivity.
Qed.

Lemma hex_to_RGB_raises_ValueError_witness :
  hex_to_RGB "#fff" = Raise ValueError /\ hex_to_RGB "" = Raise ValueError.
Proof.
  split; apply (proj2 hex_to_RGB_raises_ValueError); cbn; lia.
Defined.

Lemma skip_sign_negative s ds :
  skip_sign s = (true, ds) -> String.length s = S (String.length ds).
Proof.
  destruct s as [|c s]; [discriminate|].
  destruct c as [[] [] [] [] [] [] [] []]; cbn; intros H; inversion H; reflexivity.
Qed.

Lemma strip_length s : (String.length (strip s) <= String.length s)%nat.
Proof.
  unfold strip. pose proof (rstrip_length (lstrip s)). pose proof (lstrip_length s). lia.
Qed.

Lemma int16_two_characters s z :
  (String.length s <= 2)%nat -> int16 s = Ok z -> - 15 <= z <= 255.
Proof.
  intros Hlen H. pose proof (int16_bound s z H) as Hb.
  assert (Hp : 16 ^ Z.of_nat (String.length s) <= 16 ^ 2)
    by (apply Z.pow_le_mono_r; lia).
  change (16 ^ 2) with 256 in Hp.
  split; [|lia].
  unfold int16 in H. destruct (skip_sign (strip s)) as [negative ds] eqn:Es.
  destruct (hex_body ds) as [v|] eqn:Ev; [|discriminate].
  inversion H. subst z. clear H.
  pose proof (hex_body_bound ds v Ev) as Hv.
  destruct negative; [|lia].
  apply skip_sign_negative in Es. pose proof (strip_length s).
  assert (Hd : 16 ^ Z.of_nat (String.length ds) <= 16 ^ 1)
    by (apply Z.pow_le_mono_r; lia).
  change (16 ^ 1) with 16 in Hd. lia.
Qed.

(** X5: whenever [hex_to_RGB] returns, it returns three integers
    between -15 and 255.  Both ends are reached: a slice may hold a sign
    and one digit, so that a channel can be negative. *)
Theorem hex_to_RGB_channels :
  (forall hex v,
     hex_to_RGB hex = Ok v ->
     exists r g b,
       v = [r; g; b] /\ - 15 <= r <= 255 /\ - 15 <= g <= 255 /\ - 15 <= b <= 255)
  /\ hex_to_RGB "#-fff+f" = Ok [- 15; 255; 15].
Proof.
  split; [|reflexivity].
  intros hex v. unfold hex_to_RGB. cbn [mapM].
  destruct (int16 (substring 1 2 hex)) as [r|e] eqn:E1; cbn [bind]; [|discriminate].
  destruct (int16 (substring 3 2 hex)) as [g|e] eqn:E2; cbn [bind]; [|discriminate].
  destruct (int16 (substring 5 2 hex)) as [b|e] eqn:E3; cbn [bind]; [|discriminate].
  intros H. inversion H. subst v. exists r, g, b.
  pose proof (int16_two_characters _ _ (substring_length 1 2 hex) E1).
  pose proof (int16_two_characters _ _ (substring_length 3 2 hex) E2).
  pose proof (int16_two_characters _ _ (substring_length 5 2 hex) E3).
  repeat split; lia.
Qed.

Lemma hex_to_RGB_channels_witness :
  exists r g b,
    [0; 128; 255] = [r; g; b] /\ - 15 <= r <= 255 /\ - 15 <= g <= 255 /\ - 15 <= b <= 255.
Proof.
  apply (proj1 hex_to_RGB_channels "#0080ff"). reflexivity.
Defined.

(** *** Upper and lower case *)

Section CaseOfLetters.
Variable f : ascii -> ascii.
Hypothesis f_space : forall c, is_space (f c) = is_space c.
Hypothesis f_digit : forall c, hex_digit (f c) = hex_digit c.
Hypothesis f_underscore : forall c, Ascii.eqb (f c) "_" = Ascii.eqb c "_".
Hypothesis f_zero : forall c, Ascii.eqb (f c) "0" = Ascii.eqb c "0".
Hypothesis f_plus : forall c, Ascii.eqb (f c) "+" = Ascii.eqb c "+".
Hypothesis f_minus : forall c, Ascii.eqb (f c) "-" = Ascii.eqb c "-".
Hypothesis f_x : forall c,
  Ascii.eqb (f c) "x" || Ascii.eqb (f c) "X" = Ascii.eqb c "x" || Ascii.eqb c "X".

Lemma lstrip_map s : lstrip (map_string f s) = map_string f (lstrip s).
Proof.
  induction s as [|c s IH]; [reflexivity|].
  cbn [map_string lstrip]. rewrite f_space. destruct (is_space c); [exact IH | reflexivity].
Qed.

Lemma rstrip_map s : rstrip (map_string f s) = map_string f (rstrip s).
Proof.
  induction s as [|c s IH]; [reflexivity|].
  cbn [map_string rstrip]. rewrite IH, f_space.
  destruct (rstrip s); cbn [map_string]; [destruct (is_space c)|]; reflexivity.
Qed.

Lemma skip_sign_tests s :
  skip_sign s
  = match s with
    | String c s' =>
        if Ascii.eqb c "+" then (false, s')
        else if Ascii.eqb c "-" then (true, s') else (false, s)
    | EmptyString => (false, s)
    end.
Proof.
  destruct s as [|c s]; [reflexivity|].
  destruct c as [[] [] [] [] [] [] [] []]; reflexivity.
Qed.

Lemma skip_sign_map s :
  skip_sign (map_string f s) = (fst (skip_sign s), map_string f (snd (skip_sign s))).
Proof.
  rewrite !skip_sign_tests. destruct s as [|c s]; [reflexivity|].
  cbn [map_string]. rewrite f_plus, f_minus.
  destruct (Ascii.eqb c "+"); [reflexivity|].
  destruct (Ascii.eqb c "-"); reflexivity.
Qed.

Lemma skip_prefix_tests s :
  skip_prefix s
  = match s with
    | String c (String x s') =>
        if Ascii.eqb c "0" && (Ascii.eqb x "x" || Ascii.eqb x "X")
        then match s' with
             | String u s'' => if Ascii.eqb u "_" then s'' else s'
             | EmptyString => s'
             end
        else s
    | _ => s
    end.
Proof.
  destruct s as [|c [|x s]].
  - reflexivity.
  - destruct c as [[] [] [] [] [] [] [] []]; reflexivity.
  - destruct c as [[] [] [] [] [] [] [] []]; try reflexivity.
    cbn [skip_prefix Ascii.eqb Bool.eqb andb].
    destruct (Ascii.eqb x "x" || Ascii.eqb x "X"); [|reflexivity].
    destruct s as [|u s]; [reflexivity|].
    destruct u as [[] [] [] [] [] [] [] []]; reflexivity.
Qed.

Lemma skip_prefix_map s : skip_prefix (map_string f s) = map_string f (skip_prefix s).
Proof.
  rewrite !skip_prefix_tests. destruct s as [|c [|x s]]; try reflexivity.
  cbn [map_string]. rewrite f_zero, f_x.
  destruct (Ascii.eqb c "0" && (Ascii.eqb x "x" || Ascii.eqb x "X")); [|reflexivity].
  destruct s as [|u s]; [reflexivity|].
  cbn [map_string]. rewrite f_underscore. destruct (Ascii.eqb u "_"); reflexivity.
Qed.

Lemma hex_digits_map s : forall acc p,
  hex_digits (map_string f s) acc p = hex_digits s acc p.
Proof.
  induction s as [|c s IH]; intros acc p; [reflexivity|].
  cbn [map_string hex_digits]. rewrite f_underscore, f_digit.
  destruct (Ascii.eqb c "_").
  - destruct p; [reflexivity | apply IH].
  - destruct (hex_digit c); [apply IH | reflexivity].
Qed.

Lemma hex_body_map s : hex_body (map_string f s) = hex_body s.
Proof.
  unfold hex_body. rewrite skip_prefix_map.
  destruct (skip_prefix s) as [|c r]; [reflexivity|].
  change (map_string f (String c r)) with (String (f c) (map_string f r)).
  cbv iota. rewrite f_underscore.
  destruct (Ascii.eqb c "_"); [reflexivity|].
  apply (hex_digits_map (String c r)).
Qed.

Lemma int16_map s : int16 (map_string f s) = int16 s.
Proof.
  unfold int16, strip. rewrite lstrip_map, rstrip_map, skip_sign_map.
  destruct (skip_sign (rstrip (lstrip s))) as [negative ds]. cbn [fst snd].
  now rewrite hex_body_map.
Qed.

Lemma substring_map s : forall n m,
  substring n m (map_string f s) = map_string f (substring n m s).
Proof.
  induction s as [|c s IH]; intros n m.
  - destruct n, m; reflexivity.
  - destruct n as [|n]; [destruct m as [|m]|]; cbn [map_string substring].
    + reflexivity.
    + now rewrite IH.
    + apply IH.
Qed.

Lemma hex_to_RGB_map hex : hex_to_RGB (map_string f hex) = hex_to_RGB hex.
Proof.
  unfold hex_to_RGB. cbn [mapM]. now rewrite !substring_map, !int16_map.
Qed.

End CaseOfLetters.

(** X6: [hex_to_RGB] does not tell upper case from lower case: a text,
    its upper-case form and its lower-case form give the same result,
    value or exception. *)
Theorem hex_to_RGB_ignores_case (hex : string) :
  hex_to_RGB (str_upper hex) = hex_to_RGB hex
  /\ hex_to_RGB (str_lower hex) = hex_to_RGB hex.
Proof.
  split; apply hex_to_RGB_map;
    intros c; destruct c as [[] [] [] [] [] [] [] []]; reflexivity.
Qed.

(** *** Reading a colour and writing it back *)

Lemma is_hex_digit_in c : is_hex_digit c = true -> In c hex_chars.
Proof.
  destruct c as [[] [] [] [] [] [] [] []]; intros H; try discriminate H;
    cbn; repeat (first [left; reflexivity | right]).
Qed.

Lemma pairs_round_trip :
  forallb (fun c1 => forallb (pair_round_trips c1) hex_chars) hex_chars = true.
Proof. vm_compute. reflexivity. Qed.

Lemma pair_round_trips_spec c1 c2 :
  is_hex_digit c1 = true -> is_hex_digit c2 = true ->
  exists v,
    int16 (String c1 (String c2 EmptyString)) = Ok v
    /\ 0 <= v <= 255
    /\ two_hex v = String (lower_char c1) (String (lower_char c2) EmptyString).
Proof.
  intros H1 H2. pose proof pairs_round_trip as H. rewrite forallb_forall in H.
  specialize (H c1 (is_hex_digit_in c1 H1)). rewrite forallb_forall in H.
  specialize (H c2 (is_hex_digit_in c2 H2)). unfold pair_round_trips in H.
  destruct (int16 (String c1 (String c2 ""))) as [v|e]; [|discriminate].
  apply andb_true_iff in H. destruct H as [H Hs].
  apply andb_true_iff in H. destruct H as [Hlo Hhi].
  exists v. repeat split; [lia | lia | now apply String.eqb_eq].
Qed.

(** X7: a colour of six hexadecimal digits, in either case, after any
    first character is read as three channels from 0 to 255, and
    [RGB_to_hex] writes them back as [#] and the same digits in lower
    case. *)
Theorem hex_to_RGB_then_RGB_to_hex (c0 : ascii) (s : string) :
  String.length s = 6%nat -> string_forallb is_hex_digit s = true ->
  exists r g b,
    hex_to_RGB (String c0 s) = Ok [r; g; b]
    /\ 0 <= r <= 255 /\ 0 <= g <= 255 /\ 0 <= b <= 255
    /\ RGB_to_hex [r; g; b] = String "#" (str_lower s).
Proof.
  intros Hlen Hs.
  destruct s as [|a1 [|a2 [|a3 [|a4 [|a5 [|a6 [|a7 s]]]]]]]; try discriminate Hlen.
  cbn [string_forallb] in Hs.
  repeat (apply andb_true_iff in Hs; let H := fresh "Hd" in destruct Hs as [H Hs]).
  destruct (pair_round_trips_spec a1 a2) as (r & Er & Hr & Wr); try assumption.
  destruct (pair_round_trips_spec a3 a4) as (g & Eg & Hg & Wg); try assumption.
  destruct (pair_round_trips_spec a5 a6) as (b & Eb & Hb & Wb); try assumption.
  exists r, g, b. repeat split; try lia.
  - unfold hex_to_RGB. cbn [mapM substring]. rewrite Er, Eg, Eb. reflexivity.
  - rewrite RGB_to_hex_three, Wr, Wg, Wb. reflexivity.
Qed.

Lemma hex_to_RGB_then_RGB_to_hex_witness :
  exists r g b,
    hex_to_RGB "#FF80aB" = Ok [r; g; b]
    /\ 0 <= r <= 255 /\ 0 <= g <= 255 /\ 0 <= b <= 255
    /\ RGB_to_hex [r; g; b] = "#ff80ab".
Proof.
  apply (hex_to_RGB_then_RGB_to_hex "#" "FF80aB"); reflexivity.
Defined.

(** *** The value ranges of one call *)

Lemma accumulate_S delta i : forall sv,
  accumulate delta (S i) sv = (accumulate delta i sv + delta)%float.
Proof.
  induction i as [|i IH]; intros sv; [reflexivity|].
  change (accumulate delta (S (S i)) sv) with (accumulate delta (S i) (sv + delta)%float).
  rewrite IH. reflexivity.
Qed.

(** X8: the value ranges of one call with at least two bins.  The first
    range starts at the start value and every other one where the one
    before it started, plus the increment; a range ends where the next
    one starts or, when that would pass the end value and in any case
    at the step before the last, at the end value itself.  So no range
    ends beyond the end value, and the last range starts one increment
    after the start of a range that ends at the end value: the last two
    ranges overlap whenever that start lies below the end value. *)
Theorem ranges_of_a_call sh fh (sv ev : float) (n : Z) so eo (ex : bool) s f :
  2 <= n < 2 ^ 53 -> hex_to_RGB sh = Ok s -> hex_to_RGB fh = Ok f ->
  exists stops delta,
    segment_stops sh fh sv ev n so eo ex = Ok stops
    /\ delta = ((ev - sv) / float_of_int (if ex then n else n - 1))%float
    /\ (forall st, nth_error stops 0 = Some st -> step_val st = sv)
    /\ (forall i st st',
          nth_error stops i = Some st -> nth_error stops (S i) = Some st' ->
          step_val st' = (step_val st + delta)%float)
    /\ (forall i st,
          nth_error stops i = Some st ->
          val_range st
          = strip (format_10_10f (step_val st)) ++ ","
              ++ strip (format_10_10f (upper_bound st))
          /\ (upper_bound st = ev
              \/ (upper_bound st = (step_val st + delta)%float
                  /\ (upper_bound st <=? ev)%float = true)))
    /\ (forall st st',
          nth_error stops (Z.to_nat (n - 2)) = Some st ->
          nth_error stops (Z.to_nat (n - 1)) = Some st' ->
          upper_bound st = ev /\ step_val st' = (step_val st + delta)%float).
Proof.
  intros Hn Hs Hf.
  destruct (segment_stops_spec sh fh sv ev n so eo ex s f Hn Hs Hf) as (stops & Hst & Hlen & Hnth).
  cbv zeta in Hnth.
  set (delta := ((ev - sv) / float_of_int (if ex then n else n - 1))%float) in *.
  exists stops, delta.
  assert (Hstep : forall i st, nth_error stops i = Some st ->
            step_val st = accumulate delta i sv
            /\ upper_bound st
               = (if Z.of_nat i =? n - 2 then ev
                  else if (accumulate delta i sv + delta <=? ev)%float
                       then (accumulate delta i sv + delta)%float else ev)
            /\ val_range st
               = strip (format_10_10f (step_val st)) ++ ","
                   ++ strip (format_10_10f (upper_bound st))).
  { intros i st Hi. apply Hnth in Hi. apply step_inv in Hi.
    destruct Hi as (_ & _ & _ & H1 & H2 & H3 & _). auto. }
  assert (Hnext : forall i st st',
            nth_error stops i = Some st -> nth_error stops (S i) = Some st' ->
            step_val st' = (step_val st + delta)%float).
  { intros i st st' Hi Hi'.
    destruct (Hstep _ _ Hi) as (-> & _). destruct (Hstep _ _ Hi') as (-> & _).
    apply accumulate_S. }
  split; [exact Hst|]. split; [reflexivity|].
  split; [intros st H0; now destruct (Hstep _ _ H0) as (-> & _)|].
  split; [exact Hnext|].
  split.
  - intros i st Hi. destruct (Hstep _ _ Hi) as (Hsv & Hub & Hvr).
    split; [exact Hvr|]. rewrite Hub, Hsv.
    destruct (Z.of_nat i =? n - 2); [now left|].
    destruct (accumulate delta i sv + delta <=? ev)%float eqn:E; [right | left]; auto.
  - intros st st' Hi Hi'. split.
    + destruct (Hstep _ _ Hi) as (_ & Hub & _). rewrite Hub.
      rewrite Z2Nat.id by lia. now rewrite Z.eqb_refl.
    + apply (Hnext (Z.to_nat (n - 2))); [exact Hi|].
      replace (S (Z.to_nat (n - 2))) with (Z.to_nat (n - 1)) by lia. exact Hi'.
Qed.

Lemma ranges_of_a_call_witness :
  exists stops delta,
    segment_stops "#000000" "#ffffff" 0 10 4 (PyInt 1) (PyInt 1) true = Ok stops
    /\ delta = ((10 - 0) / float_of_int 4)%float
    /\ (forall st, nth_error stops 0 = Some st -> step_val st = 0%float).
Proof.
  destruct (ranges_of_a_call "#000000" "#ffffff" 0 10 4 (PyInt 1) (PyInt 1) true
              [0; 0; 0] [255; 255; 255])
    as (stops & delta & H1 & H2 & H3 & _); [lia | reflexivity | reflexivity |].
  exists stops, delta. auto.
Defined.

(** *** A number of groups that divides the budget *)

Lemma ceil_div_exact q ng : 1 <= ng -> ceil_div (ng * q) ng = Ok q.
Proof.
  intros H. unfold ceil_div. destruct (Z.eqb_spec ng 0); [lia|].
  replace (- (ng * q)) with ((- q) * ng) by ring.
  rewrite Z.div_mul by lia. now rewrite Z.opp_involutive.
Qed.

Lemma groups_with_even ng q lines : forall i,
  2 <= q < 2 ^ 53 -> forallb reads lines = true ->
  exists segs,
    groups_with ng i lines (repeat q (List.length lines - 1)) = Ok (List.concat segs)
    /\ List.length segs = (List.length lines - 1)%nat
    /\ forall j seg,
         nth_error segs j = Some seg ->
         Z.of_nat (List.length seg) = q
         /\ exists a b,
              nth_error lines j = Some a /\ nth_error lines (S j) = Some b
              /\ segment_stops (color a) (color b) (value a) (value b) q
                   (opacity_of a) (opacity_of b) (negb (i + Z.of_nat j =? ng - 1))
                 = Ok seg.
Proof.
  intros i Hq Hl. revert i.
  induction lines as [|a l IH]; intros i.
  { exists []. split; [reflexivity|]. split; [reflexivity|].
    intros [|j] seg H; discriminate H. }
  destruct l as [|b rest].
  { exists []. split; [reflexivity|]. split; [reflexivity|].
    intros [|j] seg H; discriminate H. }
  change (forallb reads (a :: b :: rest)) with (reads a && forallb reads (b :: rest)) in Hl.
  apply andb_true_iff in Hl. destruct Hl as [Ha Hl].
  assert (Hb : reads b = true) by (cbn [forallb] in Hl; now apply andb_true_iff in Hl).
  destruct (reads_true a Ha) as [va Eva]. destruct (reads_true b Hb) as [vb Evb].
  replace (List.length (a :: b :: rest) - 1)%nat with (S (List.length (b :: rest) - 1))
    by (cbn [List.length]; lia).
  cbn [repeat]. rewrite groups_with_cons.
  destruct (segment_stops_spec (color a) (color b) (value a) (value b) q
              (opacity_of a) (opacity_of b) (negb (i =? ng - 1)) va vb Hq Eva Evb)
    as (here & Hh & Hlen & _).
  rewrite Hh. cbn [bind].
  destruct (IH Hl (i + 1)) as (segs & Hg & Hls & Hsegs).
  rewrite Hg. cbn [bind]. exists (here :: segs).
  split; [reflexivity|]. split; [cbn [List.length]; now rewrite Hls|].
  intros [|j] seg Hj.
  - cbn [nth_error] in Hj. injection Hj as <-. split; [exact Hlen|].
    exists a, b. repeat split. now rewrite Z.add_0_r.
  - cbn [nth_error] in Hj. destruct (Hsegs j seg Hj) as (Hlj & a' & b' & Ha' & Hb' & Hs').
    split; [exact Hlj|]. exists a', b'. repeat split; try assumption.
    replace (i + Z.of_nat (S j)) with (i + 1 + Z.of_nat j) by lia. exact Hs'.
Qed.

(** X9: when the number of groups divides 255 (2, 4, 6, 16, 18, 52 or
    86 lines), the values are numbers and every colour can be read, no
    group is dropped: the gradient is, for each pair of consecutive
    lines in the order of their values, the stops of one call with
    exactly 255 / groups bins, the end excluded in all calls but the
    last. *)
Theorem even_groups_share_the_stops (lines : list line) (q : Z) :
  forallb has_number lines = true ->
  1 <= Z.of_nat (List.length lines) - 1 ->
  MAX_NUM_COLORS = (Z.of_nat (List.length lines) - 1) * q -> 2 <= q ->
  forallb reads lines = true ->
  exists segs,
    gradient lines = Ok (List.concat segs)
    /\ Z.of_nat (List.length segs) = Z.of_nat (List.length lines) - 1
    /\ forall j seg,
         nth_error segs j = Some seg ->
         Z.of_nat (List.length seg) = q
         /\ exists a b,
              nth_error (sorted lines) j = Some a
              /\ nth_error (sorted lines) (S j) = Some b
              /\ segment_stops (color a) (color b) (value a) (value b) q
                   (opacity_of a) (opacity_of b)
                   (negb (Z.of_nat j =? Z.of_nat (List.length lines) - 1 - 1))
                 = Ok seg.
Proof.
  intros _ Hng Hq H2 Hl.
  pose proof (gradient_uses_allocation lines) as Hg. cbv zeta in Hg.
  set (ng := Z.of_nat (List.length lines) - 1) in *.
  assert (Hq53 : 2 <= q < 2 ^ 53).
  { split; [exact H2|]. unfold MAX_NUM_COLORS in Hq.
    assert (255 < 2 ^ 53) by reflexivity. nia. }
  assert (Ha : allocate ng MAX_NUM_COLORS = Ok (repeat q (List.length (sorted lines) - 1))).
  { unfold allocate. rewrite Hq, ceil_div_exact by lia. cbn [bind].
    rewrite sorted_length.
    replace (Z.to_nat ng) with (List.length lines - 1)%nat by (unfold ng; lia).
    replace (ng * q) with (Z.of_nat (List.length lines - 1) * q) by (unfold ng; f_equal; lia).
    rewrite bins_even_share by lia. reflexivity. }
  rewrite Ha in Hg. cbn [bind] in Hg.
  destruct (groups_with_even ng q (sorted lines) 0 Hq53) as (segs & Hs & Hlen & Hsegs).
  { rewrite <- (forallb_perm reads lines (sorted lines) (sorted_perm lines)). exact Hl. }
  exists segs. split; [now rewrite Hg|].
  split; [rewrite Hlen, sorted_length; unfold ng; lia|].
  intros j seg Hj. destruct (Hsegs j seg Hj) as (Hlj & a & b & Ha' & Hb' & Hseg).
  split; [exact Hlj|]. exists a, b. repeat split; try assumption.
Qed.

Lemma even_groups_share_the_stops_witness :
  exists segs,
    gradient (ramp 4) = Ok (List.concat segs) /\ Z.of_nat (List.length segs) = 4 - 1.
Proof.
  destruct (even_groups_share_the_stops (ramp 4) 85) as (segs & H1 & H2 & _);
    [reflexivity | cbn; lia | reflexivity | lia | reflexivity |].
  exists segs. split; [exact H1 | exact H2].
Defined.

(** *** The GeoServer styles *)

Lemma css_string_writes G : forall g,
  css_string (fold_left emit G g) = css_string g ++ concat_strings (map css_entry G).
Proof.
  induction G as [|st G IH]; intros g; cbn [fold_left map concat_strings fold_right].
  - now rewrite append_nil_r.
  - rewrite IH. cbn [emit css_string]. fold (concat_strings (map css_entry G)).
    unfold css_entry. now rewrite !append_assoc.
Qed.

Lemma sld_string_writes G : forall g,
  sld_string (fold_left emit G g) = sld_string g ++ concat_strings (map sld_entry G).
Proof.
  induction G as [|st G IH]; intros g; cbn [fold_left map concat_strings fold_right].
  - now rewrite append_nil_r.
  - rewrite IH. cbn [emit sld_string]. fold (concat_strings (map sld_entry G)).
    unfold sld_entry. now rewrite !append_assoc.
Qed.

Lemma segment_stops_opacity sh fh sv ev n so eo ex stops :
  segment_stops sh fh sv ev n so eo ex = Ok stops ->
  Forall (fun st => opacity st = so \/ opacity st = eo \/ opacity st = PyInt 1) stops.
Proof.
  unfold segment_stops. intros H.
  apply bind_Ok in H as (delta & _ & H).
  apply bind_Ok in H as (s & _ & H).
  apply bind_Ok in H as (f & _ & H).
  apply stops_loop_nth in H as (_ & H).
  apply Forall_forall. intros st Hin.
  apply In_nth_error in Hin as (i & Hi).
  apply H in Hi. apply step_inv in Hi as (_ & _ & Ho & _). rewrite Ho.
  destruct (0 + Z.of_nat i =? 0); [now left|].
  destruct (0 + Z.of_nat i =? n - 1); [right; now left | right; now right].
Qed.

Lemma groups_with_opacity ng lines : forall i ns G,
  groups_with ng i lines ns = Ok G ->
  Forall (fun st => opacity st = PyInt 1
                    \/ exists l, In l lines /\ opacity st = opacity_of l) G.
Proof.
  induction lines as [|a l IH]; intros i ns G H.
  { cbn in H. injection H as <-. constructor. }
  destruct l as [|b rest].
  { destruct ns; cbn in H; injection H as <-; constructor. }
  destruct ns as [|n ns].
  { cbn in H. injection H as <-. constructor. }
  rewrite groups_with_cons in H.
  apply bind_Ok in H as (here & Hh & H).
  apply bind_Ok in H as (rest_stops & Hr & H). injection H as <-.
  apply Forall_app. split.
  - eapply Forall_impl; [|exact (segment_stops_opacity _ _ _ _ _ _ _ _ _ Hh)].
    cbn beta. intros st [Ho|[Ho|Ho]].
    + right. exists a. split; [now left | exact Ho].
    + right. exists b. split; [right; now left | exact Ho].
    + now left.
  - eapply Forall_impl; [|exact (IH _ _ _ Hr)].
    cbn beta. intros st [Ho|(l & Hl & Ho)]; [now left|].
    right. exists l. split; [now right | exact Ho].
Qed.

Lemma gradient_opacity lines G :
  gradient lines = Ok G ->
  Forall (fun st => opacity st = PyInt 1
                    \/ exists l, In l lines /\ opacity st = opacity_of l) G.
Proof.
  intros H. pose proof (gradient_uses_allocation lines) as Hg. cbv zeta in Hg.
  rewrite Hg in H. apply bind_Ok in H as (ns & _ & H).
  eapply Forall_impl; [|exact (groups_with_opacity _ _ _ _ _ H)].
  cbn beta. intros st [Ho|(l & Hl & Ho)]; [now left|].
  right. exists l. split; [|exact Ho].
  eapply Permutation_in; [apply Permutation_sym, sorted_perm | exact Hl].
Qed.

(** X10: when the run returns, the GeoServer CSS style and the
    GeoServer SLD style are one entry for each stop of the gradient, in
    the order of assembly, between a fixed header and a fixed footer,
    and the stop list is one colour and label for each stop.  An entry
    carries the colour, the label and the opacity of its stop, and that
    opacity is the integer 1 (written [1]) or the opacity of an input
    line. *)
Theorem geoserver_styles_follow_the_stops lines o :
  run lines = Ok o ->
  exists G,
    gradient lines = Ok G
    /\ out_geoserverCSS o = css_header ++ concat_strings (map css_entry G) ++ css_footer
    /\ out_geoserverSLD o = sld_header ++ concat_strings (map sld_entry G) ++ sld_footer
    /\ out_stops o = dumps_stops (map (fun st => (hex_color st, stop_str st)) G)
    /\ Forall
         (fun st =>
            (opacity st = PyInt 1 /\ opacityStr st = "1")
            \/ exists l, In l lines /\ opacity st = opacity_of l)
         G.
Proof.
  unfold run. intros H. apply bind_Ok in H as (g & Hg & H). injection H as <-.
  apply run_globals_Ok in Hg as (G & HG & ->). exists G.
  split; [exact HG|].
  cbn [write_outputs out_geoserverCSS out_geoserverSLD out_stops
       finish_geoserver_string css_string sld_string CSS_COLOR_MAP].
  split; [rewrite css_string_writes, append_assoc; reflexivity|].
  split; [rewrite sld_string_writes, append_assoc; reflexivity|].
  split; [rewrite CSS_COLOR_MAP_writes; reflexivity|].
  eapply Forall_impl; [|exact (gradient_opacity _ _ HG)].
  cbn beta. intros st [Ho|Ho]; [left | right; exact Ho].
  split; [exact Ho|]. unfold opacityStr. rewrite Ho. reflexivity.
Qed.

Lemma geoserver_styles_follow_the_stops_witness :
  match run two_lines with
  | Ok o => exists G, gradient two_lines = Ok G
                      /\ out_geoserverCSS o
                         = css_header ++ concat_strings (map css_entry G) ++ css_footer
  | Raise _ => False
  end.
Proof.
  destruct (run two_lines) as [o|e] eqn:E.
  - destruct (geoserver_styles_follow_the_stops two_lines o E) as (G & H1 & H2 & _).
    exists G. auto.
  - vm_compute in E. discriminate.
Defined.

(** *** The keys of the colour-to-range dictionary *)

Lemma COLOR_VAL_MAP_keys G : forall g,
  map fst (COLOR_VAL_MAP (fold_left emit G g))
  = fold_left add_key (map hex_color G) (map fst (COLOR_VAL_MAP g)).
Proof.
  induction G as [|st G IH]; intros g; cbn [fold_left map]; [reflexivity|].
  rewrite IH. cbn [emit COLOR_VAL_MAP]. now rewrite dict_set_keys.
Qed.

Lemma existsb_eqb_In k keys : existsb (String.eqb k) keys = true <-> In k keys.
Proof.
  rewrite existsb_exists. split.
  - intros (x & Hin & Hx). apply String.eqb_eq in Hx. now subst.
  - intros Hin. exists k. split; [exact Hin | apply String.eqb_refl].
Qed.

Lemma first_seen_In l c : In c (first_seen l) <-> In c l.
Proof.
  unfold first_seen. rewrite <- in_rev, nodup_In, <- in_rev. reflexivity.
Qed.

Lemma first_seen_snoc l c :
  first_seen (l ++ [c]) = add_key (first_seen l) c.
Proof.
  unfold add_key.
  destruct (existsb (String.eqb c) (first_seen l)) eqn:E.
  - assert (Hin : In c l) by (apply first_seen_In, existsb_eqb_In; exact E).
    unfold first_seen. rewrite rev_app_distr. cbn [rev app nodup].
    destruct (in_dec string_dec c (rev l)) as [_|Hn]; [reflexivity|].
    exfalso. apply Hn. apply -> in_rev. exact Hin.
  - assert (Hn : ~ In c l).
    { intros Hin. apply first_seen_In, existsb_eqb_In in Hin. congruence. }
    unfold first_seen. rewrite rev_app_distr. cbn [rev app nodup].
    destruct (in_dec string_dec c (rev l)) as [Hin|_]; [|reflexivity].
    exfalso. apply Hn. apply <- in_rev. exact Hin.
Qed.

Lemma add_keys_first_seen l : fold_left add_key l [] = first_seen l.
Proof.
  induction l as [|c l IH] using rev_ind; [reflexivity|].
  now rewrite fold_left_app, IH, first_seen_snoc.
Qed.

Lemma first_seen_length l : (List.length (first_seen l) <= List.length l)%nat.
Proof.
  unfold first_seen. rewrite length_rev.
  rewrite <- (length_rev l). generalize (rev l). clear l.
  induction l as [|c l IH]; cbn [nodup List.length]; [lia|].
  destruct (in_dec string_dec c l); cbn [List.length]; lia.
Qed.

(** X11: when the run returns, the keys of the colour-to-range
    dictionary are the distinct colours of the stops, each once, in the
    order in which the colours first occur in the gradient; the number
    that the run reports is the number of these colours, at most the
    number of stops. *)
Theorem range_map_keys_are_the_distinct_colours lines g :
  run_globals lines = Ok g ->
  exists G,
    gradient lines = Ok G
    /\ map fst (COLOR_VAL_MAP g) = first_seen (map hex_color G)
    /\ (forall c, In c (map fst (COLOR_VAL_MAP g)) <-> exists st, In st G /\ hex_color st = c)
    /\ report g
       = "Complete. Distinct Color Mappings: "
           ++ str_int (Z.of_nat (List.length (first_seen (map hex_color G))))
    /\ (List.length (COLOR_VAL_MAP g) <= List.length G)%nat.
Proof.
  intros H. apply run_globals_Ok in H as (G & HG & ->). exists G.
  split; [exact HG|].
  assert (Hk : map fst (COLOR_VAL_MAP
                 (finish_geoserver_string
                    (fold_left emit G (start_geoserver_string initial_globals))))
               = first_seen (map hex_color G)).
  { cbn [finish_geoserver_string COLOR_VAL_MAP]. rewrite COLOR_VAL_MAP_keys.
    cbn [start_geoserver_string initial_globals COLOR_VAL_MAP map].
    apply add_keys_first_seen. }
  split; [exact Hk|]. split; [|split].
  - intros c. rewrite Hk, first_seen_In, in_map_iff. split.
    + intros (st & Hc & Hin). now exists st.
    + intros (st & Hin & Hc). now exists st.
  - unfold report. rewrite <- Hk, length_map. reflexivity.
  - rewrite <- (length_map fst), Hk.
    etransitivity; [apply first_seen_length|]. now rewrite length_map.
Qed.

Lemma range_map_keys_are_the_distinct_colours_witness :
  match run_globals two_lines with
  | Ok g => exists G, gradient two_lines = Ok G
                      /\ map fst (COLOR_VAL_MAP g) = first_seen (map hex_color G)
  | Raise _ => False
  end.
Proof.
  destruct (run_globals two_lines) as [g|e] eqn:E.
  - destruct (range_map_keys_are_the_distinct_colours two_lines g E) as (G & H1 & H2 & _).
    exists G. auto.
  - vm_compute in E. discriminate.
Defined.

(** *** Sorting keeps the order of lines with equal values *)

Lemma SFltb_cotrans x y z :
  SFltb z x = true -> SFltb y x = false -> SFltb z y = false -> y = S754_nan.
Proof.
  unfold SFltb.
  destruct x as [sx|sx| |sx mx ex], y as [sy|sy| |sy my ey], z as [sz|sz| |sz mz ez];
    cbn [SFcompare]; intros H1 H2 H3; try discriminate; try reflexivity;
    exfalso;
    try (destruct sx; try discriminate); try (destruct sy; try discriminate);
    try (destruct sz; try discriminate);
    cbn [CompOpp] in *; compare_cases; subst; cbn [CompOpp] in *;
    try discriminate; try lia.
Qed.

Lemma SFltb_not_equal x y v :
  SFltb y x = true -> SFeqb y v = true -> SFeqb x v = true -> False.
Proof.
  unfold SFltb, SFeqb.
  destruct x as [sx|sx| |sx mx ex], y as [sy|sy| |sy my ey], v as [sv|sv| |sv mv ev];
    cbn [SFcompare]; intros H1 H2 H3; try discriminate;
    try (destruct sx; try discriminate); try (destruct sy; try discriminate);
    try (destruct sv; try discriminate);
    cbn [CompOpp] in *; compare_cases; subst; cbn [CompOpp] in *;
    try discriminate; try lia.
Qed.

Lemma ltb_cotrans (x y z : float) :
  (y =? y)%float = true ->
  (y <? x)%float = false -> (z <? y)%float = false -> (z <? x)%float = false.
Proof.
  rewrite eqb_spec, !ltb_spec. intros Hy H1 H2.
  destruct (SFltb (Prim2SF z) (Prim2SF x)) eqn:E; [|reflexivity].
  rewrite (SFltb_cotrans _ _ _ E H1 H2) in Hy. discriminate Hy.
Qed.

Lemma ltb_not_equal (x y v : float) :
  (y <? x)%float = true -> (y =? v)%float = true -> (x =? v)%float = false.
Proof.
  rewrite !eqb_spec, ltb_spec. intros H1 H2.
  destruct (SFeqb (Prim2SF x) (Prim2SF v)) eqn:E; [|reflexivity].
  exfalso. exact (SFltb_not_equal _ _ _ H1 H2 E).
Qed.

Lemma insert_line_not_after x l :
  Forall (fun y => has_number y = true) l ->
  StronglySorted not_after l -> StronglySorted not_after (insert_line x l).
Proof.
  induction l as [|y l IH]; intros Hn Hl; cbn [insert_line].
  - constructor; constructor.
  - inversion Hn as [|? ? Hy Hn']; subst. inversion Hl as [|? ? Hl' Hys]; subst.
    destruct (value y <? value x)%float eqn:E.
    + constructor; [auto|].
      eapply Permutation_Forall; [apply insert_line_perm|].
      constructor; [|exact Hys]. unfold not_after. now apply ltb_asym.
    + constructor; [exact Hl|]. constructor; [exact E|].
      eapply Forall_impl; [|exact Hys]. intros z Hz. unfold not_after in *.
      apply (ltb_cotrans (value x) (value y) (value z)); assumption.
Qed.

Lemma filter_insert_line v x l :
  filter (valued v) (insert_line x l)
  = if valued v x then x :: filter (valued v) l else filter (valued v) l.
Proof.
  induction l as [|y l IH]; cbn [insert_line]; [reflexivity|].
  destruct (value y <? value x)%float eqn:E; [|reflexivity].
  cbn [filter]. rewrite IH.
  destruct (valued v y) eqn:Ey; [|reflexivity].
  unfold valued in *. now rewrite (ltb_not_equal _ _ _ E Ey).
Qed.

(** X12: the sort of the lines is stable.  For lines whose values are
    numbers, the sorted list holds the same lines, no line stands before
    a line of smaller value, and the lines of any one value keep the
    order they have in the file. *)
Theorem sorted_is_stable (lines : list line) :
  forallb has_number lines = true ->
  Permutation lines (sorted lines)
  /\ StronglySorted not_after (sorted lines)
  /\ forall v, filter (valued v) (sorted lines) = filter (valued v) lines.
Proof.
  intros Hn. split; [apply sorted_perm|]. split.
  - induction lines as [|x l IH]; cbn [sorted fold_right]; [constructor|].
    cbn [forallb] in Hn. apply andb_true_iff in Hn. destruct Hn as [_ Hn].
    apply insert_line_not_after; [|now apply IH].
    eapply Permutation_Forall; [apply sorted_perm|].
    apply Forall_forall. rewrite forallb_forall in Hn. exact Hn.
  - intros v. clear Hn. induction lines as [|x l IH]; [reflexivity|].
    change (sorted (x :: l)) with (insert_line x (sorted l)).
    rewrite filter_insert_line, IH. reflexivity.
Qed.

Lemma sorted_is_stable_witness :
  sorted [Line "#000002" 1 None; Line "#000001" 0 None; Line "#000003" 1 None]
  = [Line "#000001" 0 None; Line "#000002" 1 None; Line "#000003" 1 None]
  /\ forall v,
       filter (valued v)
         (sorted [Line "#000002" 1 None; Line "#000001" 0 None; Line "#000003" 1 None])
       = filter (valued v)
           [Line "#000002" 1 None; Line "#000001" 0 None; Line "#000003" 1 None].
Proof.
  split; [reflexivity|].
  apply (sorted_is_stable
           [Line "#000002" 1 None; Line "#000001" 0 None; Line "#000003" 1 None]).
  reflexivity.
Defined.

(** *** The records of the CSV file *)

Lemma split_on_cons sep s : exists field fields, split_on sep s = field :: fields.
Proof.
  destruct s as [|c rest]; cbn [split_on]; [now eexists; eexists|].
  destruct (Ascii.eqb c sep); [now eexists; eexists|].
  destruct (split_on sep rest); now eexists; eexists.
Qed.

Lemma join_cons_char sep c field fields :
  join sep (String c field :: fields) = String c (join sep (field :: fields)).
Proof. destruct fields; reflexivity. Qed.

Lemma join_split_on sep s :
  join (String sep EmptyString) (split_on sep s) = s.
Proof.
  induction s as [|c rest IH]; [reflexivity|].
  cbn [split_on]. destruct (Ascii.eqb_spec c sep) as [->|Hc].
  - destruct (split_on_cons sep rest) as (f & fs & E). rewrite E in *.
    change (join (String sep "") ("" :: f :: fs))
      with (String sep (join (String sep "") (f :: fs))).
    now rewrite IH.
  - destruct (split_on_cons sep rest) as (f & fs & E). rewrite E in *.
    now rewrite join_cons_char, IH.
Qed.

Lemma split_on_lacks sep s :
  Forall (fun field => lacks sep field = true) (split_on sep s).
Proof.
  induction s as [|c rest IH]; cbn [split_on]; [now repeat constructor|].
  destruct (Ascii.eqb c sep) eqn:E; [now constructor|].
  destruct (split_on sep rest) as [|f fs]; [repeat constructor; cbn [lacks]; now rewrite E|].
  inversion IH as [|? ? Hf Hfs]; subst.
  constructor; [cbn [lacks]; now rewrite E, Hf | exact Hfs].
Qed.

Lemma split_on_keeps x sep s :
  lacks x s = true -> Forall (fun field => lacks x field = true) (split_on sep s).
Proof.
  induction s as [|c rest IH]; cbn [split_on lacks]; intros H; [now repeat constructor|].
  apply andb_true_iff in H. destruct H as [Hc Hr]. specialize (IH Hr).
  destruct (Ascii.eqb c sep); [now constructor|].
  destruct (split_on sep rest) as [|f fs]; [repeat constructor; cbn [lacks]; now rewrite Hc|].
  inversion IH as [|? ? Hf Hfs]; subst.
  constructor; [cbn [lacks]; now rewrite Hc, Hf | exact Hfs].
Qed.

Lemma readlines_lines text : Forall line_of_text (readlines text).
Proof.
  induction text as [|c rest IH]; cbn [readlines]; [constructor|].
  destruct (Ascii.eqb_spec c lf) as [->|Hc].
  - constructor; [constructor | exact IH].
  - assert (E : Ascii.eqb c lf = false) by now apply Ascii.eqb_neq.
    destruct (readlines rest) as [|l ls]; [repeat constructor; exact E|].
    inversion IH as [|? ? Hl Hls]; subst.
    constructor; [now apply line_more | exact Hls].
Qed.

Lemma readlines_nil text : readlines text = [] -> text = "".
Proof.
  destruct text as [|c rest]; [reflexivity|]. cbn [readlines].
  destruct (Ascii.eqb c lf); [discriminate|]. destruct (readlines rest); discriminate.
Qed.

Lemma rstrip_char_cons x c s :
  Ascii.eqb c x = false -> rstrip_char x (String c s) = String c (rstrip_char x s).
Proof.
  intros E. cbn [rstrip_char]. rewrite E. destruct (rstrip_char x s); reflexivity.
Qed.

Lemma strip_line l : line_of_text l -> strip_char lf l = rstrip_char lf l.
Proof.
  unfold strip_char. intros [|c E|c l' E _].
  - reflexivity.
  - cbn [lstrip_char]. now rewrite E.
  - cbn [lstrip_char]. now rewrite E.
Qed.

Lemma strip_line_lacks l : line_of_text l -> lacks lf (strip_char lf l) = true.
Proof.
  intros H. rewrite (strip_line l H).
  induction H as [|c E|c l E H IH].
  - reflexivity.
  - rewrite rstrip_char_cons by exact E. cbn [lacks]. now rewrite E.
  - rewrite rstrip_char_cons by exact E. cbn [lacks]. now rewrite E, IH.
Qed.

Lemma chomp_cons c rest :
  rest <> "" -> chomp (String c rest) = String c (chomp rest).
Proof. destruct rest; [congruence | reflexivity]. Qed.

Lemma join_stripped_lines text :
  join nl (map (strip_char lf) (readlines text)) = chomp text.
Proof.
  induction text as [|c rest IH]; [reflexivity|].
  cbn [readlines]. destruct (Ascii.eqb_spec c lf) as [->|Hc].
  - cbn [map]. change (strip_char lf (String lf "")) with "".
    destruct rest as [|d rest']; [reflexivity|].
    rewrite chomp_cons by discriminate. rewrite <- IH.
    destruct (readlines (String d rest')) as [|l ls] eqn:E;
      [apply readlines_nil in E; discriminate|].
    reflexivity.
  - assert (E : Ascii.eqb c lf = false) by now apply Ascii.eqb_neq.
    pose proof (readlines_lines rest) as Hl.
    destruct (readlines rest) as [|l ls] eqn:Er.
    + apply readlines_nil in Er. subst rest. cbn [map join chomp].
      unfold strip_char. cbn [lstrip_char]. rewrite E. cbn [rstrip_char]. now rewrite E.
    + inversion Hl as [|? ? Hl1 _]; subst.
      assert (rest <> "") by (intros ->; discriminate Er).
      rewrite chomp_cons by assumption. rewrite <- IH. cbn [map].
      rewrite (strip_line (String c l)) by now apply line_more.
      rewrite rstrip_char_cons by exact E. rewrite <- (strip_line l Hl1).
      apply join_cons_char.
Qed.

Lemma universal_newlines_lacks raw : lacks cr (universal_newlines raw) = true.
Proof.
  assert (H : forall n raw, (String.length raw <= n)%nat ->
                lacks cr (universal_newlines raw) = true).
  { clear raw. induction n as [|n IH]; intros raw Hn.
    - destruct raw; [reflexivity | cbn in Hn; lia].
    - destruct raw as [|c rest]; [reflexivity|]. cbn [universal_newlines].
      cbn in Hn. destruct (Ascii.eqb c cr) eqn:Ec.
      + destruct rest as [|d rest']; [reflexivity|].
        destruct (Ascii.eqb d lf); cbn [lacks];
          change (Ascii.eqb lf cr) with false; cbn [negb andb];
          apply IH; cbn in Hn |- *; lia.
      + cbn [lacks]. rewrite Ec. cbn [negb andb]. apply IH. lia. }
  now apply (H (String.length raw)).
Qed.

Lemma rstrip_char_keeps x y s : lacks x s = true -> lacks x (rstrip_char y s) = true.
Proof.
  induction s as [|c s IH]; [reflexivity|]. cbn [lacks rstrip_char]. intros H.
  apply andb_true_iff in H. destruct H as [Hc Hs]. specialize (IH Hs).
  destruct (rstrip_char y s) as [|d r].
  - destruct (Ascii.eqb c y); [reflexivity | cbn [lacks]; now rewrite Hc].
  - cbn [lacks] in IH |- *. now rewrite Hc, IH.
Qed.

Lemma lstrip_char_keeps x y s : lacks x s = true -> lacks x (lstrip_char y s) = true.
Proof.
  induction s as [|c s IH]; [reflexivity|]. cbn [lacks lstrip_char]. intros H.
  destruct (Ascii.eqb c y); [|exact H].
  apply andb_true_iff in H. now apply IH.
Qed.

Lemma readlines_keeps x text :
  lacks x text = true -> Forall (fun l => lacks x l = true) (readlines text).
Proof.
  induction text as [|c rest IH]; cbn [readlines lacks]; intros H; [constructor|].
  apply andb_true_iff in H. destruct H as [Hc Hr]. specialize (IH Hr).
  destruct (Ascii.eqb c lf).
  - constructor; [cbn [lacks]; now rewrite Hc | exact IH].
  - destruct (readlines rest) as [|l ls]; [repeat constructor; cbn [lacks]; now rewrite Hc|].
    inversion IH as [|? ? Hl Hls]; subst.
    constructor; [cbn [lacks]; now rewrite Hc, Hl | exact Hls].
Qed.

(** X13: [read_csv_file] loses nothing but the ends of the lines.  The
    fields of the records, joined by commas, and the records, joined by
    [\n], give back the text of the file (as text mode reads it) up to
    the [\n] at its end: nothing is trimmed, unquoted or skipped. *)
Theorem read_csv_file_round_trip (raw : string) :
  join nl (map (join ",") (read_csv_file raw)) = chomp (universal_newlines raw).
Proof.
  unfold read_csv_file. rewrite map_map.
  rewrite <- join_stripped_lines. f_equal. apply map_ext.
  intros line. apply (join_split_on ","%char).
Qed.

(** X14: the records of [read_csv_file].  There is no record exactly
    when the file is empty; every record has at least one field, and no
    field holds a comma, a [\n] or a [\r].  (An empty line is thus a
    record of one empty field.) *)
Theorem read_csv_file_fields (raw : string) :
  (read_csv_file raw = [] <-> raw = "")
  /\ Forall
       (fun row =>
          row <> []
          /\ Forall
               (fun field =>
                  lacks "," field = true /\ lacks lf field = true
                  /\ lacks cr field = true)
               row)
       (read_csv_file raw).
Proof.
  split.
  - unfold read_csv_file. split.
    + intros H. apply map_eq_nil in H. apply readlines_nil in H.
      destruct raw as [|c rest]; [reflexivity|]. cbn [universal_newlines] in H.
      destruct (Ascii.eqb c cr); [|discriminate].
      destruct rest as [|d rest']; [discriminate|].
      destruct (Ascii.eqb d lf); discriminate.
    + now intros ->.
  - unfold read_csv_file. apply Forall_map.
    pose proof (readlines_lines (universal_newlines raw)) as Hl.
    pose proof (readlines_keeps cr _ (universal_newlines_lacks raw)) as Hc.
    apply Forall_forall. intros line Hin.
    rewrite Forall_forall in Hl, Hc. specialize (Hl line Hin). specialize (Hc line Hin).
    split.
    + destruct (split_on_cons "," (strip_char lf line)) as (f & fs & E). now rewrite E.
    + pose proof (split_on_lacks "," (strip_char lf line)) as H1.
      pose proof (split_on_keeps lf "," _ (strip_line_lacks line Hl)) as H2.
      assert (H3 : lacks cr (strip_char lf line) = true)
        by (unfold strip_char; now apply rstrip_char_keeps, lstrip_char_keeps).
      apply (split_on_keeps cr ",") in H3.
      rewrite Forall_forall in H1, H2, H3 |- *. intros field Hf. auto.
Qed.

(** *** The run on records *)

Lemma lift_bind {A B : Type} (c : result A) (k : A -> result B) :
  lift (bind c k) = and_then (lift c) (fun a => lift (k a)).
Proof. destruct c; reflexivity. Qed.

Section RecordsFacts.
Variable float_of_string : string -> option float.

Local Abbreviation key' := (key float_of_string).
Local Abbreviation keys' := (keys float_of_string).
Local Abbreviation line_of' := (line_of float_of_string).
Local Abbreviation opacity_field' := (opacity_field float_of_string).
Local Abbreviation run_rows' := (run_rows float_of_string).
Local Abbreviation stands_for := (stands_for float_of_string).

Lemma line_of_fields row l :
  line_of' row = Some l ->
  key' row = Returns (value l)
  /\ item row 0 = Returns (color l)
  /\ opacity_field' row = Returns (opacity_of l).
Proof.
  unfold line_of, key, opacity_field, item, float_str.
  destruct row as [|c [|v rest]]; try discriminate.
  cbn [nth_error and_then].
  destruct (float_of_string v) as [x|]; [|discriminate].
  destruct rest as [|o rest'].
  - intros H. injection H as <-. repeat split.
  - destruct (float_of_string o) as [y|] eqn:Eo; [|discriminate].
    intros H. injection H as <-.
    cbn [List.length Nat.ltb Nat.leb nth_error and_then]. rewrite Eo. repeat split.
Qed.

Lemma fields_line_of row k q :
  key' row = Returns k -> opacity_field' row = Returns q ->
  exists l, line_of' row = Some l.
Proof.
  unfold line_of, key, opacity_field, item, float_str.
  destruct row as [|c [|v rest]]; try discriminate.
  cbn [nth_error and_then].
  destruct (float_of_string v) as [x|]; [|discriminate].
  intros _. destruct rest as [|o rest']; [now eexists|].
  cbn [List.length Nat.ltb Nat.leb nth_error and_then].
  destruct (float_of_string o) as [y|]; [now eexists | discriminate].
Qed.

Lemma keys_of_lines rows : forall lines,
  map line_of' rows = map Some lines ->
  keys' rows = Returns (combine (map value lines) rows).
Proof.
  induction rows as [|row rows IH]; intros [|l lines] H; try discriminate H.
  - reflexivity.
  - cbn [map] in H. injection H as Hl H. cbn [keys].
    destruct (line_of_fields row l Hl) as (-> & _). cbn [and_then].
    rewrite (IH lines H). reflexivity.
Qed.

Lemma combine_stands_for rows : forall lines,
  map line_of' rows = map Some lines ->
  Forall2 stands_for (combine (map value lines) rows) lines.
Proof.
  induction rows as [|row rows IH]; intros [|l lines] H; try discriminate H.
  - constructor.
  - cbn [map] in H. injection H as Hl H. cbn [map combine].
    constructor; [now split | now apply IH].
Qed.

Lemma insert_row_stands_for x l ks ls :
  stands_for x l -> Forall2 stands_for ks ls ->
  Forall2 stands_for (insert_row x ks) (insert_line l ls).
Proof.
  intros Hx. induction 1 as [|y ly ks ls Hy Hks IH]; cbn [insert_row insert_line].
  - constructor; [exact Hx | constructor].
  - destruct Hx as [Hx1 Hx2]. destruct Hy as [Hy1 Hy2]. rewrite Hx1, Hy1.
    destruct (value ly <? value l)%float.
    + constructor; [now split | exact IH].
    + constructor; [now split|]. constructor; [now split | exact Hks].
Qed.

Lemma sorted_stands_for ks ls :
  Forall2 stands_for ks ls ->
  Forall2 stands_for (fold_right insert_row [] ks) (sorted ls).
Proof.
  induction 1 as [|x l ks ls Hx Hks IH]; cbn [fold_right sorted]; [constructor|].
  now apply insert_row_stands_for.
Qed.

Lemma groups_loop_rows_cons ng bpg i a b rest rem g :
  groups_loop_rows float_of_string ng bpg i (a :: b :: rest) rem g
  = (start_val <-- key' a ;;
     end_val <-- key' b ;;
     start_color <-- item a 0 ;;
     end_color <-- item b 0 ;;
     start_opacity <-- opacity_field' a ;;
     end_opacity <-- opacity_field' b ;;
     g' <-- lift (generate_gradient_values start_color end_color start_val end_val
                    (num_bins_of bpg rem) start_opacity end_opacity
                    (negb (i =? ng - 1)) g) ;;
     groups_loop_rows float_of_string ng bpg (i + 1) (b :: rest)
       (rem - num_bins_of bpg rem) g').
Proof. reflexivity. Qed.

Lemma groups_loop_rows_lift ng bpg rows lines :
  Forall2 (fun row l => line_of' row = Some l) rows lines ->
  forall i rem g,
    groups_loop_rows float_of_string ng bpg i rows rem g
    = lift (groups_loop ng bpg i lines rem g).
Proof.
  induction 1 as [|a la rows lines Ha Hrows IH]; intros i rem g; [reflexivity|].
  destruct Hrows as [|b lb rows lines Hb Hrows]; [reflexivity|].
  rewrite groups_loop_cons, lift_bind, groups_loop_rows_cons.
  destruct (line_of_fields a la Ha) as (-> & -> & ->).
  destruct (line_of_fields b lb Hb) as (-> & -> & ->).
  cbn [and_then].
  destruct (generate_gradient_values (color la) (color lb) (value la) (value lb)
              (num_bins_of bpg rem) (opacity_of la) (opacity_of lb)
              (negb (i =? ng - 1)) g) as [g'|e]; cbn [lift and_then]; [|reflexivity].
  apply IH.
Qed.

Lemma run_rows_of_lines rows lines :
  map line_of' rows = map Some lines -> run_rows' rows = lift (run lines).
Proof.
  intros H. unfold run_rows, sorted_rows. rewrite (keys_of_lines rows lines H).
  cbn [and_then].
  pose proof (sorted_stands_for _ _ (combine_stands_for rows lines H)) as Hs.
  set (ks := fold_right insert_row [] (combine (map value lines) rows)) in *.
  assert (Hlen : List.length (map snd ks) = List.length (sorted lines))
    by (rewrite length_map; exact (Forall2_length Hs)).
  assert (Hl : Forall2 (fun row l => line_of' row = Some l) (map snd ks) (sorted lines)).
  { clear Hlen. induction Hs as [|x l ks' ls' [_ Hx] _ IH]; cbn [map]; constructor; auto. }
  rewrite Hlen. unfold run, run_globals.
  destruct (ceil_div MAX_NUM_COLORS (Z.of_nat (List.length (sorted lines)) - 1))
    as [bpg|e]; cbn [lift and_then bind]; [|reflexivity].
  rewrite (groups_loop_rows_lift _ _ _ _ Hl).
  destruct (groups_loop (Z.of_nat (List.length (sorted lines)) - 1) bpg 0 (sorted lines)
              MAX_NUM_COLORS (start_geoserver_string initial_globals)) as [g|e];
    reflexivity.
Qed.

Lemma keys_returns rows ks :
  keys' rows = Returns ks ->
  map snd ks = rows /\ Forall (fun row => exists k, key' row = Returns k) rows.
Proof.
  revert ks. induction rows as [|row rows IH]; intros ks H; cbn [keys] in H.
  - injection H as <-. split; [reflexivity | constructor].
  - destruct (key' row) as [k|r] eqn:Ek; [|discriminate]. cbn [and_then] in H.
    destruct (keys' rows) as [ks'|r]; [|discriminate]. cbn [and_then] in H.
    injection H as <-. destruct (IH ks' eq_refl) as [H1 H2].
    split; [cbn [map snd]; now rewrite H1 | constructor; [now exists k | exact H2]].
Qed.

Lemma insert_row_perm x l : Permutation (x :: l) (insert_row x l).
Proof.
  induction l as [|y l IH]; cbn [insert_row]; [reflexivity|].
  destruct (fst y <? fst x)%float; [|reflexivity].
  rewrite perm_swap. now apply perm_skip.
Qed.

Lemma sort_rows_perm ks : Permutation ks (fold_right insert_row [] ks).
Proof.
  induction ks as [|x ks IH]; cbn [fold_right]; [reflexivity|].
  rewrite <- insert_row_perm. now apply perm_skip.
Qed.

Lemma groups_loop_rows_returns ng bpg rows : forall i rem g g',
  groups_loop_rows float_of_string ng bpg i rows rem g = Returns g' ->
  (2 <= List.length rows)%nat ->
  Forall (fun row => exists q, opacity_field' row = Returns q) rows.
Proof.
  induction rows as [|a rows IH]; intros i rem g g' H H2; [cbn in H2; lia|].
  destruct rows as [|b rest]; [cbn in H2; lia|].
  rewrite groups_loop_rows_cons in H.
  destruct (key' a); [|discriminate]. cbn [and_then] in H.
  destruct (key' b); [|discriminate]. cbn [and_then] in H.
  destruct (item a 0); [|discriminate]. cbn [and_then] in H.
  destruct (item b 0); [|discriminate]. cbn [and_then] in H.
  destruct (opacity_field' a) as [qa|] eqn:Ea; [|discriminate]. cbn [and_then] in H.
  destruct (opacity_field' b) as [qb|] eqn:Eb; [|discriminate]. cbn [and_then] in H.
  match type of H with and_then ?c _ = _ => destruct c as [g1|]; [|discriminate] end.
  cbn [and_then] in H.
  constructor; [now exists qa|].
  destruct rest as [|c rest]; [constructor; [now exists qb | constructor]|].
  apply (IH _ _ _ _ H). cbn. lia.
Qed.

Lemma lines_of_rows rows :
  Forall (fun row => exists l, line_of' row = Some l) rows ->
  exists lines, map line_of' rows = map Some lines.
Proof.
  induction 1 as [|row rows [l Hl] _ [lines IH]]; [now exists []|].
  exists (l :: lines). cbn [map]. now rewrite Hl, IH.
Qed.

(** X15: the run on records is the run on the lines they stand for.
    When every record has a colour, a value that [float] reads and, if
    it has a third field, an opacity that [float] reads, the run on the
    records returns what the run on these lines returns, or raises what
    it raises; and the run on records returns in no other case.  Fields
    after the third are ignored. *)
Theorem run_rows_is_run_on_lines (rows : list (list string)) :
  (forall lines,
     map line_of' rows = map Some lines -> run_rows' rows = lift (run lines))
  /\ (forall o,
        run_rows' rows = Returns o
        <-> exists lines, map line_of' rows = map Some lines /\ run lines = Ok o).
Proof.
  split; [apply run_rows_of_lines|].
  intros o. split.
  - intros H.
    assert (Hall : Forall (fun row => exists l, line_of' row = Some l) rows).
    { unfold run_rows, sorted_rows in H.
      destruct (keys' rows) as [ks|r] eqn:Ek; [|discriminate]. cbn [and_then] in H.
      destruct (keys_returns rows ks Ek) as [Hrows Hkeys].
      set (srt := map snd (fold_right insert_row [] ks)) in *.
      assert (Hp : Permutation rows srt).
      { rewrite <- Hrows. unfold srt. apply Permutation_map, sort_rows_perm. }
      destruct (ceil_div MAX_NUM_COLORS (Z.of_nat (List.length srt) - 1)) as [bpg|e] eqn:Ec;
        [|discriminate]. cbn [lift and_then] in H.
      match type of H with and_then ?c _ = _ => destruct c as [g|] eqn:Eg; [|discriminate] end.
      destruct (Nat.le_gt_cases 2 (List.length srt)) as [H2|H2].
      - pose proof (groups_loop_rows_returns _ _ _ _ _ _ _ Eg H2) as Ho.
        apply (Permutation_Forall (Permutation_sym Hp)) in Ho.
        rewrite Forall_forall in Ho, Hkeys |- *. intros row Hin.
        destruct (Hkeys row Hin) as [k Hk]. destruct (Ho row Hin) as [q Hq].
        exact (fields_line_of row k q Hk Hq).
      - destruct srt as [|x [|y srt']] eqn:Es; [| |cbn in H2; lia].
        + apply Permutation_sym, Permutation_nil in Hp. rewrite Hp. constructor.
        + exfalso. revert Ec. vm_compute. discriminate. }
    destruct (lines_of_rows rows Hall) as [lines Hl]. exists lines.
    split; [exact Hl|].
    rewrite (run_rows_of_lines rows lines Hl) in H.
    destruct (run lines); [now injection H as -> | discriminate].
  - intros (lines & Hl & Hr). now rewrite (run_rows_of_lines rows lines Hl), Hr.
Qed.

Lemma key_raises row r :
  key' row = Raises r ->
  r = (if (List.length row <? 2)%nat then IndexError else Raised ValueError).
Proof.
  unfold key, item, float_str. destruct row as [|c [|v rest]]; cbn [nth_error and_then].
  - intros H. now injection H as <-.
  - intros H. now injection H as <-.
  - destruct (float_of_string v); [discriminate|]. intros H. now injection H as <-.
Qed.

Lemma keys_raise good : forall bad rest r,
  Forall (fun row => exists k, key' row = Returns k) good ->
  key' bad = Raises r ->
  keys' (good ++ bad :: rest) = Raises r.
Proof.
  induction good as [|row good IH]; intros bad rest r Hg Hb; cbn [app keys].
  - now rewrite Hb.
  - inversion Hg as [|? ? [k Hk] Hg']; subst. rewrite Hk. cbn [and_then].
    now rewrite (IH bad rest r Hg' Hb).
Qed.

(** X16: the first record without a value stops the run.  When a record
    has fewer than two fields, or a second field that [float] does not
    read, and every record before it in the file has a value, the run
    raises IndexError in the first case and ValueError in the second,
    whatever the other records hold; this happens in the sort, before
    any stop is computed. *)
Theorem first_record_without_value_raises (good : list (list string))
    (bad : list string) (rest : list (list string)) (r : raised) :
  Forall (fun row => exists k, key' row = Returns k) good ->
  key' bad = Raises r ->
  run_rows' (good ++ bad :: rest) = Raises r
  /\ r = (if (List.length bad <? 2)%nat then IndexError else Raised ValueError).
Proof.
  intros Hg Hb. split; [|now apply key_raises].
  unfold run_rows, sorted_rows. now rewrite (keys_raise good bad rest r Hg Hb).
Qed.

Lemma keys_raise_in rows bad r0 :
  In bad rows -> key' bad = Raises r0 ->
  exists r, keys' rows = Raises r /\ (r = IndexError \/ r = Raised ValueError).
Proof.
  intros Hin Hb. induction rows as [|row rows IH]; [contradiction|]. cbn [keys].
  destruct (key' row) as [k|r] eqn:Ek.
  - cbn [and_then]. destruct Hin as [->|Hin]; [congruence|].
    destruct (IH Hin) as (r & -> & Hr). now exists r.
  - exists r. split; [reflexivity|]. rewrite (key_raises row r Ek).
    destruct (List.length row <? 2)%nat; [now left | now right].
Qed.

Lemma universal_newlines_unix s : lacks cr s = true -> universal_newlines s = s.
Proof.
  induction s as [|c s IH]; [reflexivity|]. cbn [lacks universal_newlines]. intros H.
  apply andb_true_iff in H. destruct H as [Hc Hs]. apply negb_true_iff in Hc.
  rewrite Hc. now rewrite IH.
Qed.

Lemma lacks_app x a b : lacks x (a ++ b) = lacks x a && lacks x b.
Proof.
  induction a as [|c a IH]; [reflexivity|].
  change ((String c a) ++ b) with (String c (a ++ b)). cbn [lacks].
  now rewrite IH, andb_assoc.
Qed.

Lemma readlines_app a t :
  readlines (a ++ String lf t)
  = (readlines (a ++ String lf EmptyString) ++ readlines t)%list.
Proof.
  induction a as [|c a IH].
  - change ("" ++ String lf t) with (String lf t).
    change ("" ++ String lf "") with (String lf "").
    cbn [readlines]. rewrite Ascii.eqb_refl. reflexivity.
  - change ((String c a) ++ String lf t) with (String c (a ++ String lf t)).
    change ((String c a) ++ String lf "") with (String c (a ++ String lf "")).
    cbn [readlines]. rewrite IH. destruct (Ascii.eqb c lf); [reflexivity|].
    destruct (readlines (a ++ String lf "")) as [|l ls] eqn:E; [|reflexivity].
    apply readlines_nil in E. destruct a; discriminate E.
Qed.

(** X17: a CSV file with an empty line cannot be processed.  For a file
    with Unix line ends that holds two [\n] in a row (an empty line
    between records or at the end of the file), the run raises
    IndexError or ValueError and returns nothing. *)
Theorem empty_line_raises (a b : string) :
  lacks cr a = true -> lacks cr b = true ->
  exists r,
    run_csv float_of_string (a ++ nl ++ nl ++ b) = Raises r
    /\ (r = IndexError \/ r = Raised ValueError).
Proof.
  intros Ha Hb. unfold run_csv, run_rows, sorted_rows.
  assert (Hin : In [""] (read_csv_file (a ++ nl ++ nl ++ b))).
  { unfold read_csv_file. rewrite universal_newlines_unix.
    - change (a ++ nl ++ nl ++ b) with (a ++ String lf (String lf b)).
      rewrite readlines_app. apply in_map_iff. exists (String lf "").
      split; [reflexivity|]. apply in_or_app. right.
      cbn [readlines]. rewrite Ascii.eqb_refl. now left.
    - rewrite !lacks_app, Ha, Hb. reflexivity. }
  destruct (keys_raise_in _ [""] IndexError Hin eq_refl) as (r & Hr & Hk).
  exists r. rewrite Hr. split; [reflexivity | exact Hk].
Qed.

End RecordsFacts.

Lemma first_record_without_value_raises_witness :
  run_rows one_digit_float [["#000000"; "0"]; [""]; ["#ffffff"; "9"]] = Raises IndexError.
Proof.
  apply (first_record_without_value_raises one_digit_float
           [["#000000"; "0"]] [""] [["#ffffff"; "9"]] IndexError).
  - repeat constructor. now eexists.
  - reflexivity.
Defined.

Lemma empty_line_raises_witness :
  exists r,
    run_csv one_digit_float ("#000000,0" ++ nl ++ nl ++ "#ffffff,9") = Raises r
    /\ (r = IndexError \/ r = Raised ValueError).
Proof.
  apply (empty_line_raises one_digit_float "#000000,0" "#ffffff,9"); reflexivity.
Defined.

Lemma run_rows_is_run_on_lines_witness :
  run_rows one_digit_float [["#ffffff"; "9"; "1"; "more"]; ["#000000"; "0"]]
  = lift (run [Line "#ffffff" 9 (Some 1%float); Line "#000000" 0 None]).
Proof.
  apply (proj1 (run_rows_is_run_on_lines one_digit_float
                  [["#ffffff"; "9"; "1"; "more"]; ["#000000"; "0"]])).
  reflexivity.
Defined.

(** *** Every stop has a valid colour *)

Lemma six_hex_digits_read s :
  six_hex_digits s = true ->
  exists r g b,
    hex_to_RGB s = Ok [r; g; b]
    /\ 0 <= r <= 255 /\ 0 <= g <= 255 /\ 0 <= b <= 255.
Proof.
  destruct s as [|c0 s]; [discriminate|]. cbn [six_hex_digits]. intros H.
  apply andb_true_iff in H. destruct H as [Hlen Hs]. apply Nat.eqb_eq in Hlen.
  destruct s as [|a1 [|a2 [|a3 [|a4 [|a5 [|a6 [|a7 s]]]]]]]; try discriminate Hlen.
  cbn [string_forallb] in Hs.
  repeat (apply andb_true_iff in Hs; let H := fresh "Hd" in destruct Hs as [H Hs]).
  destruct (pair_round_trips_spec a1 a2) as (r & Er & Hr & _); try assumption.
  destruct (pair_round_trips_spec a3 a4) as (g & Eg & Hg & _); try assumption.
  destruct (pair_round_trips_spec a5 a6) as (b & Eb & Hb & _); try assumption.
  exists r, g, b. repeat split; try lia.
  unfold hex_to_RGB. cbn [mapM substring]. rewrite Er, Eg, Eb. reflexivity.
Qed.

Lemma RGB_to_hex_valid r g b :
  0 <= r <= 255 -> 0 <= g <= 255 -> 0 <= b <= 255 ->
  valid_colour (RGB_to_hex [r; g; b]) = true
  /\ hex_to_RGB (RGB_to_hex [r; g; b]) = Ok [r; g; b].
Proof.
  intros Hr Hg Hb.
  destruct (two_hex_spec r Hr) as (c1 & c2 & Er & L1 & L2 & Ir).
  destruct (two_hex_spec g Hg) as (c3 & c4 & Eg & L3 & L4 & Ig).
  destruct (two_hex_spec b Hb) as (c5 & c6 & Eb & L5 & L6 & Ib).
  rewrite RGB_to_hex_three, Er, Eg, Eb. cbn [append]. split.
  - cbn [valid_colour String.length string_forallb].
    rewrite L1, L2, L3, L4, L5, L6. reflexivity.
  - unfold hex_to_RGB. cbn [mapM substring]. rewrite Ir, Ig, Ib. reflexivity.
Qed.

Lemma segment_stops_valid sh fh (sv ev : float) (n : Z) so eo (ex : bool) stops :
  n < 2 ^ 53 -> six_hex_digits sh = true -> six_hex_digits fh = true ->
  segment_stops sh fh sv ev n so eo ex = Ok stops ->
  Forall valid_stop stops.
Proof.
  intros Hn Hsh Hfh H.
  destruct (Z.le_gt_cases n 1) as [Hle|Hgt].
  - destruct (Z.eq_dec n 1) as [->|Hn1].
    + rewrite segment_stops_divides in H by (unfold divides_by_zero; reflexivity).
      discriminate.
    + pose proof (segment_stops_length _ _ _ _ _ _ _ _ _ H) as Hlen.
      replace (Z.to_nat n) with 0%nat in Hlen by lia.
      destruct stops; [constructor | discriminate].
  - destruct (six_hex_digits_read sh Hsh) as (r1 & g1 & b1 & Es & Hr1 & Hg1 & Hb1).
    destruct (six_hex_digits_read fh Hfh) as (r2 & g2 & b2 & Ef & Hr2 & Hg2 & Hb2).
    destruct (segment_stops_spec sh fh sv ev n so eo ex _ _ ltac:(lia) Es Ef)
      as (stops' & Hs & Hlen & Hnth).
    cbv zeta in Hnth. rewrite Hs in H. injection H as <-.
    apply Forall_forall. intros st Hin. apply In_nth_error in Hin as (i & Hi).
    assert (Hi' : (i < List.length stops')%nat)
      by (apply nth_error_Some; congruence).
    apply Hnth in Hi. apply step_inv in Hi as (Hv & Hc & _).
    assert (Hrs : channels_in_range [r1; g1; b1])
      by (exists r1, g1, b1; repeat split; lia).
    assert (Hrf : channels_in_range [r2; g2; b2])
      by (exists r2, g2, b2; repeat split; lia).
    assert (Hns : channels_nonneg [r1; g1; b1])
      by (repeat constructor; lia).
    assert (Hnf : channels_nonneg [r2; g2; b2])
      by (repeat constructor; lia).
    assert (Ht : 0 <= Z.of_nat i <= (if ex then n else n - 1)) by (destruct ex; lia).
    assert (Hsteps : 1 <= (if ex then n else n - 1) < 2 ^ 53) by (destruct ex; lia).
    destruct (channel_between _ _ n ex (Z.of_nat i) 0 Hrs Hrf Hns Hnf Ht Hsteps)
      as (c0 & E0 & B0 & _).
    destruct (channel_between _ _ n ex (Z.of_nat i) 1 Hrs Hrf Hns Hnf Ht Hsteps)
      as (c1 & E1 & B1 & _).
    destruct (channel_between _ _ n ex (Z.of_nat i) 2 Hrs Hrf Hns Hnf Ht Hsteps)
      as (c2 & E2 & B2 & _).
    cbn [mapM] in Hv. rewrite E0, E1, E2 in Hv. cbn [bind] in Hv.
    injection Hv as Hv. unfold between in *. cbn [nth] in *.
    assert (H0 : 0 <= c0 <= 255) by lia.
    assert (H1 : 0 <= c1 <= 255) by lia.
    assert (H2 : 0 <= c2 <= 255) by lia.
    destruct (RGB_to_hex_valid c0 c1 c2 H0 H1 H2) as [Hvalid Hback].
    unfold valid_stop. rewrite Hc, <- Hv.
    split; [exact Hvalid|]. split; [exact Hback|]. repeat constructor; lia.
Qed.

Lemma groups_with_valid ng lines : forall i ns G,
  Forall (fun n => 0 <= n < 2 ^ 53) ns ->
  forallb (fun l => six_hex_digits (color l)) lines = true ->
  groups_with ng i lines ns = Ok G ->
  Forall valid_stop G.
Proof.
  induction lines as [|a l IH]; intros i ns G Hr Hl H.
  { cbn in H. injection H as <-. constructor. }
  destruct l as [|b rest].
  { destruct ns; cbn in H; injection H as <-; constructor. }
  destruct ns as [|n ns].
  { cbn in H. injection H as <-. constructor. }
  rewrite groups_with_cons in H.
  apply bind_Ok in H as (here & Hh & H).
  apply bind_Ok in H as (rest_stops & Hrest & H). injection H as <-.
  inversion Hr as [|? ? Hn Hr']; subst.
  cbn [forallb] in Hl. apply andb_true_iff in Hl. destruct Hl as [Ha Hl].
  assert (Hb : six_hex_digits (color b) = true)
    by (cbn [forallb] in Hl; now apply andb_true_iff in Hl).
  apply Forall_app. split.
  - exact (segment_stops_valid _ _ _ _ _ _ _ _ _ (proj2 Hn) Ha Hb Hh).
  - exact (IH _ _ _ Hr' Hl Hrest).
Qed.

(** X18: every stop has a valid colour.  When the colour of every line
    is a character followed by six hexadecimal digits and the run
    returns, the colour of every stop is [#] and six hexadecimal digits
    in lower case, [hex_to_RGB] reads it back as the three channels of
    the stop, and these lie between 0 and 255. *)
Theorem stops_have_valid_colours (lines : list line) (G : list stop) :
  forallb (fun l => six_hex_digits (color l)) lines = true ->
  gradient lines = Ok G ->
  Forall valid_stop G.
Proof.
  intros Hl H. pose proof (gradient_uses_allocation lines) as Hg. cbv zeta in Hg.
  rewrite Hg in H. apply bind_Ok in H as (ns & Ha & H).
  apply (groups_with_valid _ _ _ _ _ (allocate_bounded _ _ Ha)) in H; [exact H|].
  rewrite <- (forallb_perm _ lines (sorted lines) (sorted_perm lines)). exact Hl.
Qed.

Lemma stops_have_valid_colours_witness :
  match gradient two_lines with
  | Ok G => Forall valid_stop G
  | Raise _ => False
  end.
Proof.
  destruct (gradient two_lines) as [G|e] eqn:E.
  - apply (stops_have_valid_colours two_lines G); [reflexivity | exact E].
  - vm_compute in E. discriminate.
Defined.

(** *** The last group *)

Lemma last_after (l : list Z) (x : Z) (l' : list Z) (d : Z) :
  last (l ++ x :: l') d = last (x :: l') d.
Proof.
  induction l as [|y l IH]; [reflexivity|].
  change ((y :: l) ++ x :: l')%list with (y :: (l ++ x :: l'))%list.
  cbn [last]. destruct (l ++ x :: l')%list eqn:E; [|exact IH].
  destruct l; discriminate E.
Qed.

Lemma last_nth_error (l : list Z) (d n : Z) :
  nth_error l (List.length l - 1) = Some n -> last l d = n.
Proof.
  induction l as [|x l IH]; [discriminate|].
  destruct l as [|y l].
  - cbn. intros H. now injection H.
  - intros H. change (last (x :: y :: l) d) with (last (y :: l) d). apply IH.
    replace (List.length (x :: y :: l) - 1)%nat with (S (List.length (y :: l) - 1)) in H
      by (cbn [List.length]; lia).
    exact H.
Qed.

Lemma last_zeros (l : list Z) (r : Z) (m : nat) (d : Z) :
  last (l ++ r :: repeat 0 m) d = match m with O => r | S _ => 0 end.
Proof.
  rewrite last_after.
  destruct m as [|m]; [reflexivity|].
  change (r :: repeat 0 (S m)) with ([r] ++ 0 :: repeat 0 m)%list.
  rewrite last_after.
  induction m as [|m IH]; [reflexivity|].
  change (0 :: repeat 0 (S m)) with ([0] ++ 0 :: repeat 0 m)%list.
  rewrite last_after. exact IH.
Qed.

Lemma allocate_last_bin (num_groups budget : Z) :
  1 <= num_groups -> 1 <= budget ->
  exists ns,
    allocate num_groups budget = Ok ns
    /\ Z.of_nat (List.length ns) = num_groups
    /\ (last ns 1 = 0 <-> ~ (num_groups | budget)).
Proof.
  intros Hg Hb.
  destruct (ceil_div_covers budget num_groups Hg ltac:(lia)) as [Hc0 Hc].
  unfold allocate, ceil_div. destruct (Z.eqb_spec num_groups 0); [lia|]. cbn [bind].
  set (bpg := - (- budget / num_groups)) in *.
  assert (Hbpg : 1 <= bpg).
  { destruct (Z.le_gt_cases 1 bpg) as [|Hlt]; [assumption|].
    assert (bpg = 0) by lia. rewrite H in Hc. lia. }
  assert (Hle : bpg <= budget).
  { unfold bpg.
    assert (- budget <= (- budget / num_groups)).
    { apply Z.div_le_lower_bound; [lia|]. nia. }
    lia. }
  assert (Hq : 1 <= budget / bpg) by (apply Z.div_le_lower_bound; lia).
  assert (Hqg : budget / bpg <= num_groups).
  { apply Z.lt_succ_r. apply Z.div_lt_upper_bound; [lia|]. nia. }
  assert (Hmod := Z.div_mod budget bpg ltac:(lia)).
  assert (Hmb := Z.mod_pos_bound budget bpg ltac:(lia)).
  assert (Hk : budget / bpg - 1 < Z.of_nat (Z.to_nat num_groups))
    by (rewrite Z2Nat.id by lia; lia).
  eexists. split; [reflexivity|]. split; [rewrite bins_length; lia|].
  rewrite (bins_shape bpg Hbpg _ _ Hle Hk), last_zeros.
  assert (Hrem : budget - (budget / bpg - 1) * bpg = bpg + budget mod bpg).
  { rewrite Hmod at 1. ring. }
  assert (Hdiv : (num_groups | budget) <-> budget / bpg = num_groups).
  { split.
    - intros [q Hq']. assert (Hbq : bpg = q).
      { unfold bpg. rewrite Hq'. replace (- (q * num_groups)) with ((- q) * num_groups) by ring.
        rewrite Z.div_mul by lia. ring. }
      assert (Hq1 : 1 <= q) by lia.
      replace (budget / bpg) with (num_groups * q / q); [apply Z.div_mul; lia|].
      rewrite Hbq. f_equal. rewrite Hq'. ring.
    - intros E. exists bpg. rewrite E in Hmod. nia. }
  destruct (Z.to_nat num_groups - 1 - Z.to_nat (budget / bpg - 1))%nat as [|m] eqn:Em.
  - split; [lia|]. intros Hnd. exfalso. apply Hnd, Hdiv. lia.
  - split; [|reflexivity]. intros _ Hd. apply Hdiv in Hd. lia.
Qed.

Lemma last_zero_when_uneven ng ns :
  1 <= ng -> allocate ng MAX_NUM_COLORS = Ok ns -> ~ (ng | MAX_NUM_COLORS) ->
  last ns 1 = 0 /\ List.length ns = Z.to_nat ng.
Proof.
  intros Hg Ha Hnd.
  destruct (allocate_last_bin ng MAX_NUM_COLORS Hg ltac:(unfold MAX_NUM_COLORS; lia))
    as (ns' & Ha' & Hl & Hlast).
  rewrite Ha in Ha'. injection Ha' as <-. split; [now apply Hlast | lia].
Qed.

(** X19: the last group gets no bin exactly when the number of groups
    does not divide the budget.  (With 255 bins: unless there are 2, 4,
    6, 16, 18, 52, 86 or 256 lines.) *)
Theorem last_group_is_empty (num_groups budget : Z) :
  1 <= num_groups -> 1 <= budget ->
  exists ns,
    allocate num_groups budget = Ok ns
    /\ Z.of_nat (List.length ns) = num_groups
    /\ (last ns 1 = 0 <-> ~ (num_groups | budget)).
Proof. apply allocate_last_bin. Qed.

Lemma last_group_is_empty_witness :
  exists ns,
    allocate 2 255 = Ok ns /\ Z.of_nat (List.length ns) = 2
    /\ (last ns 1 = 0 <-> ~ (2 | 255)).
Proof. apply (last_group_is_empty 2 255); lia. Defined.

Lemma groups_with_segments ng lines : forall i ns G,
  groups_with ng i lines ns = Ok G ->
  List.length ns = (List.length lines - 1)%nat ->
  exists segs,
    G = List.concat segs
    /\ List.length segs = List.length ns
    /\ forall j seg,
         nth_error segs j = Some seg ->
         exists a b n,
           nth_error lines j = Some a /\ nth_error lines (S j) = Some b
           /\ nth_error ns j = Some n
           /\ segment_stops (color a) (color b) (value a) (value b) n
                (opacity_of a) (opacity_of b) (negb (i + Z.of_nat j =? ng - 1))
              = Ok seg.
Proof.
  induction lines as [|a l IH]; intros i ns G H Hlen.
  { destruct ns; [|discriminate Hlen]. cbn in H. injection H as <-.
    exists []. split; [reflexivity|]. split; [reflexivity|].
    intros [|j] seg Hj; discriminate Hj. }
  destruct l as [|b rest].
  { destruct ns; [|discriminate Hlen]. cbn in H. injection H as <-.
    exists []. split; [reflexivity|]. split; [reflexivity|].
    intros [|j] seg Hj; discriminate Hj. }
  destruct ns as [|n ns]; [discriminate Hlen|].
  rewrite groups_with_cons in H.
  apply bind_Ok in H as (here & Hh & H).
  apply bind_Ok in H as (rest_stops & Hr & H). injection H as <-.
  destruct (IH (i + 1) ns rest_stops Hr) as (segs & -> & Hls & Hsegs);
    [cbn [List.length] in Hlen |- *; lia|].
  exists (here :: segs). split; [reflexivity|].
  split; [cbn [List.length]; now rewrite Hls|].
  intros [|j] seg Hj; cbn [nth_error] in Hj.
  - injection Hj as <-. exists a, b, n. repeat split. now rewrite Z.add_0_r.
  - destruct (Hsegs j seg Hj) as (a' & b' & n' & Ha' & Hb' & Hn' & Hs').
    exists a', b', n'. repeat split; try assumption.
    replace (i + Z.of_nat (S j)) with (i + 1 + Z.of_nat j) by lia. exact Hs'.
Qed.

(** X20: when the number of groups does not divide 255, the values are
    numbers and the run returns, the last pair of lines gets no stop.
    The gradient is the stops of one call for each pair of consecutive
    lines but the last pair, every call with its end excluded: no stop
    is computed between the last two lines, and no call includes its
    end. *)
Theorem last_pair_of_lines_gets_no_stop (lines : list line) (G : list stop) :
  forallb has_number lines = true ->
  gradient lines = Ok G ->
  (2 <= List.length lines)%nat ->
  ~ (Z.of_nat (List.length lines) - 1 | MAX_NUM_COLORS) ->
  exists segs,
    G = List.concat segs
    /\ Z.of_nat (List.length segs) = Z.of_nat (List.length lines) - 2
    /\ forall j seg,
         nth_error segs j = Some seg ->
         exists a b n,
           nth_error (sorted lines) j = Some a
           /\ nth_error (sorted lines) (S j) = Some b
           /\ segment_stops (color a) (color b) (value a) (value b) n
                (opacity_of a) (opacity_of b) true
              = Ok seg.
Proof.
  intros _ H H2 Hnd. pose proof (gradient_uses_allocation lines) as Hg. cbv zeta in Hg.
  set (ng := Z.of_nat (List.length lines) - 1) in *.
  rewrite Hg in H. apply bind_Ok in H as (ns & Ha & H).
  destruct (last_zero_when_uneven ng ns ltac:(unfold ng; lia) Ha Hnd) as [Hlast Hnl].
  destruct (groups_with_segments ng (sorted lines) 0 ns G H) as (segs & -> & Hls & Hsegs).
  { rewrite Hnl, sorted_length. unfold ng. lia. }
  assert (Hne : segs <> []).
  { intros ->. cbn in Hls. rewrite Hnl in Hls. unfold ng in Hls. lia. }
  destruct (exists_last Hne) as (segs' & sg & ->).
  assert (Hlen' : List.length segs' = (List.length lines - 2)%nat).
  { rewrite length_app in Hls. cbn [List.length] in Hls. rewrite Hnl in Hls.
    unfold ng in Hls. lia. }
  assert (Hsg : sg = []).
  { destruct (Hsegs (List.length segs') sg) as (a & b & n & _ & _ & Hn & Hs).
    { rewrite nth_error_app2 by lia. now rewrite Nat.sub_diag. }
    assert (n = 0).
    { rewrite <- Hlast. symmetry. apply last_nth_error.
      replace (List.length ns - 1)%nat with (List.length segs') by (rewrite Hnl, Hlen'; unfold ng; lia).
      exact Hn. }
    subst n. apply segment_stops_length in Hs. destruct sg; [reflexivity | discriminate]. }
  subst sg. exists segs'.
  split; [rewrite concat_app; cbn [List.concat]; now rewrite !app_nil_r|].
  split; [rewrite Hlen'; lia|].
  intros j seg Hj.
  assert (Hjl : (j < List.length segs')%nat) by (apply nth_error_Some; congruence).
  destruct (Hsegs j seg) as (a & b & n & Ha' & Hb' & _ & Hs).
  { rewrite nth_error_app1 by exact Hjl. exact Hj. }
  exists a, b, n. repeat split; try assumption.
  replace (negb (0 + Z.of_nat j =? ng - 1)) with true in Hs; [exact Hs|].
  symmetry. apply negb_true_iff, Z.eqb_neq. unfold ng. lia.
Qed.

Lemma last_pair_of_lines_gets_no_stop_witness :
  match gradient three_lines with
  | Ok G => exists segs, G = List.concat segs /\ Z.of_nat (List.length segs) = 3 - 2
  | Raise _ => False
  end.
Proof.
  destruct (gradient three_lines) as [G|e] eqn:E.
  - destruct (last_pair_of_lines_gets_no_stop three_lines G) as (segs & H1 & H2 & _).
    + reflexivity.
    + exact E.
    + cbn. lia.
    + intros [q Hq]. cbn in Hq. unfold MAX_NUM_COLORS in Hq. lia.
    + exists segs. split; [exact H1 | exact H2].
  - vm_compute in E. discriminate.
Defined.

(** *** The stops at the lines *)

Lemma segment_stops_inv sh fh sv ev n so eo ex stops :
  segment_stops sh fh sv ev n so eo ex = Ok stops ->
  exists delta s f,
    hex_to_RGB sh = Ok s /\ hex_to_RGB fh = Ok f
    /\ (stops <> [] -> 2 <= n)
    /\ forall i st, nth_error stops i = Some st ->
         step s f ev n so eo ex delta (Z.of_nat i) (accumulate delta i sv) = Ok st.
Proof.
  intros H. pose proof (segment_stops_length _ _ _ _ _ _ _ _ _ H) as Hlen.
  assert (Hn : stops <> [] -> 2 <= n).
  { intros Hne. destruct (Z.le_gt_cases n 1) as [Hle|]; [|lia].
    destruct (Z.eq_dec n 1) as [->|Hn1].
    - rewrite segment_stops_divides in H by reflexivity. discriminate.
    - replace (Z.to_nat n) with 0%nat in Hlen by lia.
      destruct stops; [contradiction | discriminate]. }
  unfold segment_stops in H.
  apply bind_Ok in H as (delta & _ & H).
  apply bind_Ok in H as (s & Hs & H).
  apply bind_Ok in H as (f & Hf & H).
  apply stops_loop_nth in H as (_ & H).
  exists delta, s, f. repeat split; try assumption.
Qed.

Lemma segment_first_stop sh fh (sv ev : float) (n : Z) so eo (ex : bool) st rest :
  n < 2 ^ 53 ->
  segment_stops sh fh sv ev n so eo ex = Ok (st :: rest) ->
  step_val st = sv /\ hex_to_RGB sh = Ok (curr_vector st) /\ opacity st = so.
Proof.
  intros Hn H. destruct (segment_stops_inv _ _ _ _ _ _ _ _ _ H)
    as (delta & s & f & Hs & Hf & H2 & Hnth).
  specialize (H2 ltac:(discriminate)).
  specialize (Hnth 0%nat st eq_refl). cbn [accumulate Z.of_nat] in Hnth.
  apply step_inv in Hnth as (Hv & _ & Ho & Hsv & _).
  split; [exact Hsv|]. split; [|exact Ho].
  rewrite Hs. f_equal.
  destruct (hex_to_RGB_range _ _ Hs) as (r0 & g0 & b0 & -> & Hr0 & Hg0 & Hb0).
  destruct (hex_to_RGB_range _ _ Hf) as (r1 & g1 & b1 & -> & Hr1 & Hg1 & Hb1).
  cbn [mapM] in Hv. unfold channel in Hv. cbn [nth] in Hv.
  assert (Hsteps : 1 <= (if ex then n else n - 1) < 2 ^ 53) by (destruct ex; lia).
  change (2 ^ 53) with 9007199254740992 in *.
  rewrite !first_channel_is_start in Hv
    by (change (2 ^ 53) with 9007199254740992; lia).
  cbn [bind] in Hv. now injection Hv.
Qed.

(** X21: every group that has stops starts at its first line.  When the
    values are numbers and the run returns, the gradient is, group after
    group, the stops of the pairs of consecutive lines, and the first
    stop of a group has exactly the value of the group's first line as
    the start of its range, the channels that [hex_to_RGB] reads from
    that line's colour, and that line's opacity. *)
Theorem groups_start_at_their_lines (lines : list line) (G : list stop) :
  forallb has_number lines = true ->
  gradient lines = Ok G ->
  exists segs,
    G = List.concat segs
    /\ List.length segs = (List.length lines - 1)%nat
    /\ forall j st rest,
         nth_error segs j = Some (st :: rest) ->
         exists a,
           nth_error (sorted lines) j = Some a
           /\ step_val st = value a
           /\ hex_to_RGB (color a) = Ok (curr_vector st)
           /\ opacity st = opacity_of a.
Proof.
  intros _ H. pose proof (gradient_uses_allocation lines) as Hg. cbv zeta in Hg.
  rewrite Hg in H. apply bind_Ok in H as (ns & Ha & H).
  pose proof (allocate_bounded _ _ Ha) as Hb.
  pose proof (allocate_length _ _ Ha) as Hl.
  destruct (groups_with_segments _ (sorted lines) 0 ns G H) as (segs & -> & Hls & Hsegs).
  { rewrite Hl, sorted_length. lia. }
  exists segs. split; [reflexivity|]. split; [rewrite Hls, Hl; lia|].
  intros j st rest Hj.
  destruct (Hsegs j _ Hj) as (a & b & n & Ha' & _ & Hn & Hs).
  rewrite Forall_forall in Hb. pose proof (Hb n (nth_error_In _ _ Hn)) as Hn53.
  destruct (segment_first_stop _ _ _ _ _ _ _ _ _ _ (proj2 Hn53) Hs) as (H1 & H2 & H3).
  exists a. auto.
Qed.

Lemma groups_start_at_their_lines_witness :
  match gradient two_lines with
  | Ok G => exists segs, G = List.concat segs /\ List.length segs = 1%nat
  | Raise _ => False
  end.
Proof.
  destruct (gradient two_lines) as [G|e] eqn:E.
  - destruct (groups_start_at_their_lines two_lines G eq_refl E) as (segs & H1 & H2 & _).
    exists segs. split; [exact H1 | exact H2].
  - vm_compute in E. discriminate.
Defined.

(** *** The ends of the ranges *)

Lemma SFleb_trans x y z :
  SFleb x y = true -> SFleb y z = true -> SFleb x z = true.
Proof.
  unfold SFleb.
  destruct x as [sx|sx| |sx mx ex], y as [sy|sy| |sy my ey], z as [sz|sz| |sz mz ez];
    cbn [SFcompare]; intros H1 H2; try discriminate; try reflexivity;
    try (destruct sx; try discriminate); try (destruct sy; try discriminate);
    try (destruct sz; try discriminate); try reflexivity;
    cbn [CompOpp] in *; compare_cases; subst; cbn [CompOpp] in *;
    try discriminate; try reflexivity; try lia.
Qed.

Lemma SFleb_of_not_ltb x y :
  SFeqb x x = true -> SFeqb y y = true -> SFltb y x = false -> SFleb x y = true.
Proof.
  unfold SFleb, SFltb, SFeqb.
  destruct x as [sx|sx| |sx mx ex], y as [sy|sy| |sy my ey];
    cbn [SFcompare]; intros H1 H2 H3; try discriminate; try reflexivity;
    try (destruct sx; try discriminate); try (destruct sy; try discriminate);
    try reflexivity;
    cbn [CompOpp] in *; compare_cases; subst; cbn [CompOpp] in *;
    try discriminate; try reflexivity; try lia.
Qed.

Lemma leb_trans (x y z : float) :
  (x <=? y)%float = true -> (y <=? z)%float = true -> (x <=? z)%float = true.
Proof. rewrite !leb_spec. apply SFleb_trans. Qed.

Lemma leb_of_not_ltb (x y : float) :
  (x =? x)%float = true -> (y =? y)%float = true ->
  (y <? x)%float = false -> (x <=? y)%float = true.
Proof. rewrite !eqb_spec, ltb_spec, leb_spec. apply SFleb_of_not_ltb. Qed.

Lemma segment_stops_ends sh fh sv ev n so eo ex stops :
  segment_stops sh fh sv ev n so eo ex = Ok stops ->
  Forall (fun st => upper_bound st = ev \/ (upper_bound st <=? ev)%float = true) stops.
Proof.
  intros H. destruct (segment_stops_inv _ _ _ _ _ _ _ _ _ H)
    as (delta & s & f & _ & _ & _ & Hnth).
  apply Forall_forall. intros st Hin. apply In_nth_error in Hin as (i & Hi).
  apply Hnth in Hi. apply step_inv in Hi as (_ & _ & _ & _ & Hub & _). rewrite Hub.
  destruct (Z.of_nat i =? n - 2); [now left|].
  destruct (accumulate delta i sv + delta <=? ev)%float eqn:E; [now right | now left].
Qed.

Lemma groups_with_ends ng lines : forall i ns G,
  groups_with ng i lines ns = Ok G ->
  Forall (fun st => exists l, In l lines
                    /\ (upper_bound st = value l
                        \/ (upper_bound st <=? value l)%float = true)) G.
Proof.
  induction lines as [|a l IH]; intros i ns G H.
  { cbn in H. injection H as <-. constructor. }
  destruct l as [|b rest].
  { destruct ns; cbn in H; injection H as <-; constructor. }
  destruct ns as [|n ns].
  { cbn in H. injection H as <-. constructor. }
  rewrite groups_with_cons in H.
  apply bind_Ok in H as (here & Hh & H).
  apply bind_Ok in H as (rest_stops & Hr & H). injection H as <-.
  apply Forall_app. split.
  - eapply Forall_impl; [|exact (segment_stops_ends _ _ _ _ _ _ _ _ _ Hh)].
    cbn beta. intros st Hst. exists b. split; [right; now left | exact Hst].
  - eapply Forall_impl; [|exact (IH _ _ _ Hr)].
    cbn beta. intros st (l & Hl & Hst). exists l. split; [now right | exact Hst].
Qed.

(** X22: no range ends beyond the largest value.  When the values of
    the lines are numbers and the run returns, the end of the range of
    every stop is at most the value of a line whose value no other line
    exceeds. *)
Theorem ranges_end_within_the_values (lines : list line) (G : list stop) (top : line) :
  forallb has_number lines = true ->
  In top lines -> (forall l, In l lines -> not_after l top) ->
  gradient lines = Ok G ->
  Forall (fun st => (upper_bound st <=? value top)%float = true) G.
Proof.
  intros Hn Htop Hmax H. pose proof (gradient_uses_allocation lines) as Hg. cbv zeta in Hg.
  rewrite Hg in H. apply bind_Ok in H as (ns & _ & H).
  rewrite forallb_forall in Hn.
  assert (Hle : forall l, In l lines -> (value l <=? value top)%float = true).
  { intros l Hl. apply leb_of_not_ltb.
    - exact (Hn l Hl).
    - exact (Hn top Htop).
    - exact (Hmax l Hl). }
  eapply Forall_impl; [|exact (groups_with_ends _ _ _ _ _ H)].
  cbn beta. intros st (l & Hl & Hst).
  assert (Hl' : In l lines)
    by (eapply Permutation_in; [apply Permutation_sym, sorted_perm | exact Hl]).
  destruct Hst as [->|Hst]; [now apply Hle|].
  eapply leb_trans; [exact Hst | now apply Hle].
Qed.

Lemma ranges_end_within_the_values_witness :
  match gradient two_lines with
  | Ok G => Forall (fun st => (upper_bound st <=? 10)%float = true) G
  | Raise _ => False
  end.
Proof.
  destruct (gradient two_lines) as [G|e] eqn:E.
  - apply (ranges_end_within_the_values two_lines G
             (Line "#0000ff" 10 (Some 1%float))).
    + reflexivity.
    + right. now left.
    + intros l [<-|[<-|[]]]; reflexivity.
    + exact E.
  - vm_compute in E. discriminate.
Defined.

(** *** The output files *)

Lemma write_options_app args a : forall b fs,
  write_options args (a ++ b) fs
  = match write_options args a fs with
    | (fs', None) => write_options args b fs'
    | (fs', Some r) => (fs', Some r)
    end.
Proof.
  induction a as [|[opt content] a IH]; intros b fs; [reflexivity|].
  cbn [app write_options].
  destruct (write_option args opt content fs) as [fs'|r]; [apply IH | reflexivity].
Qed.

Lemma item_beyond (args : list string) i :
  (List.length args <= i)%nat -> item args i = Raises IndexError.
Proof.
  intros H. unfold item. now rewrite (proj2 (nth_error_None args i) H).
Qed.

Lemma write_options_raise args todo : forall fs fs' r,
  write_options args todo fs = (fs', Some r) -> r = IndexError.
Proof.
  induction todo as [|[opt content] todo IH]; intros fs fs' r H; [discriminate|].
  cbn [write_options] in H. unfold write_option in H.
  destruct (contains opt args).
  - unfold item in H. destruct (nth_error args (index_of opt args + 1)); cbn [and_then] in H.
    + exact (IH _ _ _ H).
    + now injection H as _ <-.
  - exact (IH _ _ _ H).
Qed.

(** X23: an option that is the last argument stops the writing.  When
    one of the six options stands at the end of the command line, with
    no file name after it, the run raises IndexError in the block of
    that option: the files of the blocks before it, in the order of the
    blocks, are written by then, those of the blocks after it are not.
    IndexError is the only exception of the writing. *)
Theorem option_without_file_name (args : list string) (o : outputs)
    (before after : list (string * string)) (opt content : string) (fs fs' : files) :
  requests o = (before ++ (opt, content) :: after)%list ->
  contains opt args = true ->
  (index_of opt args + 1 = List.length args)%nat ->
  write_options args before fs = (fs', None) ->
  write_output_files args o fs = (fs', Some IndexError)
  /\ forall args0 o0 fs0 fs1 r,
       write_output_files args0 o0 fs0 = (fs1, Some r) -> r = IndexError.
Proof.
  intros Hr Hc Hi Hb. unfold write_output_files. split.
  - rewrite Hr, write_options_app, Hb. cbn [write_options]. unfold write_option.
    rewrite Hc, item_beyond by lia. reflexivity.
  - intros args0 o0 fs0 fs1 r. apply write_options_raise.
Qed.

Lemma option_without_file_name_witness :
  let o := Outputs "stops" "ranges" "css" "sld" "lut" "gibs" in
  write_output_files ["prog"; "in.csv"; "-ranges"; "r.json"; "-LUT"] o []
  = ([("r.json", "ranges")], Some IndexError).
Proof.
  intros o.
  apply (option_without_file_name ["prog"; "in.csv"; "-ranges"; "r.json"; "-LUT"] o
           [("-stops", out_stops o); ("-ranges", out_ranges o);
            ("-geoserverCSS", out_geoserverCSS o); ("-geoserverSLD", out_geoserverSLD o)]
           [("-gibs", out_gibs o)] "-LUT" (out_LUT o) []); reflexivity.
Defined.

Lemma write_options_values args args' todo :
  (forall opt, In opt (map fst todo) -> value_after args opt = value_after args' opt) ->
  forall fs, write_options args todo fs = write_options args' todo fs.
Proof.
  induction todo as [|[opt content] todo IH]; intros H fs; [reflexivity|].
  cbn [write_options].
  assert (Hw : write_option args opt content fs = write_option args' opt content fs).
  { specialize (H opt ltac:(now left)). unfold value_after in H. unfold write_option.
    destruct (contains opt args), (contains opt args'); try discriminate H.
    - injection H as ->. reflexivity.
    - reflexivity. }
  rewrite Hw. destruct (write_option args' opt content fs); [|reflexivity].
  apply IH. intros o Ho. apply H. now right.
Qed.

Lemma value_after_skip x args opt :
  x <> opt -> value_after (x :: args) opt = value_after args opt.
Proof.
  intros Hx. unfold value_after, contains. cbn [existsb index_of].
  assert (E : String.eqb opt x = false) by (apply String.eqb_neq; congruence).
  assert (E' : String.eqb x opt = false) by (now apply String.eqb_neq).
  rewrite E, E'. cbn [orb].
  destruct (existsb (String.eqb opt) args); reflexivity.
Qed.

(** The value that stands with an option among the pairs. *)
Lemma value_after_pairs opt : forall pairs,
  ~ In opt (map snd pairs) ->
  value_after (flatten pairs) opt
  = match find (fun p => String.eqb (fst p) opt) pairs with
    | Some p => Some (Returns (snd p))
    | None => None
    end.
Proof.
  induction pairs as [|[k v] pairs IH]; intros Hv; [reflexivity|].
  cbn [flatten flat_map app fst snd find]. fold (flatten pairs).
  cbn [map snd] in Hv.
  destruct (String.eqb_spec k opt) as [->|Hk].
  - unfold value_after, contains. cbn [existsb index_of].
    rewrite String.eqb_refl. reflexivity.
  - assert (Hvo : v <> opt) by (intros ->; apply Hv; now left).
    rewrite !value_after_skip by assumption.
    apply IH. intros Hin. apply Hv. now right.
Qed.

Lemma value_after_prefix opt : forall pre args,
  ~ In opt pre -> value_after (pre ++ args) opt = value_after args opt.
Proof.
  induction pre as [|x pre IH]; intros args Hp; [reflexivity|].
  cbn [app]. rewrite value_after_skip by (intros ->; apply Hp; now left).
  apply IH. intros Hin. apply Hp. now right.
Qed.

Lemma find_perm opt (pairs pairs' : list (string * string)) :
  Permutation pairs pairs' -> NoDup (map fst pairs) ->
  find (fun p => String.eqb (fst p) opt) pairs
  = find (fun p => String.eqb (fst p) opt) pairs'.
Proof.
  induction 1 as [|x l l' Hp IH|x y l|l l' l'' Hp1 IH1 Hp2 IH2]; intros Hnd.
  - reflexivity.
  - cbn [find]. cbn [map] in Hnd. inversion Hnd; subst.
    destruct (String.eqb (fst x) opt); [reflexivity | now apply IH].
  - cbn [find]. cbn [map] in Hnd. inversion Hnd as [|? ? Hnin _]; subst.
    destruct (String.eqb_spec (fst y) opt) as [Ey|Ey];
      destruct (String.eqb_spec (fst x) opt) as [Ex|Ex]; try reflexivity.
    exfalso. apply Hnin. left. congruence.
  - rewrite IH1 by exact Hnd. apply IH2.
    eapply Permutation_NoDup; [apply Permutation_map; exact Hp1 | exact Hnd].
Qed.

(** X24: the options may come in any order.  For a command line that
    ends in pairs of an option and a file name, with no option twice
    and no option name among the other arguments or the file names,
    the files written, and the exception if there is one, are the same
    for every order of the pairs. *)
Theorem options_in_any_order (pre : list string)
    (pairs pairs' : list (string * string)) (o : outputs) (fs : files) :
  Permutation pairs pairs' -> NoDup (map fst pairs) ->
  (forall opt, In opt (map fst (requests o)) ->
     ~ In opt pre /\ ~ In opt (map snd pairs)) ->
  write_output_files (pre ++ flatten pairs) o fs
  = write_output_files (pre ++ flatten pairs') o fs.
Proof.
  intros Hp Hnd Hopt. unfold write_output_files.
  apply write_options_values. intros opt Ho.
  destruct (Hopt opt Ho) as [Hpre Hval].
  assert (Hval' : ~ In opt (map snd pairs')).
  { intros Hin. apply Hval. eapply Permutation_in; [|exact Hin].
    apply Permutation_map, Permutation_sym, Hp. }
  rewrite !value_after_prefix by exact Hpre.
  rewrite !value_after_pairs by assumption.
  now rewrite (find_perm opt pairs pairs' Hp Hnd).
Qed.

Lemma options_in_any_order_witness :
  let o := Outputs "stops" "ranges" "css" "sld" "lut" "gibs" in
  write_output_files
    (["prog"; "in.csv"] ++ flatten [("-LUT", "lut.txt"); ("-stops", "stops.json")]) o []
  = write_output_files
      (["prog"; "in.csv"] ++ flatten [("-stops", "stops.json"); ("-LUT", "lut.txt")]) o [].
Proof.
  intros o.
  apply (options_in_any_order ["prog"; "in.csv"]
           [("-LUT", "lut.txt"); ("-stops", "stops.json")]
           [("-stops", "stops.json"); ("-LUT", "lut.txt")] o []).
  - apply perm_swap.
  - repeat constructor; cbn; intuition discriminate.
  - intros opt Ho. cbn in Ho. cbn.
    intuition (subst; discriminate).
Defined.
